(** * Quant/dequant insertion over the TorchScript IR

    A shallow embedding of
    [torch/csrc/jit/passes/quantization/insert_quant_dequant.cpp]:
    the graph IR it mutates (nodes, values, nested blocks, use lists, the
    insertion point), the module objects it reads calibration from, and the
    helper tables of [InsertQuantDeQuantHelper], followed by the properties
    of the pass. *)

From Stdlib Require Import ZArith Lia.
From stdpp Require Import base option list gmap strings pretty.

Set Default Proof Using "Type".
Set Warnings "-register-all".
Set Warnings "-notation-incompatible-prefix".
Local Open Scope string_scope.
Local Open Scope list_scope.
Local Open Scope nat_scope.

(** ** Results and errors *)

(** [c10::QScheme] (c10/core/QScheme.h). *)
Inductive QScheme :=
| kPerTensorAffine
| kPerChannelAffine
| kPerTensorSymmetric
| kPerChannelSymmetric.

#[global] Instance QScheme_eq_dec : EqDecision QScheme.
Proof. solve_decision. Defined.

(** A [Value*] is identified by its producing node ([Value::node()]) and its
    output slot ([Value::offset()]). *)
Definition NodeId := nat.
Definition Value : Type := NodeId * nat.
Definition GraphId := nat.
Definition ObjId := nat.
Definition TypeId := nat.

(** What [TORCH_CHECK], [TORCH_INTERNAL_ASSERT] and the IR's own assertions
    throw. *)
Inductive Error :=
| SchemeConflict (expected got : QScheme)
| MalformedResult (what : string)
| UndefinedDType
| UnexpectedGraphInput (v self : Value)
| IfOutputsNotOne
| WeightMismatch (v : Value)
| InternalAssert (what : string)
| OutOfRange (what : string)
| NoAttribute (name : string)
| NoMethod (name : string)
| OutOfFuel.

Inductive Res (A : Type) :=
| Ok (a : A)
| Err (e : Error).
Arguments Ok {A} a.
Arguments Err {A} e.

Definition rbind {A B} (m : Res A) (k : A → Res B) : Res B :=
  match m with
  | Ok a => k a
  | Err e => Err e
  end.


Definition from_option {A} (e : Error) (o : option A) : Res A :=
  match o with
  | Some a => Ok a
  | None => Err e
  end.

(** Code that threads a mutable object [S] and may throw. *)
Definition M (S A : Type) : Type := S → Res (A * S).

Definition ret {S A} (a : A) : M S A := λ s, Ok (a, s).
Definition bind {S A B} (m : M S A) (k : A → M S B) : M S B :=
  λ s, match m s with
       | Ok (a, s') => k a s'
       | Err e => Err e
       end.
Definition throw {S A} (e : Error) : M S A := λ _, Err e.
Definition get {S} : M S S := λ s, Ok (s, s).
Definition gets {S A} (f : S → A) : M S A := λ s, Ok (f s, s).
Definition modify {S} (f : S → S) : M S unit := λ s, Ok (tt, f s).
Definition lift {S A} (r : Res A) : M S A :=
  λ s, match r with Ok a => Ok (a, s) | Err e => Err e end.
Definition check {S} (b : bool) (e : Error) : M S unit :=
  if b then ret tt else throw e.

Declare Scope m_scope.
Delimit Scope m_scope with M.
Notation "x <- c1 ;; c2" := (bind c1 (λ x, c2))
  (at level 100, c1 at next level, right associativity) : m_scope.
Notation "c1 ;; c2" := (bind c1 (λ _, c2))
  (at level 100, right associativity) : m_scope.
Notation "x <-? c1 ;; c2" := (rbind c1 (λ x, c2))
  (at level 100, c1 at next level, right associativity) : m_scope.
Local Open Scope m_scope.

(** A [for] loop over a snapshot of a container. *)
Fixpoint for_each {S A} (l : list A) (body : A → M S unit) : M S unit :=
  match l with
  | [] => ret tt
  | x :: l' => body x ;; for_each l' body
  end.

(** ** Strings *)

Fixpoint starts_with (p s : string) : bool :=
  match p, s with
  | EmptyString, _ => true
  | String a p', String b s' => bool_decide (a = b) && starts_with p' s'
  | String _ _, EmptyString => false
  end.

(** [std::string::find]: the first position of [needle] in [s]; [None] is
    [std::string::npos]. *)
Fixpoint find (needle s : string) : option nat :=
  if starts_with needle s then Some 0
  else match s with
       | EmptyString => None
       | String _ s' => S <$> find needle s'
       end.

(** ** The graph IR *)

(** [c10::Symbol]: namespace and unqualified name. *)
Inductive NodeKind :=
| Prim (name : string)
| Aten (name : string).

#[global] Instance NodeKind_eq_dec : EqDecision NodeKind.
Proof. solve_decision. Defined.

Inductive TypeKind :=
| TensorT
| FloatT
| IntT
| BoolT
| NoneT
| ClassT (t : TypeId)
| OtherT.

#[global] Instance TypeKind_eq_dec : EqDecision TypeKind.
Proof. solve_decision. Defined.

(** [c10::ScalarType], as far as the pass distinguishes its members. *)
Inductive ScalarType :=
| kQInt8
| kQUInt8
| kQInt32
| kFloat
| kInt
| Undefined.

#[global] Instance ScalarType_eq_dec : EqDecision ScalarType.
Proof. solve_decision. Defined.

(** ** Values carried by attributes and constants *)

Section Pass.

(** [at::Tensor] and [double] are left abstract: the pass only moves them
    around and converts them with the library calls below. *)
Variables (Tensor Double : Type).

(** [c10::IValue]. *)
Inductive IValue :=
| IVNone
| IVBool (b : bool)
| IVInt (z : Z)
| IVDouble (d : Double)
| IVString (s : string)
| IVTensor (t : Tensor)
| IVTuple (elems : list IValue)
| IVScalarType (t : ScalarType)
| IVQScheme (q : QScheme)
| IVObject (o : ObjId).

(** ** Nodes, blocks and graphs *)

(** Metadata of one output [Value]: [debugName()] and [type()]. *)
Record OutMeta := mkOut {
  o_name : string;
  o_type : TypeKind;
}.

(** A [Node]: [kind()], the string attribute [attr::name], the constant
    attribute [attr::value], [inputs()] and [outputs()].  Its nested blocks
    are kept in the block tree below. *)
Record NodeData := mkNode {
  n_kind : NodeKind;
  n_name : option string;
  n_value : option IValue;
  n_inputs : list Value;
  n_outputs : list OutMeta;
}.

(** A [Block]: its [param_node()], its [return_node()] and its ordered
    [nodes()], each with the blocks nested under it. *)
Inductive Block :=
| mkBlock (param ret : NodeId) (body : list (NodeId * list Block)).

Definition b_param (b : Block) : NodeId :=
  match b with mkBlock p _ _ => p end.
Definition b_return (b : Block) : NodeId :=
  match b with mkBlock _ r _ => r end.
Definition b_body (b : Block) : list (NodeId * list Block) :=
  match b with mkBlock _ _ body => body end.
Definition b_nodes (b : Block) : list NodeId := (b_body b).*1.

(** A [Graph]: the arena of live nodes, the top-level block, the next fresh
    node identity, and the insertion point [insert_before_]. *)
Record Graph := mkGraph {
  g_nodes : gmap NodeId NodeData;
  g_block : Block;
  g_next : NodeId;
  g_insert_before : NodeId;
}.

Definition set_nodes (f : gmap NodeId NodeData → gmap NodeId NodeData)
    (g : Graph) : Graph :=
  mkGraph (f (g_nodes g)) (g_block g) (g_next g) (g_insert_before g).
Definition set_block (f : Block → Block) (g : Graph) : Graph :=
  mkGraph (g_nodes g) (f (g_block g)) (g_next g) (g_insert_before g).
Definition set_insert_before (n : NodeId) (g : Graph) : Graph :=
  mkGraph (g_nodes g) (g_block g) (g_next g) n.

(** *** The block tree *)

(** Rewrites the node list of every block, innermost blocks first. *)
Fixpoint edit_blocks
    (f : NodeId → list (NodeId * list Block) → list (NodeId * list Block))
    (b : Block) : Block :=
  match b with
  | mkBlock p r body =>
      mkBlock p r (f r (map (λ it, (it.1, map (edit_blocks f) it.2)) body))
  end.

Fixpoint insert_item (before : NodeId) (new : NodeId * list Block)
    (l : list (NodeId * list Block)) : list (NodeId * list Block) :=
  match l with
  | [] => []
  | it :: l' =>
      if decide (it.1 = before) then new :: it :: l'
      else it :: insert_item before new l'
  end.

(** [Node::insertBefore]: in front of [before] in its block list; in front
    of a return node is the end of the block. *)
Definition tree_insert (before : NodeId) (new : NodeId * list Block)
    : Block → Block :=
  edit_blocks (λ r body,
    if decide (r = before) then body ++ [new] else insert_item before new body).

(** [Node::removeFromList]. *)
Definition tree_remove (n : NodeId) : Block → Block :=
  edit_blocks (λ _ body, filter (λ it, it.1 ≠ n) body).

Fixpoint block_count (b : Block) : nat :=
  match b with
  | mkBlock _ _ body =>
      S (list_sum (map (λ it, list_sum (map block_count it.2)) body))
  end.

(** All blocks, outermost first. *)
Fixpoint all_blocks (b : Block) : list Block :=
  match b with
  | mkBlock _ _ body =>
      b :: (body ≫= λ it, it.2 ≫= all_blocks)
  end.

(** The nodes and return nodes of all blocks. *)
Fixpoint block_ids (b : Block) : list NodeId :=
  match b with
  | mkBlock _ r body =>
      r :: (body ≫= λ it, it.1 :: (it.2 ≫= block_ids))
  end.

(** The entry of node [n] in the block tree: [n] with [n->blocks()]. *)
Definition find_item (n : NodeId) (b : Block)
    : option (NodeId * list Block) :=
  snd <$> list_find (λ it, it.1 = n) (all_blocks b ≫= b_body).

(** The block whose list holds [n], either as a node or as its return node:
    [Node::owningBlock()] for a node that is [inBlockList()]. *)
Definition owning_block (n : NodeId) (b : Block) : option Block :=
  snd <$> list_find (λ b', n ∈ b_nodes b' ∨ n = b_return b') (all_blocks b).

(** [Node::next()]: the list of a block runs from its param node through
    its nodes to its return node. *)
Fixpoint next_in (n : NodeId) (ret : NodeId) (l : list NodeId) : option NodeId :=
  match l with
  | [] => None
  | x :: l' =>
      if decide (x = n) then Some (hd ret l') else next_in n ret l'
  end.

Definition tree_next (n : NodeId) (b : Block) : option NodeId :=
  match list_find (λ b', n = b_param b') (all_blocks b) with
  | Some (_, b') => Some (hd (b_return b') (b_nodes b'))
  | None => owning_block n b ≫= λ b', next_in n (b_return b') (b_nodes b')
  end.

(** Where a node stands: its index in the top block, then, for a node of a
    nested block, the index of that block under its owning node and the
    position inside it.  A param node stands before and a return node after
    the nodes of their block ([topo_position_]). *)
Fixpoint node_path (n : NodeId) (b : Block) : option (list nat) :=
  match b with
  | mkBlock p r body =>
      if decide (n = p) then Some [0]
      else if decide (n = r) then Some [S (length body)]
      else
        (fix in_body (i : nat) (l : list (NodeId * list Block)) :=
           match l with
           | [] => None
           | it :: l' =>
               if decide (it.1 = n) then Some [S i]
               else
                 match
                   (fix in_blocks (j : nat) (bs : list Block) :=
                      match bs with
                      | [] => None
                      | b' :: bs' =>
                          match node_path n b' with
                          | Some pth => Some (S i :: j :: pth)
                          | None => in_blocks (S j) bs'
                          end
                      end) 0 it.2
                 with
                 | Some pth => Some pth
                 | None => in_body (S i) l'
                 end
           end) 0 body
  end.

(** [Node::isAfter], on the positions of two nodes: compared in the first
    block that holds both of them or their owning nodes. *)
Fixpoint path_after (p q : list nat) : bool :=
  match p, q with
  | i :: p', j :: q' =>
      if decide (j < i) then true
      else if decide (i < j) then false
      else match p', q' with
           | bi :: p'', bj :: q'' =>
               if decide (bi = bj) then path_after p'' q'' else false
           | _, _ => false
           end
  | _, _ => false
  end.

(** The [while (!blocks_to_visit.empty())] walk that every pass starts with:
    pop a block, go through its nodes in order, push their sub-blocks.  The
    result is the nodes in the order the loop body meets them.  One unit of
    fuel is spent per popped block. *)
Fixpoint walk_blocks (fuel : nat) (blocks_to_visit : list Block)
    : list NodeId :=
  match fuel, blocks_to_visit with
  | S fuel', b :: rest =>
      b_nodes b ++
      walk_blocks fuel' (reverse (b_body b ≫= snd) ++ rest)
  | _, _ => []
  end.

Definition graph_nodes (g : Graph) : list NodeId :=
  walk_blocks (block_count (g_block g)) [g_block g].

(** *** Reading a graph *)

(** [n->inBlockList()] for a node that may serve as insertion point: a node
    or the return node of some block. *)
Definition in_block_list (n : NodeId) (g : Graph) : bool :=
  bool_decide (n ∈ block_ids (g_block g)).

Definition get_node (n : NodeId) : M Graph NodeData :=
  λ g, match g_nodes g !! n with
       | Some nd => Ok (nd, g)
       | None => Err (InternalAssert "dangling Node")
       end.

(** [n->kind()]. *)
Definition kind (n : NodeId) : M Graph NodeKind :=
  nd <- get_node n ;; ret (n_kind nd).

(** [n->s(attr::name)]; throws when the attribute is absent. *)
Definition s_name (n : NodeId) : M Graph string :=
  nd <- get_node n ;; lift (from_option (NoAttribute "name") (n_name nd)).

(** [n->inputs()]. *)
Definition inputs (n : NodeId) : M Graph (list Value) :=
  nd <- get_node n ;; ret (n_inputs nd).

(** [n->input(i)], [n->inputs().at(i)], [n->inputs()[i]]. *)
Definition input (n : NodeId) (i : nat) : M Graph Value :=
  nd <- get_node n ;; lift (from_option (OutOfRange "input") (n_inputs nd !! i)).

(** [n->outputs()]. *)
Definition outputs (n : NodeId) : M Graph (list Value) :=
  nd <- get_node n ;; ret (map (pair n) (seq 0 (length (n_outputs nd)))).

(** [n->output()]: asserts that the node has exactly one output. *)
Definition output (n : NodeId) : M Graph Value :=
  nd <- get_node n ;;
  check (bool_decide (length (n_outputs nd) = 1)) (InternalAssert "output") ;;
  ret (n, 0).

Definition value_meta (v : Value) : M Graph OutMeta :=
  nd <- get_node v.1 ;;
  lift (from_option (InternalAssert "dangling Value") (n_outputs nd !! v.2)).

(** [v->debugName()] and [v->type()]. *)
Definition debugName (v : Value) : M Graph string :=
  m <- value_meta v ;; ret (o_name m).
Definition type_of (v : Value) : M Graph TypeKind :=
  m <- value_meta v ;; ret (o_type m).

(** The slots of an input list that hold [v], counted from [i]. *)
Fixpoint slots_from (i : nat) (v : Value) (ins : list Value) : list nat :=
  match ins with
  | [] => []
  | x :: ins' =>
      if decide (x = v) then i :: slots_from (S i) v ins'
      else slots_from (S i) v ins'
  end.

Definition slots_of (v : Value) (ins : list Value) : list nat :=
  slots_from 0 v ins.

Definition node_uses (nodes : gmap NodeId NodeData) (v : Value) (u : NodeId)
    : list (NodeId * nat) :=
  match nodes !! u with
  | Some nd => map (pair u) (slots_of v (n_inputs nd))
  | None => []
  end.

(** [v->uses()]: every [(user, offset)] with [user->inputs()[offset] == v].
    Block outputs count, as inputs of the block's return node.  The list is
    given in node order; the pass never depends on the order of a use
    list. *)
Definition uses_in (g : Graph) (v : Value) : list (NodeId * nat) :=
  seq 0 (g_next g) ≫= node_uses (g_nodes g) v.

Definition uses (v : Value) : M Graph (list (NodeId * nat)) :=
  gets (λ g, uses_in g v).

(** [graph->inputs()]: the outputs of the top block's param node. *)
Definition graph_inputs (g : Graph) : list Value :=
  match g_nodes g !! b_param (g_block g) with
  | Some nd => map (pair (b_param (g_block g))) (seq 0 (length (n_outputs nd)))
  | None => []
  end.

(** [n->blocks()]. *)
Definition blocks (n : NodeId) : M Graph (list Block) :=
  λ g, match find_item n (g_block g) with
       | Some it => Ok (it.2, g)
       | None => Ok ([], g)
       end.

(** [b->outputs()]: the inputs of the return node. *)
Definition block_outputs (b : Block) : M Graph (list Value) :=
  inputs (b_return b).

(** [n->next()]. *)
Definition next (n : NodeId) : M Graph NodeId :=
  λ g, match tree_next n (g_block g) with
       | Some n' => Ok (n', g)
       | None => Err (InternalAssert "inBlockList")
       end.

(** [n->isAfter(m)]. *)
Definition isAfter (n m : NodeId) : M Graph bool :=
  λ g, match node_path n (g_block g), node_path m (g_block g) with
       | Some p, Some q => Ok (path_after p q, g)
       | _, _ => Err (InternalAssert "isAfter")
       end.

(** *** Mutating a graph *)

Definition update_node (n : NodeId) (f : NodeData → NodeData) : M Graph unit :=
  modify (set_nodes (alter f n)).

Definition with_inputs (ins : list Value) (nd : NodeData) : NodeData :=
  mkNode (n_kind nd) (n_name nd) (n_value nd) ins (n_outputs nd).
Definition with_outputs (outs : list OutMeta) (nd : NodeData) : NodeData :=
  mkNode (n_kind nd) (n_name nd) (n_value nd) (n_inputs nd) outs.

(** A fresh output is an unnamed dynamic tensor. *)
Definition fresh_out (n : NodeId) (i : nat) : OutMeta :=
  mkOut (pretty n +:+ "." +:+ pretty i) TensorT.

(** [graph->create(kind, inputs, num_outputs)].  The node is allocated but
    not yet in a block list. *)
Definition create_with (k : NodeKind) (name : option string)
    (value : option IValue) (ins : list Value) (num_outputs : nat)
    : M Graph NodeId :=
  λ g,
    let n := g_next g in
    let nd := mkNode k name value ins (map (fresh_out n) (seq 0 num_outputs)) in
    Ok (n, mkGraph (<[n := nd]> (g_nodes g)) (g_block g) (S n)
             (g_insert_before g)).

Definition create (k : NodeKind) (ins : list Value) (num_outputs : nat)
    : M Graph NodeId :=
  create_with k None None ins num_outputs.

(** [v->setDebugName(name)] and [v->setType(t)]. *)
Definition set_meta (v : Value) (f : OutMeta → OutMeta) : M Graph unit :=
  update_node v.1 (λ nd, with_outputs (alter f v.2 (n_outputs nd)) nd).
Definition setDebugName (v : Value) (name : string) : M Graph unit :=
  set_meta v (λ m, mkOut name (o_type m)).
Definition setType (v : Value) (t : TypeKind) : M Graph unit :=
  set_meta v (λ m, mkOut (o_name m) t).

(** [graph->insertNode(n)]: in front of the insertion point, which must
    still be in a block list. *)
Definition insertNode (n : NodeId) : M Graph NodeId :=
  g <- get ;;
  check (in_block_list (g_insert_before g) g) (InternalAssert "insertNode") ;;
  modify (set_block (tree_insert (g_insert_before g) (n, []))) ;;
  ret n.

(** [WithInsertPoint ins(n); body]: the guard sets the insertion point and
    restores the previous one when it goes out of scope. *)
Definition WithInsertPoint {A} (n : NodeId) (body : M Graph A) : M Graph A :=
  g <- get ;;
  check (in_block_list n g) (InternalAssert "setInsertPoint") ;;
  modify (set_insert_before n) ;;
  r <- body ;;
  modify (set_insert_before (g_insert_before g)) ;;
  ret r.

(** [user->replaceInput(i, v)]. *)
Definition replaceInput (user : NodeId) (i : nat) (v : Value) : M Graph unit :=
  nd <- get_node user ;;
  check (bool_decide (i < length (n_inputs nd))) (InternalAssert "dropInput") ;;
  update_node user (with_inputs (<[i := v]> (n_inputs nd))).

Definition subst_value (from to : Value) (x : Value) : Value :=
  if decide (x = from) then to else x.

(** [user->replaceInputWith(from, to)]: every slot holding [from]. *)
Definition replaceInputWith (user : NodeId) (from to : Value) : M Graph unit :=
  nd <- get_node user ;;
  update_node user (with_inputs (map (subst_value from to) (n_inputs nd))).

(** [from->replaceAllUsesWith(to)]. *)
Definition replaceAllUsesWith (from to : Value) : M Graph unit :=
  modify (set_nodes (fmap (λ nd,
    with_inputs (map (subst_value from to) (n_inputs nd)) nd))).

(** [n->removeAllInputs()]. *)
Definition removeAllInputs (n : NodeId) : M Graph unit :=
  _ <- get_node n ;;
  update_node n (with_inputs []).

(** [n->destroy()]: each output must be unused; the node then loses its
    inputs, leaves its block list and is freed. *)
Definition destroy (n : NodeId) : M Graph unit :=
  outs <- outputs n ;;
  g <- get ;;
  check (forallb (λ v, bool_decide (uses_in g v = [])) outs)
        (InternalAssert "eraseOutput") ;;
  modify (set_block (tree_remove n)) ;;
  modify (set_nodes (delete n)).

(** [n->moveBefore(target)]. *)
Definition moveBefore (n target : NodeId) : M Graph unit :=
  g <- get ;;
  it <- lift (from_option (InternalAssert "removeFromList")
                (find_item n (g_block g))) ;;
  modify (set_block (tree_remove n)) ;;
  g' <- get ;;
  check (in_block_list target g') (InternalAssert "insertBefore") ;;
  modify (set_block (tree_insert target it)).

Definition type_of_ivalue (v : IValue) : TypeKind :=
  match v with
  | IVNone => NoneT
  | IVBool _ => BoolT
  | IVInt _ | IVScalarType _ | IVQScheme _ => IntT
  | IVDouble _ => FloatT
  | IVTensor _ => TensorT
  | IVObject _ | IVString _ | IVTuple _ => OtherT
  end.

(** [graph->insertConstant(val)]. *)
Definition insertConstant (val : IValue) : M Graph Value :=
  n <- create_with (Prim "Constant") None (Some val) [] 1 ;;
  setType (n, 0) (type_of_ivalue val) ;;
  insertNode n ;;
  ret (n, 0).

(** [ClassType::getAttribute(name)], the declared type of a module
    attribute. *)
Variable getAttribute : TypeKind → string → TypeKind.

(** [graph->insertGetAttr(obj, field)]. *)
Definition insertGetAttr (obj : Value) (field : string) : M Graph Value :=
  n <- create_with (Prim "GetAttr") (Some field) None [obj] 1 ;;
  t <- type_of obj ;;
  setDebugName (n, 0) field ;;
  setType (n, 0) (getAttribute t field) ;;
  insertNode n ;;
  ret (n, 0).

(** ** Modules *)

(** An object ([c10::ivalue::Object]) with its attribute slots, and its
    [ClassType], shared by every instance: attribute names in slot order and
    the graph of each method. *)
Record Object := mkObject {
  obj_type : TypeId;
  obj_attrs : gmap string IValue;
}.

Record ClassType := mkClass {
  cls_attrs : list string;
  cls_methods : gmap string GraphId;
}.

(** Everything the pass can reach from the root [Module]. *)
Record World := mkWorld {
  w_graphs : gmap GraphId Graph;
  w_types : gmap TypeId ClassType;
  w_objects : gmap ObjId Object;
}.

Definition set_graphs (f : gmap GraphId Graph → gmap GraphId Graph)
    (w : World) : World :=
  mkWorld (f (w_graphs w)) (w_types w) (w_objects w).
Definition set_types (f : gmap TypeId ClassType → gmap TypeId ClassType)
    (w : World) : World :=
  mkWorld (w_graphs w) (f (w_types w)) (w_objects w).
Definition set_objects (f : gmap ObjId Object → gmap ObjId Object)
    (w : World) : World :=
  mkWorld (w_graphs w) (w_types w) (f (w_objects w)).

Definition get_object (w : World) (m : ObjId) : Res Object :=
  from_option (InternalAssert "dangling Module") (w_objects w !! m).

Definition get_class (w : World) (m : ObjId) : Res ClassType :=
  o <-? get_object w m ;;
  from_option (InternalAssert "dangling ClassType") (w_types w !! obj_type o).

Definition get_graph (w : World) (gid : GraphId) : Res Graph :=
  from_option (InternalAssert "dangling Graph") (w_graphs w !! gid).

(** [module.hasattr(name)]. *)
Definition hasattr (w : World) (m : ObjId) (name : string) : Res bool :=
  c <-? get_class w m ;; Ok (bool_decide (name ∈ cls_attrs c)).

(** [module.attr(name)]. *)
Definition attr (w : World) (m : ObjId) (name : string) : Res IValue :=
  o <-? get_object w m ;;
  c <-? get_class w m ;;
  if bool_decide (name ∈ cls_attrs c)
  then from_option (OutOfRange "getSlot") (obj_attrs o !! name)
  else Err (NoAttribute name).

(** [module._ivalue()->setAttr(name, v)]: the slot is found through the
    type. *)
Definition setAttr (m : ObjId) (name : string) (v : IValue) : M World unit :=
  λ w,
    o <-? get_object w m ;;
    c <-? get_class w m ;;
    if bool_decide (name ∈ cls_attrs c)
    then Ok (tt, set_objects
                   <[m := mkObject (obj_type o) (<[name := v]> (obj_attrs o))]> w)
    else Err (NoAttribute name).

(** [module.register_attribute(name, type, v)]: adds the attribute to the
    class type when it is new, then sets the slot of this instance. *)
Definition register_attribute (m : ObjId) (name : string) (v : IValue)
    : M World unit :=
  λ w,
    o <-? get_object w m ;;
    c <-? get_class w m ;;
    let c' := if bool_decide (name ∈ cls_attrs c) then c
              else mkClass (cls_attrs c ++ [name]) (cls_methods c) in
    setAttr m name v (set_types <[obj_type o := c']> w).

(** [module.get_method(name).graph()]. *)
Definition method_graph (w : World) (m : ObjId) (name : string) : Res GraphId :=
  c <-? get_class w m ;;
  from_option (NoMethod name) (cls_methods c !! name).

(** [value.toModule()], [toTuple()], [toTensor()], [toScalarType()],
    [toQScheme()], [toInt()]: each asserts the tag. *)
Definition toModule (v : IValue) : Res ObjId :=
  match v with IVObject o => Ok o | _ => Err (InternalAssert "toModule") end.
Definition toScalarType (v : IValue) : Res ScalarType :=
  match v with
  | IVScalarType t => Ok t
  | _ => Err (InternalAssert "toScalarType")
  end.
Definition toQScheme (v : IValue) : Res QScheme :=
  match v with IVQScheme q => Ok q | _ => Err (InternalAssert "toQScheme") end.
Definition toInt (v : IValue) : Res Z :=
  match v with IVInt z => Ok z | _ => Err (InternalAssert "toInt") end.
Definition isTensor (v : IValue) : bool :=
  match v with IVTensor _ => true | _ => false end.
Definition toTensor (v : IValue) : Res Tensor :=
  match v with IVTensor t => Ok t | _ => Err (InternalAssert "toTensor") end.

(** ** Collaborators outside this file *)

(** The one-argument [isWeight] and [getInvokedModule] of helper.h, the
    interpreter behind [Method::operator()], and the tensor conversions
    [Tensor::to(kFloat)], [Tensor::to(kInt)], [item<double>()] and
    [item<int64_t>()]. *)
Variable isWeightValue : Graph → Value → bool.
Variable getInvokedModule : World → ObjId → Graph → NodeId → Value → Res ObjId.
Variable invoke : World → ObjId → string → list IValue → Res IValue.
Variables to_kFloat to_kInt : Tensor → Tensor.
Variable item_double : Tensor → Double.
Variable item_int64 : Tensor → Z.

(** [hitGraphInput(v)] of quantization/helper.h: [v] is one of
    [v->owningGraph()->inputs()]. *)
Definition hitGraphInput (g : Graph) (v : Value) : bool :=
  bool_decide (v ∈ graph_inputs g).

(** ** The pass *)

Inductive QuantType := DYNAMIC | STATIC.

#[global] Instance QuantType_eq_dec : EqDecision QuantType.
Proof. solve_decision. Defined.

Definition toAffine (qscheme : QScheme) : QScheme :=
  match qscheme with
  | kPerTensorAffine | kPerTensorSymmetric => kPerTensorAffine
  | kPerChannelAffine | kPerChannelSymmetric => kPerChannelAffine
  end.

Definition isPerChannel (qscheme : QScheme) : bool :=
  bool_decide (qscheme = kPerChannelAffine) ||
  bool_decide (qscheme = kPerChannelSymmetric).

(** [isWeight(module, v)]: goes through the CallMethod graphs to see whether
    the value is a weight.  [gid] is [v->owningGraph()]; the recursion into
    the invoked graphs is bounded by [fuel]. *)
Fixpoint isWeight (fuel : nat) (w : World) (module : ObjId) (gid : GraphId)
    (v : Value) : Res bool :=
  match fuel with
  | O => Err OutOfFuel
  | S fuel' =>
      g <-? get_graph w gid ;;
      if isWeightValue g v then Ok true
      else
        self <-? from_option (OutOfRange "inputs") (graph_inputs g !! 0) ;;
        result <-? foldl (λ acc u,
          result <-? acc ;;
          nd <-? from_option (InternalAssert "dangling Node")
                   (g_nodes g !! u.1) ;;
          if bool_decide (n_kind nd = Prim "CallMethod") then
            m <-? getInvokedModule w module g u.1 self ;;
            name <-? from_option (NoAttribute "name") (n_name nd) ;;
            gid' <-? method_graph w m name ;;
            g' <-? get_graph w gid' ;;
            inp <-? from_option (OutOfRange "inputs")
                      (graph_inputs g' !! u.2) ;;
            call_method_result <-? isWeight fuel' w m gid' inp ;;
            match result with
            | Some r =>
                if bool_decide (call_method_result = r) then Ok result
                else Err (WeightMismatch v)
            | None => Ok (Some call_method_result)
            end
          else Ok result) (Ok None) (uses_in g v) ;;
        Ok (default false result)
  end.

Definition insertChooseQParams (original_val : Value) : M Graph NodeId :=
  reduce_range <- insertConstant (IVBool true) ;;
  choose_qparams <-
    create (Aten "_choose_qparams_per_tensor") [original_val; reduce_range] 2 ;;
  name <- debugName original_val ;;
  setDebugName (choose_qparams, 0) (name +:+ ".scale") ;;
  setType (choose_qparams, 0) FloatT ;;
  setDebugName (choose_qparams, 1) (name +:+ ".zero_point") ;;
  setType (choose_qparams, 1) IntT ;;
  insertNode choose_qparams.

Definition insertQuant (ins : list Value) (quant_kind : NodeKind)
    (name : string) : M Graph NodeId :=
  quant <- create quant_kind ins 1 ;;
  out <- output quant ;;
  setDebugName out name ;;
  insertNode quant.

Definition insertDeQuant (quantized_val original_val : Value) (id : nat)
    : M Graph NodeId :=
  dequant <- create (Aten "dequantize") [quantized_val] 1 ;;
  out <- output dequant ;;
  name <- debugName original_val ;;
  t <- type_of original_val ;;
  setDebugName out (name +:+ ".dequant." +:+ pretty id) ;;
  setType out t ;;
  insertNode dequant.

(** The loop of [insertDeQuantForAllUse] over the copied use list, from
    index [i] on. *)
Fixpoint insertDeQuantForUses (quantized_val original_val : Value)
    (us : list (NodeId * nat)) (i : nat) : M Graph (list Value) :=
  match us with
  | [] => ret []
  | (user, offset) :: us' =>
      out <- WithInsertPoint user (
        dequant <- insertDeQuant quantized_val original_val i ;;
        out <- output dequant ;;
        replaceInput user offset out ;;
        ret out) ;;
      outs <- insertDeQuantForUses quantized_val original_val us' (S i) ;;
      ret (out :: outs)
  end.

Definition insertDeQuantForAllUse (quantized_val original_val : Value)
    : M Graph (list Value) :=
  us <- uses original_val ;;
  insertDeQuantForUses quantized_val original_val us 0.

Definition insertQParam (quantized_input : Value) (node_kind : NodeKind)
    (output_type : TypeKind) (param_name : string) : M Graph NodeId :=
  qparam <- create node_kind [quantized_input] 1 ;;
  out <- output qparam ;;
  name <- debugName quantized_input ;;
  setDebugName out (name +:+ "." +:+ param_name) ;;
  setType out output_type ;;
  insertNode qparam.

Definition insertChooseQParamQuantDequant (original_val dtype : Value)
    (quant_kind : NodeKind) : M Graph (NodeId * NodeId * NodeId) :=
  choose_qparams <- insertChooseQParams original_val ;;
  outs <- outputs choose_qparams ;;
  let quant_inputs := [original_val] ++ outs ++ [dtype] in
  name <- debugName original_val ;;
  quant <- insertQuant quant_inputs quant_kind (name +:+ ".quant") ;;
  quant_out <- output quant ;;
  dequant <- insertDeQuant quant_out original_val 0 ;;
  ret (choose_qparams, quant, dequant).

(** A loop that collects one result per element. *)
Fixpoint map_m {S A B} (f : A → M S B) (l : list A) : M S (list B) :=
  match l with
  | [] => ret []
  | x :: l' => y <- f x ;; ys <- map_m f l' ;; ret (y :: ys)
  end.

(** [insertQuantizationOps]; [w], [gid] and [fuel] serve the call of
    [isWeight], [g] being the graph [gid] of [w] as it stands.  In static
    mode [choose_qparams] is never assigned: it is [None] and differs from
    every user. *)
Definition insertQuantizationOps (fuel : nat) (w : World) (gid : GraphId)
    (module : ObjId) (self : Value) (observer : NodeId) (is_per_channel : bool)
    (qparam_names : list string) (quant_type : QuantType) : M Graph unit :=
  observer_out <- output observer ;;
  after <- next observer_out.1 ;;
  WithInsertPoint after (
    let quantize_func :=
      if is_per_channel then "quantize_per_channel"
      else "quantize_per_tensor" in
    original_val <- input observer 1 ;;
    dynamic_activation <-
      (if decide (quant_type = DYNAMIC) then
         g <- get ;;
         is_weight <-
           lift (isWeight fuel (set_graphs <[gid := g]> w) module gid
                   observer_out) ;;
         ret (negb is_weight)
       else ret false) ;;
    ops <-
      (if dynamic_activation : bool then
         back <- lift (from_option (OutOfRange "back") (last qparam_names)) ;;
         dtype <- insertGetAttr self back ;;
         r <- insertChooseQParamQuantDequant observer_out dtype
                (Aten quantize_func) ;;
         ret (r.1.2, Some r.1.1, r.2)
       else
         qparams <- map_m (insertGetAttr self) qparam_names ;;
         name <- debugName original_val ;;
         quant <- insertQuant (observer_out :: qparams) (Aten quantize_func)
                    (name +:+ ".quant") ;;
         quant_out <- output quant ;;
         dequant <- insertDeQuant quant_out original_val 0 ;;
         ret (quant, None, dequant)) ;;
    let quant : NodeId := ops.1.1 in
    let choose_qparams : option NodeId := ops.1.2 in
    let dequant : NodeId := ops.2 in
    replaceAllUsesWith observer_out original_val ;;
    us <- uses original_val ;;
    dequant_out <- output dequant ;;
    for_each us (λ use,
      let user := use.1 in
      if bool_decide (user ≠ quant) && bool_decide (user ≠ observer) &&
         bool_decide (Some user ≠ choose_qparams)
      then replaceInputWith user original_val dequant_out
      else ret tt)).

(** Finds the observer for Value [v] and returns the name of the
    observer. *)
Definition findObserverName (v : Value) : M Graph (option string) :=
  let n := v.1 in
  k <- kind n ;;
  if bool_decide (k = Prim "CallMethod") then
    name <- s_name n ;;
    if bool_decide (name = "forward") then
      module_instance <- input n 0 ;;
      mk <- kind module_instance.1 ;;
      if bool_decide (mk = Prim "GetAttr") then
        attr_name <- s_name module_instance.1 ;;
        if bool_decide (find "_observer_" attr_name ≠ None)
        then ret (Some attr_name)
        else ret None
      else ret None
    else ret None
  else ret None.

Definition checkCalculateQParamsResult (qparams : IValue) : Res unit :=
  match qparams with
  | IVTuple elems =>
      if bool_decide (length elems = 2) then
        foldl (λ acc i,
          _ <-? acc ;;
          match elems !! i with
          | Some e =>
              if isTensor e then Ok tt
              else Err (MalformedResult "Element of Tuple is expected to be Tensor")
          | None => Err (OutOfRange "elements")
          end) (Ok tt) (seq 0 2)
      else Err (MalformedResult "expected to return a Tuple of size 2")
  | _ => Err (MalformedResult "expected to return a Tuple")
  end.

(** *** [InsertQuantDeQuantHelper] *)

(** The members of the helper.  Maps keyed by [Graph*] are keyed by the
    graph's identity, maps keyed by [Node*] or [Value*] by graph and node or
    value.  A [GraphFunction] built by [SubGraphCloneHelper] is kept as the
    node list it clones. *)
Record Helper := mkHelper {
  observer_modules_to_remove_ : gmap GraphId (list string);
  nodes_to_destroy_ : gmap GraphId (list NodeId);
  observer_nodes_for_graph_ : gmap GraphId (list NodeId);
  qparam_name_map_for_node_ : gmap (GraphId * NodeId) (gmap string string);
  qscheme_for_graph_ : gmap GraphId QScheme;
  quantized_values_ : gset Value;
  weight_to_graph_fn_ : gmap (GraphId * Value) (list NodeId);
  quant_type_ : QuantType;
}.

Definition empty_helper (quant_type : QuantType) : Helper :=
  mkHelper ∅ ∅ ∅ ∅ ∅ ∅ ∅ quant_type.

Definition set_observer_modules_to_remove f (h : Helper) : Helper :=
  mkHelper (f (observer_modules_to_remove_ h)) (nodes_to_destroy_ h)
    (observer_nodes_for_graph_ h) (qparam_name_map_for_node_ h)
    (qscheme_for_graph_ h) (quantized_values_ h) (weight_to_graph_fn_ h)
    (quant_type_ h).
Definition set_nodes_to_destroy f (h : Helper) : Helper :=
  mkHelper (observer_modules_to_remove_ h) (f (nodes_to_destroy_ h))
    (observer_nodes_for_graph_ h) (qparam_name_map_for_node_ h)
    (qscheme_for_graph_ h) (quantized_values_ h) (weight_to_graph_fn_ h)
    (quant_type_ h).
Definition set_observer_nodes_for_graph f (h : Helper) : Helper :=
  mkHelper (observer_modules_to_remove_ h) (nodes_to_destroy_ h)
    (f (observer_nodes_for_graph_ h)) (qparam_name_map_for_node_ h)
    (qscheme_for_graph_ h) (quantized_values_ h) (weight_to_graph_fn_ h)
    (quant_type_ h).
Definition set_qparam_name_map_for_node f (h : Helper) : Helper :=
  mkHelper (observer_modules_to_remove_ h) (nodes_to_destroy_ h)
    (observer_nodes_for_graph_ h) (f (qparam_name_map_for_node_ h))
    (qscheme_for_graph_ h) (quantized_values_ h) (weight_to_graph_fn_ h)
    (quant_type_ h).
Definition set_qscheme_for_graph f (h : Helper) : Helper :=
  mkHelper (observer_modules_to_remove_ h) (nodes_to_destroy_ h)
    (observer_nodes_for_graph_ h) (qparam_name_map_for_node_ h)
    (f (qscheme_for_graph_ h)) (quantized_values_ h) (weight_to_graph_fn_ h)
    (quant_type_ h).
Definition set_quantized_values f (h : Helper) : Helper :=
  mkHelper (observer_modules_to_remove_ h) (nodes_to_destroy_ h)
    (observer_nodes_for_graph_ h) (qparam_name_map_for_node_ h)
    (qscheme_for_graph_ h) (f (quantized_values_ h)) (weight_to_graph_fn_ h)
    (quant_type_ h).
Definition set_weight_to_graph_fn f (h : Helper) : Helper :=
  mkHelper (observer_modules_to_remove_ h) (nodes_to_destroy_ h)
    (observer_nodes_for_graph_ h) (qparam_name_map_for_node_ h)
    (qscheme_for_graph_ h) (quantized_values_ h) (f (weight_to_graph_fn_ h))
    (quant_type_ h).

(** The helper together with the modules and graphs it works on. *)
Record State := mkState {
  world : World;
  helper : Helper;
}.

Definition in_world {A} (m : M World A) : M State A :=
  λ st, match m (world st) with
        | Ok (a, w) => Ok (a, mkState w (helper st))
        | Err e => Err e
        end.

Definition in_helper {A} (m : M Helper A) : M State A :=
  λ st, match m (helper st) with
        | Ok (a, h) => Ok (a, mkState (world st) h)
        | Err e => Err e
        end.

(** Runs graph code on the graph [gid]. *)
Definition in_graph {A} (gid : GraphId) (m : M Graph A) : M World A :=
  λ w,
    g <-? get_graph w gid ;;
    match m g with
    | Ok (a, g') => Ok (a, set_graphs <[gid := g']> w)
    | Err e => Err e
    end.

(** Reads with graph code that leaves the graph as it is. *)
Definition eval {S A} (m : M S A) (s : S) : Res A :=
  match m s with
  | Ok (a, _) => Ok a
  | Err e => Err e
  end.

(** [push_back] on the vector stored under a key, created empty on first
    access. *)
Definition push_back {K A} `{Countable K} (k : K) (x : A)
    (m : gmap K (list A)) : gmap K (list A) :=
  <[k := default [] (m !! k) ++ [x]]> m.

(** The condition of the [TORCH_CHECK] reads
    [qscheme_for_graph_.at(g) == qscheme || "Quantizing same graph ..."]:
    the message literal is the right operand of [||], and a string literal
    is a non-null pointer, hence [true]. *)
Definition checkQScheme (g : GraphId) (qscheme : QScheme) : M Helper unit :=
  h <- get ;;
  match qscheme_for_graph_ h !! g with
  | Some recorded =>
      check (bool_decide (recorded = qscheme) || true)
            (SchemeConflict recorded qscheme)
  | None =>
      modify (set_qscheme_for_graph <[g := toAffine qscheme]>)
  end.

Definition collectObserverNodesAndValueToQuantize (module : ObjId)
    (g : GraphId) (v : Value) : M State unit :=
  gr <- in_world (λ w, gr <-? get_graph w g ;; Ok (gr, w)) ;;
  observer_name <- lift (eval (findObserverName v) gr) ;;
  match observer_name with
  | None => ret tt
  | Some name =>
      in_helper (modify (set_observer_modules_to_remove (push_back g name))) ;;
      let observer := v.1 in
      module_instance <- lift (eval (input observer 0) gr) ;;
      ok <- lift (eval (
        k <- kind observer ;;
        nm <- s_name observer ;;
        mk <- kind module_instance.1 ;;
        an <- s_name module_instance.1 ;;
        ret (bool_decide (k = Prim "CallMethod") &&
             bool_decide (nm = "forward") &&
             bool_decide (mk = Prim "GetAttr") &&
             bool_decide (an = name))) gr) ;;
      check ok (InternalAssert "collectObserverNodesAndValueToQuantize") ;;
      in_helper (
        modify (set_nodes_to_destroy (push_back g observer)) ;;
        modify (set_nodes_to_destroy (push_back g module_instance.1)) ;;
        modify (set_observer_nodes_for_graph (push_back g observer)))
  end.

(** Recursively finds the nodes that produce [input_val] and adds them to
    [weight_subgraph].  [fuel] bounds the depth of the recursion. *)
Fixpoint findSubgraph (fuel : nat) (g : Graph) (self input_val : Value)
    (weight_subgraph : list NodeId) : Res (list NodeId) :=
  match fuel with
  | O => Err OutOfFuel
  | S fuel' =>
      let node := input_val.1 in
      let weight_subgraph := weight_subgraph ++ [node] in
      ins <-? eval (inputs node) g ;;
      foldl (λ acc v,
        weight_subgraph <-? acc ;;
        if negb (hitGraphInput g v)
        then findSubgraph fuel' g self v weight_subgraph
        else if bool_decide (v = self) then Ok weight_subgraph
        else Err (UnexpectedGraphInput v self)) (Ok weight_subgraph) ins
  end.

(** Builds the callable of a node list and runs it on the module instance:
    [SubGraphCloneHelper::buildGraphFromNodes] and [GraphFunction::run],
    whose effect is the statistics the cloned observers collect. *)
Variable runGraphFunction : Graph → list NodeId → ObjId → World → Res World.

Definition extractAndRunWeightObserver (fuel : nat) (module : ObjId)
    (g : GraphId) (self weight_value : Value) : M State unit :=
  gr <- in_world (λ w, gr <-? get_graph w g ;; Ok (gr, w)) ;;
  h <- in_helper get ;;
  (if bool_decide (weight_to_graph_fn_ h !! (g, weight_value) = None) then
     weight_subgraph <- lift (findSubgraph fuel gr self weight_value []) ;;
     let weight_subgraph := reverse weight_subgraph in
     in_helper (modify (set_weight_to_graph_fn
                          <[(g, weight_value) := weight_subgraph]>))
   else ret tt) ;;
  h <- in_helper get ;;
  fn <- lift (from_option (InternalAssert "weight_to_graph_fn_")
                (weight_to_graph_fn_ h !! (g, weight_value))) ;;
  in_world (λ w, w' <-? runGraphFunction gr fn module w ;; Ok (tt, w')).

(** A list of [(name, value)] pairs, in the argument order of the quantize
    function. *)
Definition QParamVector : Type := list (string * IValue).

Definition getQSchemeAndQParamVector (w : World) (module : ObjId) (g : Graph)
    (n : NodeId) : Res (QScheme * QParamVector) :=
  v <-? eval (output n) g ;;
  t <-? eval (type_of v) g ;;
  if negb (bool_decide (t = TensorT))
  then Err (InternalAssert "Expected output of observer node to be Tensor")
  else
  observer_name <-? eval (findObserverName v) g ;;
  match observer_name with
  | None => Err (InternalAssert "expects the corresponding observer exists")
  | Some observer_name =>
      observer_module <-? rbind (attr w module observer_name) toModule ;;
      _ <-? method_graph w observer_module "calculate_qparams" ;;
      result <-? invoke w observer_module "calculate_qparams" [] ;;
      _ <-? checkCalculateQParamsResult result ;;
      scalar_type <-? attr w observer_module "dtype" ;;
      dtype <-? toScalarType scalar_type ;;
      if bool_decide (dtype = Undefined) then Err UndefinedDType
      else
      let elems := match result with IVTuple l => l | _ => [] end in
      scale <-? rbind (from_option (OutOfRange "elements") (elems !! 0))
                  toTensor ;;
      let scale := to_kFloat scale in
      zero_point <-? rbind (from_option (OutOfRange "elements") (elems !! 1))
                       toTensor ;;
      let zero_point := to_kInt zero_point in
      qscheme <-? rbind (attr w observer_module "qscheme") toQScheme ;;
      qparams <-?
        (if isPerChannel qscheme then
           axis <-? rbind (attr w observer_module "ch_axis") toInt ;;
           Ok [("_scale", IVTensor scale);
               ("_zero_point", IVTensor zero_point);
               ("_axis", IVInt axis)]
         else
           Ok [("_scale", IVDouble (item_double scale));
               ("_zero_point", IVInt (item_int64 zero_point))]) ;;
      Ok (qscheme, qparams ++ [("_scalar_type", scalar_type)])
  end.

(** The attribute name chosen by the [while (module.hasattr(qparam_name))]
    loop of [quantizeTensors], starting from suffix [uid].  Among
    [length attrs + 1] distinct candidates one is free, so [length attrs]
    probes are enough. *)
Fixpoint qparam_attr_name (probes : nat) (attrs : list string) (base : string)
    (uid : nat) : string :=
  let qparam_name := base +:+ "_" +:+ pretty uid in
  match probes with
  | O => qparam_name
  | S probes' =>
      if bool_decide (qparam_name ∈ attrs)
      then qparam_attr_name probes' attrs base (S uid)
      else qparam_name
  end.

Definition the_graph (g : GraphId) : M State Graph :=
  in_world (λ w, gr <-? get_graph w g ;; Ok (gr, w)).

Definition quantizeTensors (fuel : nat) (module : ObjId) (g : GraphId)
    (self : Value) : M State unit :=
  h <- in_helper get ;;
  match observer_nodes_for_graph_ h !! g with
  | None => ret tt
  | Some observers =>
      for_each observers (λ n,
        gr <- the_graph g ;;
        original_value <- lift (eval (input n 1) gr) ;;
        w <- gets world ;;
        tp <- lift (getQSchemeAndQParamVector w module gr n) ;;
        let qscheme := tp.1 in
        let qparam_map := tp.2 in
        in_helper (checkQScheme g qscheme) ;;
        base <- lift (eval (debugName original_value) gr) ;;
        qparam_names <- map_m (λ pr,
          let name : string := pr.1 in
          let qparam : IValue := pr.2 in
          w <- gets world ;;
          c <- lift (get_class w module) ;;
          let qparam_name :=
            qparam_attr_name (length (cls_attrs c)) (cls_attrs c)
              (base +:+ name) 0 in
          in_helper (modify (set_qparam_name_map_for_node (λ m,
            <[(g, n) := <[name := qparam_name]> (default ∅ (m !! (g, n)))]> m))) ;;
          in_world (register_attribute module qparam_name qparam) ;;
          ret qparam_name) qparam_map ;;
        h <- in_helper get ;;
        w <- gets world ;;
        in_world (in_graph g (
          insertQuantizationOps fuel w g module self n (isPerChannel qscheme)
            qparam_names (quant_type_ h))))
  end.

(** The methods a method calls on [self] or on a child module that is not an
    observer, in the order of the block walk. *)
Definition getInvokedMethods (w : World) (module : ObjId)
    (method_name : string) : Res (list (ObjId * string)) :=
  gid <-? method_graph w module method_name ;;
  graph <-? get_graph w gid ;;
  foldl (λ acc n,
    invoked_methods <-? acc ;;
    k <-? eval (kind n) graph ;;
    if bool_decide (k = Prim "CallMethod") then
      module_instance <-? eval (input n 0) graph ;;
      module_method_name <-? eval (s_name n) graph ;;
      self <-? from_option (OutOfRange "inputs") (graph_inputs graph !! 0) ;;
      m <-?
        (if bool_decide (module_instance = self) then Ok (Some module)
         else
           mk <-? eval (kind module_instance.1) graph ;;
           if bool_decide (mk = Prim "GetAttr") then
             an <-? eval (s_name module_instance.1) graph ;;
             if bool_decide (find "_observer_" an = None) then
               m <-? getInvokedModule w module graph n self ;; Ok (Some m)
             else Ok None
           else Ok None) ;;
      match m with
      | Some m => Ok (invoked_methods ++ [(m, module_method_name)])
      | None => Ok invoked_methods
      end
    else Ok invoked_methods) (Ok []) (graph_nodes graph).

(** The part of [run] for a graph that is already in
    [observer_nodes_for_graph_]: only the parameters are registered anew. *)
Definition reregister (module : ObjId) (g : GraphId) (observers : list NodeId)
    : M State unit :=
  for_each observers (λ n,
    gr <- the_graph g ;;
    w <- gets world ;;
    tp <- lift (getQSchemeAndQParamVector w module gr n) ;;
    in_helper (checkQScheme g tp.1) ;;
    let qparam_map := tp.2 in
    h <- in_helper get ;;
    qparam_name_map <-
      lift (from_option (InternalAssert "Expected to have a qparam_name_map")
              (qparam_name_map_for_node_ h !! (g, n))) ;;
    for_each qparam_map (λ pr,
      attr_name <- lift (from_option (OutOfRange "at")
                           (qparam_name_map !! pr.1)) ;;
      in_world (setAttr module attr_name pr.2))).

(** [InsertQuantDeQuantHelper::run]; [fuel] bounds the depth of the call
    graph. *)
Fixpoint run (fuel : nat) (module : ObjId) (method_name : string)
    : M State unit :=
  match fuel with
  | O => throw OutOfFuel
  | S fuel' =>
      w <- gets world ;;
      invoked_methods <- lift (getInvokedMethods w module method_name) ;;
      for_each invoked_methods (λ im, run fuel' im.1 im.2) ;;
      w <- gets world ;;
      g <- lift (method_graph w module method_name) ;;
      h <- in_helper get ;;
      match observer_nodes_for_graph_ h !! g with
      | Some observers => reregister module g observers
      | None =>
          graph <- the_graph g ;;
          input_values <- lift (eval (
            map_m (λ v, t <- type_of v ;; ret (v, t))
                  (drop 1 (graph_inputs graph))) graph) ;;
          let input_values :=
            (filter (λ vt, vt.2 = TensorT) input_values).*1 in
          for_each (graph_nodes graph) (λ n,
            outs <- lift (eval (outputs n) graph) ;;
            for_each outs (λ v,
              t <- lift (eval (type_of v) graph) ;;
              if bool_decide (t = TensorT)
              then collectObserverNodesAndValueToQuantize module g v
              else ret tt)) ;;
          for_each input_values
            (collectObserverNodesAndValueToQuantize module g) ;;
          self <- lift (from_option (OutOfRange "inputs")
                          (graph_inputs graph !! 0)) ;;
          quantizeTensors fuel module g self
      end
  end.

(** A loop that keeps the elements passing a test. *)
Fixpoint filter_m {S A} (f : A → M S bool) (l : list A) : M S (list A) :=
  match l with
  | [] => ret []
  | x :: l' =>
      b <- f x ;;
      r <- filter_m f l' ;;
      ret (if b then x :: r else r)
  end.

Definition ReplicateQuant : M Graph unit :=
  graph <- get ;;
  quant_nodes_to_rewrite <- filter_m (λ n,
    k <- kind n ;;
    if bool_decide (k = Aten "quantize_per_tensor") ||
       bool_decide (k = Aten "quantize_per_channel") then
      in0 <- input n 0 ;;
      pk <- kind in0.1 ;;
      ret (bool_decide (pk = Prim "If"))
    else ret false) (graph_nodes graph) ;;
  for_each quant_nodes_to_rewrite (λ n,
    in0 <- input n 0 ;;
    let if_node := in0.1 in
    ins <- inputs n ;;
    for_each (seq 1 (length ins - 1)) (λ i,
      v <- input n i ;;
      moveBefore v.1 if_node) ;;
    out <- output n ;;
    if_out <- output if_node ;;
    replaceAllUsesWith out if_out ;;
    if_blocks <- blocks if_node ;;
    for_each if_blocks (λ if_block,
      outs <- block_outputs if_block ;;
      check (bool_decide (length outs = 1)) IfOutputsNotOne ;;
      ret_val <- lift (from_option (OutOfRange "outputs") (outs !! 0)) ;;
      quantize_inputs <- inputs n ;;
      let quantize_inputs := <[0 := ret_val]> quantize_inputs in
      WithInsertPoint (b_return if_block) (
        k <- kind n ;;
        quant <- create k quantize_inputs 1 ;;
        quant_out <- output quant ;;
        replaceInput (b_return if_block) 0 quant_out ;;
        m <- value_meta ret_val ;;
        set_meta quant_out (λ _, m) ;;
        insertNode quant ;;
        ret tt))) ;;
  for_each quant_nodes_to_rewrite removeAllInputs ;;
  for_each quant_nodes_to_rewrite destroy.

Definition ReplicateDeQuant : M Graph unit :=
  graph <- get ;;
  dequant_nodes_to_rewrite <- filter_m (λ n,
    k <- kind n ;;
    if bool_decide (k = Aten "dequantize") then
      out <- output n ;;
      us <- uses out ;;
      ret (bool_decide (1 < length us))
    else ret false) (graph_nodes graph) ;;
  for_each dequant_nodes_to_rewrite (λ n,
    quantized_val <- input n 0 ;;
    dequantized_val <- output n ;;
    insertDeQuantForAllUse quantized_val dequantized_val ;;
    ret tt) ;;
  for_each dequant_nodes_to_rewrite removeAllInputs ;;
  for_each dequant_nodes_to_rewrite destroy.

(** [v->replaceAllUsesAfterNodeWith(node, newValue)]. *)
Definition replaceAllUsesAfterNodeWith (v : Value) (node : NodeId)
    (newValue : Value) : M Graph unit :=
  us <- uses v ;;
  for_each us (λ u,
    after <- isAfter u.1 node ;;
    if after : bool then replaceInput u.1 u.2 newValue else ret tt).

(** [graph->createClone(n, value_map)] with the identity as value map. *)
Definition createClone (n : NodeId) : M Graph NodeId :=
  nd <- get_node n ;;
  c <- create_with (n_kind nd) (n_name nd) (n_value nd) (n_inputs nd) 0 ;;
  update_node c (with_outputs (n_outputs nd)) ;;
  ret c.

Definition insertScalarToTensor (scalar_value : Value) : M Graph NodeId :=
  let n := scalar_value.1 in
  after <- next n ;;
  WithInsertPoint after (
    float_scalar_type <- insertConstant (IVScalarType kFloat) ;;
    none <- insertConstant IVNone ;;
    tensor_node <- create (Aten "scalar_tensor")
                     [scalar_value; float_scalar_type; none; none; none] 1 ;;
    tensor_output <- output tensor_node ;;
    name <- debugName scalar_value ;;
    setDebugName tensor_output (name +:+ ".tensor") ;;
    insertNode tensor_node ;;
    replaceAllUsesAfterNodeWith scalar_value tensor_node tensor_output ;;
    ret tensor_node).

Definition insertItem (tensor : Value) (output_type : TypeKind)
    : M Graph NodeId :=
  after <- next tensor.1 ;;
  WithInsertPoint after (
    n <- create (Aten "item") [tensor] 1 ;;
    scalar <- output n ;;
    name <- debugName tensor ;;
    setDebugName scalar (name +:+ ".scalar") ;;
    setType scalar output_type ;;
    insertNode n).

(** The classification of operations in quantization/helper.h. *)
Variable getClampScalarInputUse : Graph → Value → bool.
Variable isSingleInputGeneralValueAtenFunction : Graph → NodeId → bool.
Variable isClamp : Graph → NodeId → bool.
Variable getFixedQParams : Graph → NodeId → option (QScheme * QParamVector).
Variable getPassThroughInputs : Graph → Value → list Value.

(** The nodes are gathered in an [unordered_set]; they are kept here in the
    order of the walk, each once. *)
Definition ReplicateClampScalarArgs : M Graph unit :=
  graph <- get ;;
  scalar_nodes_to_rewrite <- filter_m (λ n,
    outs <- outputs n ;;
    hits <- map_m (λ out,
      us <- uses out ;;
      ret (getClampScalarInputUse graph out && bool_decide (1 < length us)))
      outs ;;
    ret (existsb id hits)) (graph_nodes graph) ;;
  for_each scalar_nodes_to_rewrite (λ n,
    out <- output n ;;
    us <- uses out ;;
    for_each us (λ use,
      WithInsertPoint use.1 (
        cloned_node <- createClone n ;;
        insertNode cloned_node ;;
        cloned_out <- output cloned_node ;;
        replaceInput use.1 use.2 cloned_out))) ;;
  for_each scalar_nodes_to_rewrite removeAllInputs ;;
  for_each scalar_nodes_to_rewrite destroy.

(** Graph code applied to the graph [g] of the state. *)
Definition on {A} (g : GraphId) (m : M Graph A) : M State A :=
  in_world (in_graph g m).

Definition isQuantized (v : Value) : M State bool :=
  h <- in_helper get ;;
  ret (bool_decide (v ∈ quantized_values_ h)).

(** [propagateQParams] on the graph [g].  The guard [ins] lives until the
    function returns; the calls after [insertDeQuantForAllUse] set insertion
    points of their own, so its scope is closed there. *)
Definition propagateQParams (g : GraphId) (original_output : Value)
    (ins : list Value) (is_scalar : bool)
    (qparams_opt : option (QScheme * QParamVector)) : M State unit :=
  let n := original_output.1 in
  r <- on g (
    if is_scalar then
      n <- insertScalarToTensor original_output ;;
      out <- output n ;;
      ret (out, n)
    else ret (original_output, n)) ;;
  let original_output : Value := r.1 in
  let n : NodeId := r.2 in
  check (bool_decide (length ins = 1))
        (InternalAssert "Expecting single input for the aten function") ;;
  outs <- on g (
    in0 <- lift (from_option (OutOfRange "inputs") (ins !! 0)) ;;
    quantized_input <- input in0.1 0 ;;
    let quantized_input_node := quantized_input.1 in
    later <- isAfter quantized_input_node n ;;
    after <- (if later : bool then next quantized_input_node else next n) ;;
    WithInsertPoint after (
      quantized_name <- debugName quantized_input ;;
      q <-
        match qparams_opt with
        | Some (qscheme, qparams) =>
            let quant_kind :=
              if isPerChannel qscheme then Aten "quantize_per_channel"
              else Aten "quantize_per_tensor" in
            vals <- map_m (λ qparam : string * IValue,
              qparam_val <- insertConstant qparam.2 ;;
              setDebugName qparam_val (quantized_name +:+ qparam.1) ;;
              ret qparam_val) qparams ;;
            ret (quant_kind, original_output :: vals)
        | None =>
            scale <- insertQParam quantized_input (Aten "q_scale") FloatT
                       "q_scale" ;;
            zero_point <- insertQParam quantized_input (Aten "q_zero_point")
                            IntT "q_zero_point" ;;
            dtype <- insertQParam quantized_input (Prim "dtype") IntT "dtype" ;;
            scale_out <- output scale ;;
            zero_point_out <- output zero_point ;;
            dtype_out <- output dtype ;;
            ret (Aten "quantize_per_tensor",
                 [original_output; scale_out; zero_point_out; dtype_out])
        end ;;
      name <- debugName original_output ;;
      quant <- insertQuant q.2 q.1 (name +:+ ".quant") ;;
      quantized_output <- output quant ;;
      replaceAllUsesAfterNodeWith original_output quant quantized_output ;;
      insertDeQuantForAllUse quantized_output quantized_output)) ;;
  for_each outs (λ out,
    out <- on g (
      if is_scalar then
        item <- insertItem out FloatT ;;
        scalar <- output item ;;
        replaceAllUsesAfterNodeWith out item scalar ;;
        ret scalar
      else ret out) ;;
    in_helper (modify (set_quantized_values (λ s, {[out]} ∪ s)))).

Definition removeDequantizeFromInputs (ins : list Value) : M Graph unit :=
  for_each ins (λ dequantized_val,
    let dequantize_node := dequantized_val.1 in
    us <- uses dequantized_val ;;
    check (bool_decide (length us = 1))
          (InternalAssert "Expect to have one dequantize node for each use") ;;
    in0 <- input dequantize_node 0 ;;
    replaceAllUsesWith dequantized_val in0 ;;
    removeAllInputs dequantize_node ;;
    destroy dequantize_node).

Definition getDequantizedInputs (out : Value)
    : M Graph (option (list Value)) :=
  graph <- get ;;
  let ins := getPassThroughInputs graph out in
  if bool_decide (0 < length ins) then
    kinds <- map_m (λ i : Value, kind i.1) ins ;;
    if forallb (λ k, bool_decide (k = Aten "dequantize")) kinds
    then ret (Some ins)
    else ret None
  else ret None.

(** [propagateQuantizationOps] on a block: the loop over [block->nodes()]
    standing at node [n] of a block whose return node is [stop].  The iterator moves to [n->next()] after the body has run, so
    nodes inserted behind [n] are visited too.  One unit of [fuel] is spent
    per visited node. *)
Fixpoint propagateQuantizationOps (fuel : nat) (g : GraphId)
    (n stop : NodeId) : M State unit :=
  match fuel with
  | O => throw OutOfFuel
  | S fuel' =>
      if decide (n = stop) then ret tt
      else
        k <- on g (kind n) ;;
        skip <-
          (if bool_decide (k = Prim "If") then
             subblocks <- on g (blocks n) ;;
             for_each subblocks (λ subblock,
               propagateQuantizationOps fuel' g
                 (hd (b_return subblock) (b_nodes subblock))
                 (b_return subblock)) ;;
             outs <- on g (outputs n) ;;
             ret (bool_decide (length outs = 0) ||
                  bool_decide (1 < length outs))
           else ret false) ;;
        (if skip : bool then ret tt
         else
           graph <- the_graph g ;;
           outs <- on g (outputs n) ;;
           if isSingleInputGeneralValueAtenFunction graph n then
             for_each outs (λ out,
               quantized <- isQuantized out ;;
               if quantized : bool then ret tt
               else
                 inputs_opt <- on g (getDequantizedInputs out) ;;
                 match inputs_opt with
                 | Some ins =>
                     propagateQParams g out ins false None ;;
                     graph <- the_graph g ;;
                     if isClamp graph n then
                       for_each [1; 2] (λ i,
                         v <- on g (input n i) ;;
                         propagateQParams g v ins true None)
                     else ret tt
                 | None => ret tt
                 end)
           else
             match getFixedQParams graph n with
             | Some qparams =>
                 for_each outs (λ out,
                   quantized <- isQuantized out ;;
                   if quantized : bool then ret tt
                   else
                     inputs_opt <- on g (getDequantizedInputs out) ;;
                     match inputs_opt with
                     | Some ins =>
                         propagateQParams g out ins false (Some qparams)
                     | None => ret tt
                     end)
             | None =>
                 collected <- map_m (λ out,
                   quantized <- isQuantized out ;;
                   if quantized : bool then ret None
                   else
                     inputs_opt <- on g (getDequantizedInputs out) ;;
                     ret (option_map (pair out) inputs_opt)) outs ;;
                 let found := omap id collected in
                 let dequantized_inputs := remove_dups (found ≫= snd) in
                 let outputs_to_dequantize := found.*1 in
                 on g (removeDequantizeFromInputs dequantized_inputs) ;;
                 for_each outputs_to_dequantize (λ out,
                   on g (insertDeQuantForAllUse out out) ;; ret tt)
             end) ;;
        after <- on g (next n) ;;
        propagateQuantizationOps fuel' g after stop
  end.

(** The rewrites of [propagateQuantizationOps] on a module from [ReplicateQuant]
    to the propagation over the top block of the inlined graph [g]; the
    pattern-driven steps around them belong to the subgraph rewriter. *)
Definition propagateQuantizationOps_graph (fuel : nat) (g : GraphId)
    : M State unit :=
  on g ReplicateQuant ;;
  on g ReplicateDeQuant ;;
  on g ReplicateClampScalarArgs ;;
  graph <- the_graph g ;;
  let block := g_block graph in
  propagateQuantizationOps fuel g (hd (b_return block) (b_nodes block))
    (b_return block).

(** ** Well-formed graphs and what the properties speak about *)

(** The IR's schema for the nodes the pass inspects: a [prim::CallMethod]
    carries [attr::name] and its receiver as input 0, a [prim::GetAttr]
    carries [attr::name], and every input is produced by a live node. *)
Definition node_schema (g : Graph) (nd : NodeData) : Prop :=
  (n_kind nd = Prim "CallMethod" →
     is_Some (n_name nd) ∧ is_Some (n_inputs nd !! 0)) ∧
  (n_kind nd = Prim "GetAttr" → is_Some (n_name nd)) ∧
  Forall (λ v : Value, is_Some (g_nodes g !! v.1)) (n_inputs nd).

Definition schema_ok (g : Graph) : Prop :=
  map_Forall (λ _ nd, node_schema g nd) (g_nodes g).

(** [s] occurs in [name]. *)
Definition has_substring (s name : string) : Prop :=
  ∃ pre post, name = pre +:+ s +:+ post.

(** [v] is the result of calling [forward] on the module attribute [name],
    and [name] follows the observer naming convention. *)
Definition observer_call (g : Graph) (v : Value) (name : string) : Prop :=
  ∃ (nd : NodeData) (module_instance : Value) (md : NodeData),
    g_nodes g !! v.1 = Some nd ∧
    n_kind nd = Prim "CallMethod" ∧
    n_name nd = Some "forward" ∧
    n_inputs nd !! 0 = Some module_instance ∧
    g_nodes g !! module_instance.1 = Some md ∧
    n_kind md = Prim "GetAttr" ∧
    n_name md = Some name ∧
    has_substring "_observer_" name.

(** A list of nodes can be executed front to back: every input of a node
    is the root input or is produced by a node standing earlier. *)
Definition execution_order (g : Graph) (self : Value) (l : list NodeId)
    : Prop :=
  ∀ (i : nat) (n : NodeId) (nd : NodeData) (v : Value),
    l !! i = Some n → g_nodes g !! n = Some nd → v ∈ n_inputs nd →
    v = self ∨ ∃ j, j < i ∧ l !! j = Some v.1.

(** The values the backward walk from [w] looks at: the inputs of the node
    producing [w], and, through every input that is not a graph input, the
    values that walk looks at. *)
Inductive traced (g : Graph) : Value → Value → Prop :=
| traced_input (w : Value) (nd : NodeData) (v : Value) :
    g_nodes g !! w.1 = Some nd → v ∈ n_inputs nd → traced g w v
| traced_step (w : Value) (nd : NodeData) (u v : Value) :
    g_nodes g !! w.1 = Some nd → u ∈ n_inputs nd →
    hitGraphInput g u = false → traced g u v → traced g w v.

(** The graph is acyclic: [rank] decreases from a node to the producers of
    its inputs. *)
Definition acyclic (g : Graph) (rank : NodeId → nat) : Prop :=
  ∀ (n : NodeId) (nd : NodeData) (u : Value),
    g_nodes g !! n = Some nd → u ∈ n_inputs nd →
    hitGraphInput g u = false → rank u.1 < rank n.

(** Node identities are handed out in increasing order. *)
Definition wf_next (g : Graph) : Prop :=
  map_Forall (λ n _, n < g_next g) (g_nodes g).

(** Every node that reads a value stands in a block list, as a node or as
    the return node of a block. *)
Definition users_in_blocks (g : Graph) : Prop :=
  map_Forall (λ n nd, n_inputs nd ≠ [] → in_block_list n g = true) (g_nodes g).

(** The block walk meets live nodes only. *)
Definition walk_live (g : Graph) : Prop :=
  Forall (λ n, is_Some (g_nodes g !! n)) (graph_nodes g).

(** The schema of [aten::dequantize]: one input, one output. *)
Definition dequantize_schema (g : Graph) : Prop :=
  map_Forall (λ _ nd, n_kind nd = Aten "dequantize" →
                length (n_inputs nd) = 1 ∧ length (n_outputs nd) = 1)
             (g_nodes g).



(** The dequantize node that [insertDeQuant] creates for [quantized_val],
    named and typed after [original]. *)
Definition dequant_node (quantized_val : Value) (original : OutMeta)
    (id : nat) : NodeData :=
  mkNode (Aten "dequantize") None None [quantized_val]
    [mkOut (o_name original +:+ ".dequant." +:+ pretty id) (o_type original)].

(** The uses in [us] are uses of live nodes that stand in a block list. *)
Definition uses_valid (g : Graph) (us : list (NodeId * nat)) : Prop :=
  Forall (λ use : NodeId * nat,
            ∃ ndu, g_nodes g !! use.1 = Some ndu ∧
                   use.2 < length (n_inputs ndu) ∧
                   in_block_list use.1 g = true) us.

(** [g'] is [g] after one fresh dequantize node of [quantized_val] has been
    put in front of each use of [us] in turn: the [j]-th new node is read in
    the slot of the [j]-th use, and nothing else has changed. *)
Definition rewired (g g' : Graph) (quantized_val : Value)
    (us : list (NodeId * nat)) : Prop :=
  g_next g' = g_next g + length us ∧
  wf_next g' ∧
  g_insert_before g' = g_insert_before g ∧
  (∀ x : NodeId, in_block_list x g = true → in_block_list x g' = true) ∧
  (∀ j : nat, j < length us →
     ∃ m i, g_nodes g' !! (g_next g + j : NodeId)
            = Some (dequant_node quantized_val m i)) ∧
  (∀ (x : NodeId) (ndx : NodeData), g_nodes g !! x = Some ndx →
     ∃ ins' : list Value,
       g_nodes g' !! x = Some (with_inputs ins' ndx) ∧
       length ins' = length (n_inputs ndx) ∧
       (∀ off : nat, (x, off) ∉ us → ins' !! off = n_inputs ndx !! off) ∧
       (∀ j off : nat, us !! j = Some (x, off) →
          ins' !! off = Some ((g_next g + j : NodeId), 0))) ∧
  (∀ x : NodeId, x < g_next g → g_nodes g !! x = None →
     g_nodes g' !! x = None).




(** The test of the first loop of [ReplicateDeQuant]. *)
Definition is_multi_use_dequantize (g : Graph) (n : NodeId) : bool :=
  match g_nodes g !! n with
  | Some nd =>
      bool_decide (n_kind nd = Aten "dequantize") &&
      bool_decide (1 < length (uses_in g (n, 0)))
  | None => false
  end.

(** [g] with the fresh node [nd] put in front of the insertion point. *)
Definition inserted (g : Graph) (nd : NodeData) : Graph :=
  mkGraph (<[g_next g := nd]> (g_nodes g))
    (tree_insert (g_insert_before g) (g_next g, []) (g_block g))
    (S (g_next g)) (g_insert_before g).

(** [g1] is [g] with new nodes added: the nodes and block-list members of
    [g] are kept as they are. *)
Definition extends (g g1 : Graph) : Prop :=
  wf_next g1 ∧ g_next g ≤ g_next g1 ∧
  g_insert_before g1 = g_insert_before g ∧
  (∀ x : NodeId, in_block_list x g = true → in_block_list x g1 = true) ∧
  (∀ (x : NodeId) (ndx : NodeData),
     g_nodes g !! x = Some ndx → g_nodes g1 !! x = Some ndx).

(** The node [u] reads the value [v]. *)
Definition consumes (g : Graph) (u : NodeId) (v : Value) : Prop :=
  ∃ nd : NodeData, g_nodes g !! u = Some nd ∧ v ∈ n_inputs nd.

(** What the insertion of the quantization ops leaves behind in [g1],
    started from [g0]: a quantize node reading the observer output, a
    dequantize node reading the quantize node, and, for a dynamically
    quantized activation only, a [choose_qparams] node reading the observer
    output as well. *)
Definition ops_inserted (g0 g1 : Graph) (observer_out : Value)
    (quantize_func : string) (quant : NodeId) (choose_qparams : option NodeId)
    (dequant : NodeId) (dynamic_activation : bool) : Prop :=
  extends g0 g1 ∧ g_next g0 ≤ quant ∧ g_next g0 ≤ dequant ∧ quant ≠ dequant ∧
  (∃ ndq : NodeData,
     g_nodes g1 !! quant = Some ndq ∧ n_kind ndq = Aten quantize_func ∧
     n_inputs ndq !! 0 = Some observer_out) ∧
  (∃ ndd : NodeData,
     g_nodes g1 !! dequant = Some ndd ∧ n_kind ndd = Aten "dequantize" ∧
     n_inputs ndd = [(quant, 0)] ∧ length (n_outputs ndd) = 1) ∧
  match choose_qparams with
  | Some c =>
      dynamic_activation = true ∧ g_next g0 ≤ c ∧ c ≠ quant ∧ c ≠ dequant ∧
      ∃ ndc : NodeData,
        g_nodes g1 !! c = Some ndc ∧
        n_kind ndc = Aten "_choose_qparams_per_tensor" ∧
        n_inputs ndc !! 0 = Some observer_out
  | None => dynamic_activation = false
  end.

(** A node with every input [from] replaced by [to]. *)
Definition redirect (from to : Value) (nd : NodeData) : NodeData :=
  with_inputs (map (subst_value from to) (n_inputs nd)) nd.

(** The quantize node [n] reads [v0] in its first slot and has further
    inputs, its parameters, and [v0] is an output of a node with more than
    one output. *)
Definition quantizes_multi_output (g : Graph) (n : NodeId) (v0 : Value)
    : Prop :=
  wf_next g ∧
  ∃ nd ndif : NodeData,
    g_nodes g !! n = Some nd ∧ n_inputs nd !! 0 = Some v0 ∧
    1 < length (n_inputs nd) ∧
    g_nodes g !! v0.1 = Some ndif ∧ 1 < length (n_outputs ndif).

(** Node [n] is of kind [k] and reads [v] in its first slot. *)
Definition reads_first (g : Graph) (n : NodeId) (k : NodeKind) (v : Value)
    : Prop :=
  ∃ nd : NodeData,
    g_nodes g !! n = Some nd ∧ n_kind nd = k ∧ n_inputs nd !! 0 = Some v.

(** The graph [g] is in the memo table [observer_nodes_for_graph_]. *)
Definition recorded (st : State) (g : GraphId) : Prop :=
  is_Some (observer_nodes_for_graph_ (helper st) !! g).

(** The methods of every module have the same graphs in [w'] as in [w]. *)
Definition same_methods (w w' : World) : Prop :=
  ∀ (m : ObjId) (name : string),
    method_graph w' m name = method_graph w m name.

(** From [st] to [st'] the recorded graphs stay recorded and stay as they
    are, and so do the methods. *)
Definition keeps_recorded_graphs (st st' : State) : Prop :=
  same_methods (world st) (world st') ∧
  ∀ g : GraphId,
    recorded st g →
    recorded st' g ∧
    w_graphs (world st') !! g = w_graphs (world st) !! g.

(** From [st] to [st'] the recorded graphs stay recorded, no graph but [g]
    is changed, and the methods stay as they are. *)
Definition touches_only (g : GraphId) (st st' : State) : Prop :=
  same_methods (world st) (world st') ∧
  (∀ i : GraphId, recorded st i → recorded st' i) ∧
  ∀ i : GraphId, i ≠ g →
    w_graphs (world st') !! i = w_graphs (world st) !! i.

(** The attribute name [a] is recorded in [qparam_name_map_for_node_] for
    one of the [observers] of graph [g]. *)
Definition recorded_name (h : Helper) (g : GraphId) (observers : list NodeId)
    (a : string) : Prop :=
  ∃ (n : NodeId) (names : gmap string string) (key : string),
    n ∈ observers ∧ qparam_name_map_for_node_ h !! (g, n) = Some names ∧
    names !! key = Some a.

(** The attribute names recorded in [qparam_name_map_for_node_] for the
    [observers] of graph [g], observer after observer. *)
Definition recorded_names (h : Helper) (g : GraphId) (observers : list NodeId)
    : list string :=
  observers ≫= λ n,
    (map_to_list (default ∅ (qparam_name_map_for_node_ h !! (g, n)))).*2.

(** From [st1] to [st'] the parameters of the [observers] of graph [g] have
    been read anew and set: for the [i]-th observer [n], the parameters
    [tp] are what [getQSchemeAndQParamVector] gives for [n] in the state
    [s] reached by the re-registration for the observers before [n], and in
    [st'] every parameter of [tp] is the value of the attribute of [module]
    whose name [qparam_name_map_for_node_] records for [n] and the key of
    the parameter. *)
Definition qparams_reset (module : ObjId) (g : GraphId)
    (observers : list NodeId) (st1 st' : State) : Prop :=
  ∀ (i : nat) (n : NodeId),
    observers !! i = Some n →
    ∃ (s : State) (gr : Graph) (tp : QScheme * QParamVector)
      (names : gmap string string),
      reregister module g (take i observers) st1 = Ok (tt, s) ∧
      w_graphs (world st1) !! g = Some gr ∧
      getQSchemeAndQParamVector (world s) module gr n = Ok tp ∧
      qparam_name_map_for_node_ (helper st1) !! (g, n) = Some names ∧
      ∀ (key : string) (qparam : IValue),
        (key, qparam) ∈ tp.2 →
        ∃ (a : string) (o' : Object),
          names !! key = Some a ∧
          w_objects (world st') !! module = Some o' ∧
          obj_attrs o' !! a = Some qparam.

(** From [w] to [w'] nothing has changed but values of attributes of
    [module] whose names are [allowed]: the graphs, the types and the other
    objects are as they were. *)
Definition resets_only (module : ObjId) (allowed : string → Prop)
    (w w' : World) : Prop :=
  w_graphs w' = w_graphs w ∧ w_types w' = w_types w ∧
  ∀ m : ObjId,
    (m ≠ module → w_objects w' !! m = w_objects w !! m) ∧
    (w_objects w !! m = None → w_objects w' !! m = None) ∧
    ∀ o : Object, w_objects w !! m = Some o →
      ∃ o' : Object,
        w_objects w' !! m = Some o' ∧ obj_type o' = obj_type o ∧
        ∀ a : string, ¬ allowed a → obj_attrs o' !! a = obj_attrs o !! a.

(** Node [n] of [graph], the graph of a method of [module], calls the
    method [name] of [m]: it is a [prim::CallMethod] of that name whose
    receiver is [self], [m] being [module], or is the result of a
    [prim::GetAttr] whose attribute name does not follow the observer naming
    convention, [m] being the invoked module. *)
Definition invokes (w : World) (module : ObjId) (graph : Graph) (n : NodeId)
    (m : ObjId) (name : string) : Prop :=
  ∃ (nd : NodeData) (receiver self : Value),
    g_nodes graph !! n = Some nd ∧
    n_kind nd = Prim "CallMethod" ∧
    n_name nd = Some name ∧
    n_inputs nd !! 0 = Some receiver ∧
    graph_inputs graph !! 0 = Some self ∧
    (receiver = self ∧ m = module ∨
     receiver ≠ self ∧
     ∃ (md : NodeData) (attr_name : string),
       g_nodes graph !! receiver.1 = Some md ∧
       n_kind md = Prim "GetAttr" ∧
       n_name md = Some attr_name ∧
       ¬ has_substring "_observer_" attr_name ∧
       getInvokedModule w module graph n self = Ok m).

(** What [removeDequantizeFromInputs] expects of the values [ins]: each is
    the output of a live node with one input and one output, has exactly
    one use, and is not fed by another of them; no value is listed twice. *)
Definition removable (g : Graph) (ins : list Value) : Prop :=
  wf_next g ∧ NoDup ins ∧
  ∀ v : Value, v ∈ ins →
    ∃ (nd : NodeData) (q : Value),
      g_nodes g !! v.1 = Some nd ∧ n_inputs nd = [q] ∧
      length (n_outputs nd) = 1 ∧ v.2 < length (n_outputs nd) ∧
      (q.1 ∉ ins.*1) ∧ length (uses_in g v) = 1.

(** The value read in place of [y] once the nodes producing [ins] are
    bypassed: the input of the node producing [y] when [y] is one of [ins],
    and [y] itself otherwise. *)
Definition bypass (g : Graph) (ins : list Value) (y : Value) : Value :=
  if decide (y ∈ ins) then
    match g_nodes g !! y.1 with
    | Some nd => default y (n_inputs nd !! 0)
    | None => y
    end
  else y.

(** The user of the use [u] is a [prim::CallMethod] node. *)
Definition call_method_use (g : Graph) (u : NodeId * nat) : bool :=
  bool_decide (n_kind <$> g_nodes g !! u.1 = Some (Prim "CallMethod")).

(** What [isWeight] finds for the use [u] of a value by a [prim::CallMethod]
    node of [g]: whether the matching input of the invoked method is a
    weight. *)
Definition call_method_result (fuel : nat) (w : World) (module : ObjId)
    (g : Graph) (u : NodeId * nat) (self : Value) : Res bool :=
  nd <-? from_option (InternalAssert "dangling Node") (g_nodes g !! u.1) ;;
  m <-? getInvokedModule w module g u.1 self ;;
  name <-? from_option (NoAttribute "name") (n_name nd) ;;
  gid' <-? method_graph w m name ;;
  g' <-? get_graph w gid' ;;
  inp <-? from_option (OutOfRange "inputs") (graph_inputs g' !! u.2) ;;
  isWeight fuel w m gid' inp.

(** ** Example graphs *)

Definition node_of (k : NodeKind) (name : option string) (ins : list Value)
    (outs : list (string * TypeKind)) : NodeData :=
  mkNode k name None ins (map (λ p, mkOut p.1 p.2) outs).

(** [forward(self, x)]: [x] is observed by [self._observer_0] and fed to
    [aten::relu], whose result is returned. *)
Definition observed_graph : Graph :=
  mkGraph
    (list_to_map
       [(0, node_of (Prim "Param") None [] [("self", ClassT 0); ("x", TensorT)]);
        (1, node_of (Prim "Return") None [(4, 0)] []);
        (2, node_of (Prim "GetAttr") (Some "_observer_0") [(0, 0)]
              [("_observer_0", ClassT 1)]);
        (3, node_of (Prim "CallMethod") (Some "forward") [(2, 0); (0, 1)]
              [("x.1", TensorT)]);
        (4, node_of (Aten "relu") None [(3, 0)] [("y", TensorT)])])
    (mkBlock 0 1 [(2, []); (3, []); (4, [])]) 5 1.

(** A module of class 0 with method [forward] (the graph above) and the
    observer child [_observer_0] of class 1, a per-tensor observer for
    [quint8]. *)
Definition observed_world : World :=
  mkWorld
    {[ 0 := observed_graph ]}
    (list_to_map
       [(0, mkClass ["_observer_0"] {[ "forward" := 0 ]});
        (1, mkClass ["dtype"; "qscheme"] {[ "calculate_qparams" := 1 ]})])
    (list_to_map
       [(0, mkObject 0 {[ "_observer_0" := IVObject 1 ]});
        (1, mkObject 1 (list_to_map [("dtype", IVScalarType kQUInt8);
                                     ("qscheme", IVQScheme kPerTensorAffine)]))]).

(** A helper that has recorded the per-tensor affine scheme for graph 0. *)
Definition helper_with_scheme : Helper :=
  set_qscheme_for_graph <[0 := kPerTensorAffine]> (empty_helper STATIC).

(** Stand-ins for the collaborators, to run the pass on the examples: no
    attribute has a known type, no value is a weight, every call is a call
    on the module itself, and every observer reports the same parameters. *)
Definition ex_getAttribute : TypeKind → string → TypeKind := λ _ _, OtherT.
Definition ex_isWeightValue : Graph → Value → bool := λ _ _, false.
Definition ex_getInvokedModule
    : World → ObjId → Graph → NodeId → Value → Res ObjId :=
  λ _ module _ _ _, Ok module.
Definition ex_invoke (scale zero_point : Tensor)
    : World → ObjId → string → list IValue → Res IValue :=
  λ _ _ _ _, Ok (IVTuple [IVTensor scale; IVTensor zero_point]).

(** [forward(self)]: the product of the attributes [weight] and [gain] of
    [self]. *)
Definition weight_graph : Graph :=
  mkGraph
    (list_to_map
       [(0, node_of (Prim "Param") None [] [("self", ClassT 0)]);
        (1, node_of (Prim "Return") None [(4, 0)] []);
        (2, node_of (Prim "GetAttr") (Some "weight") [(0, 0)]
              [("weight", TensorT)]);
        (3, node_of (Prim "GetAttr") (Some "gain") [(0, 0)]
              [("gain", TensorT)]);
        (4, node_of (Aten "mul") None [(2, 0); (3, 0)] [("w", TensorT)])])
    (mkBlock 0 1 [(2, []); (3, []); (4, [])]) 5 1.

(** [forward(self, xq)]: [xq] is dequantized once; the result is read by
    [aten::relu] and by [aten::add]. *)
Definition shared_dequantize_graph : Graph :=
  mkGraph
    (list_to_map
       [(0, node_of (Prim "Param") None [] [("self", ClassT 0); ("xq", TensorT)]);
        (1, node_of (Prim "Return") None [(4, 0)] []);
        (2, node_of (Aten "dequantize") None [(0, 1)] [("x", TensorT)]);
        (3, node_of (Aten "relu") None [(2, 0)] [("y", TensorT)]);
        (4, node_of (Aten "add") None [(2, 0); (3, 0)] [("z", TensorT)])])
    (mkBlock 0 1 [(2, []); (3, []); (4, [])]) 5 1.

(** [forward(self, x, c)]: a conditional on [c] with two outputs, both [x]
    in either branch; the first output is quantized with constant
    parameters and returned. *)
Definition two_output_if_graph : Graph :=
  mkGraph
    (list_to_map
       [(0, node_of (Prim "Param") None []
              [("self", ClassT 0); ("x", TensorT); ("c", BoolT)]);
        (1, node_of (Prim "Return") None [(10, 0)] []);
        (2, node_of (Prim "If") None [(0, 2)] [("a", TensorT); ("b", TensorT)]);
        (3, node_of (Prim "Param") None [] []);
        (4, node_of (Prim "Return") None [(0, 1); (0, 1)] []);
        (5, node_of (Prim "Param") None [] []);
        (6, node_of (Prim "Return") None [(0, 1); (0, 1)] []);
        (7, node_of (Prim "Constant") None [] [("scale", FloatT)]);
        (8, node_of (Prim "Constant") None [] [("zero_point", IntT)]);
        (9, node_of (Prim "Constant") None [] [("dtype", IntT)]);
        (10, node_of (Aten "quantize_per_tensor") None
               [(2, 0); (7, 0); (8, 0); (9, 0)] [("a.quant", TensorT)])])
    (mkBlock 0 1
       [(2, [mkBlock 3 4 []; mkBlock 5 6 []]);
        (7, []); (8, []); (9, []); (10, [])])
    11 1.

(** The same with one output, the case [ReplicateQuant] is written for. *)
Definition one_output_if_graph : Graph :=
  mkGraph
    (list_to_map
       [(0, node_of (Prim "Param") None []
              [("self", ClassT 0); ("x", TensorT); ("c", BoolT)]);
        (1, node_of (Prim "Return") None [(10, 0)] []);
        (2, node_of (Prim "If") None [(0, 2)] [("a", TensorT)]);
        (3, node_of (Prim "Param") None [] []);
        (4, node_of (Prim "Return") None [(0, 1)] []);
        (5, node_of (Prim "Param") None [] []);
        (6, node_of (Prim "Return") None [(0, 1)] []);
        (7, node_of (Prim "Constant") None [] [("scale", FloatT)]);
        (8, node_of (Prim "Constant") None [] [("zero_point", IntT)]);
        (9, node_of (Prim "Constant") None [] [("dtype", IntT)]);
        (10, node_of (Aten "quantize_per_tensor") None
               [(2, 0); (7, 0); (8, 0); (9, 0)] [("a.quant", TensorT)])])
    (mkBlock 0 1
       [(2, [mkBlock 3 4 []; mkBlock 5 6 []]);
        (7, []); (8, []); (9, []); (10, [])])
    11 1.

(** Stand-ins for the classification of helper.h, restricted to the clamp
    family: [aten::clamp], [aten::hardtanh] and [aten::hardtanh_] are
    single-input general-value functions that pass the quantization of their
    first input through, and their inputs 1 and 2 are the scalar bounds. *)
Definition ex_isClamp (g : Graph) (n : NodeId) : bool :=
  match g_nodes g !! n with
  | Some nd =>
      bool_decide (n_kind nd ∈ [Aten "clamp"; Aten "hardtanh";
                                Aten "hardtanh_"])
  | None => false
  end.
Definition ex_getPassThroughInputs (g : Graph) (v : Value) : list Value :=
  match g_nodes g !! v.1 with
  | Some nd => if ex_isClamp g v.1 then take 1 (n_inputs nd) else []
  | None => []
  end.
Definition ex_getClampScalarInputUse (g : Graph) (v : Value) : bool :=
  existsb (λ use : NodeId * nat,
             ex_isClamp g use.1 &&
             (bool_decide (use.2 = 1) || bool_decide (use.2 = 2)))
          (uses_in g v).
Definition ex_getFixedQParams
    : Graph → NodeId → option (QScheme * QParamVector) :=
  λ _ _, None.

(** [forward(self, xq, lo, hi)]: the quantized tensor [xq] is dequantized
    and clamped twice between the scalars [lo] and [hi]. *)
Definition clamp_graph : Graph :=
  mkGraph
    (list_to_map
       [(0, node_of (Prim "Param") None []
              [("self", ClassT 0); ("xq", TensorT); ("lo", FloatT);
               ("hi", FloatT)]);
        (1, node_of (Prim "Return") None [(4, 0)] []);
        (2, node_of (Aten "dequantize") None [(0, 1)] [("x", TensorT)]);
        (3, node_of (Aten "clamp") None [(2, 0); (0, 2); (0, 3)]
              [("y", TensorT)]);
        (4, node_of (Aten "clamp") None [(3, 0); (0, 2); (0, 3)]
              [("z", TensorT)])])
    (mkBlock 0 1 [(2, []); (3, []); (4, [])]) 5 1.

Definition clamp_state : State :=
  mkState (mkWorld {[ 0 := clamp_graph ]} ∅ ∅) (empty_helper STATIC).

(** [forward(self, x)]: [x] is quantized with constant parameters,
    dequantized once, and the result is read by [aten::relu] only. *)
Definition quantized_graph : Graph :=
  mkGraph
    (list_to_map
       [(0, node_of (Prim "Param") None [] [("self", ClassT 0); ("x", TensorT)]);
        (1, node_of (Prim "Return") None [(7, 0)] []);
        (2, node_of (Prim "Constant") None [] [("scale", FloatT)]);
        (3, node_of (Prim "Constant") None [] [("zero_point", IntT)]);
        (4, node_of (Prim "Constant") None [] [("dtype", IntT)]);
        (5, node_of (Aten "quantize_per_tensor") None
              [(0, 1); (2, 0); (3, 0); (4, 0)] [("x.quant", TensorT)]);
        (6, node_of (Aten "dequantize") None [(5, 0)] [("x.dequant", TensorT)]);
        (7, node_of (Aten "relu") None [(6, 0)] [("y", TensorT)])])
    (mkBlock 0 1 [(2, []); (3, []); (4, []); (5, []); (6, []); (7, [])]) 8 1.

(** [forward(self, w)]: [w] is passed to the method [scale] of [self], and
    so is the result. *)
Definition calling_graph : Graph :=
  mkGraph
    (list_to_map
       [(0, node_of (Prim "Param") None [] [("self", ClassT 0); ("w", TensorT)]);
        (1, node_of (Prim "Return") None [(3, 0)] []);
        (2, node_of (Prim "CallMethod") (Some "scale") [(0, 0); (0, 1)]
              [("a", TensorT)]);
        (3, node_of (Prim "CallMethod") (Some "scale") [(0, 0); (2, 0)]
              [("b", TensorT)])])
    (mkBlock 0 1 [(2, []); (3, [])]) 4 1.

(** [scale(self, t)]: [aten::relu] of [t]. *)
Definition scale_graph : Graph :=
  mkGraph
    (list_to_map
       [(0, node_of (Prim "Param") None [] [("self", ClassT 0); ("t", TensorT)]);
        (1, node_of (Prim "Return") None [(2, 0)] []);
        (2, node_of (Aten "relu") None [(0, 1)] [("r", TensorT)])])
    (mkBlock 0 1 [(2, [])]) 3 1.

(** A module of class 0 with the methods [forward] and [scale] above. *)
Definition calling_world : World :=
  mkWorld
    (list_to_map [(0, calling_graph); (1, scale_graph)])
    {[ 0 := mkClass [] (list_to_map [("forward", 0); ("scale", 1)]) ]}
    {[ 0 := mkObject 0 ∅ ]}.

(** * Properties *)

(** ** Strings *)

Lemma starts_with_spec p s :
  starts_with p s = true ↔ ∃ post, s = p +:+ post.
Proof.
  revert s. induction p as [|a p IH]; intros s; simpl.
  - split; [intros _; by exists s | done].
  - destruct s as [|b s]; simpl.
    + split; [done | intros [post ?]; discriminate].
    + rewrite andb_true_iff, bool_decide_eq_true, IH. split.
      * intros [-> [post ->]]. by exists post.
      * intros [post [= -> ->]]. eauto.
Qed.

Lemma find_spec needle s :
  find needle s ≠ None ↔ has_substring needle s.
Proof.
  induction s as [|b s IH]; simpl.
  - destruct (starts_with needle "") eqn:E.
    + split; [intros _ | done].
      apply starts_with_spec in E as [post E]. by exists "", post.
    + split; [done |]. intros (pre & post & E').
      destruct pre; simpl in E'; [|discriminate].
      assert (starts_with needle "" = true) as E2
        by (apply starts_with_spec; eauto).
      congruence.
  - destruct (starts_with needle (String b s)) eqn:E.
    + split; [intros _ | done].
      apply starts_with_spec in E as [post E]. by exists "", post.
    + destruct (find needle s) as [i|] eqn:F; simpl.
      * split; [intros _ | done].
        destruct IH as [IH _]. destruct IH as (pre & post & ->); [done|].
        by exists (String b pre), post.
      * split; [done |]. intros (pre & post & E').
        destruct pre as [|c pre]; simpl in E'.
        -- assert (starts_with needle (String b s) = true) as E2
             by (apply starts_with_spec; eauto).
           congruence.
        -- injection E' as -> ->.
           destruct IH as [_ IH]. apply IH; [by exists pre, post|..]; done.
Qed.

Lemma Some_agree {A} (o : option A) (a b : A) :
  o = Some a → o = Some b → a = b.
Proof. congruence. Qed.

(** Two lookups of the same key give the same result. *)
Ltac same_lookup :=
  repeat match goal with
         | H1 : ?x = Some _, H2 : ?x = Some _ |- _ =>
             rewrite H1 in H2; injection H2 as ?; subst
         | H1 : ?x = Some _, H2 : ?x = None |- _ =>
             rewrite H1 in H2; discriminate
         end.

(** ** The block tree *)

Lemma Block_nested_ind (P : Block → Prop) :
  (∀ p r body, Forall (λ it, Forall P it.2) body → P (mkBlock p r body)) →
  ∀ b, P b.
Proof.
  intros H.
  refine (fix IH (b : Block) : P b :=
    match b with
    | mkBlock p r body =>
        H p r body
          ((fix go (body : list (NodeId * list Block))
              : Forall (λ it, Forall P it.2) body :=
              match body with
              | [] => Forall_nil_2 _
              | it :: body' =>
                  Forall_cons_2 _ _ _
                    ((fix gob (bs : list Block) : Forall P bs :=
                        match bs with
                        | [] => Forall_nil_2 _
                        | b' :: bs' => Forall_cons_2 _ _ _ (IH b') (gob bs')
                        end) it.2)
                    (go body')
              end) body)
    end).
Qed.

Lemma elem_of_block_ids (u : NodeId) (p r : NodeId)
    (body : list (NodeId * list Block)) :
  u ∈ block_ids (mkBlock p r body) ↔
  u = r ∨ ∃ it, it ∈ body ∧ (u = it.1 ∨ ∃ b, b ∈ it.2 ∧ u ∈ block_ids b).
Proof.
  simpl. rewrite elem_of_cons, list_elem_of_bind. split.
  - intros [?|(it & Hu & Hit)]; [by left|]. right. exists it. split; [done|].
    apply elem_of_cons in Hu as [?|Hu]; [by left|]. right.
    apply list_elem_of_bind in Hu as (b & ? & ?). eauto.
  - intros [?|(it & Hit & Hu)]; [by left|]. right. exists it. split; [|done].
    apply elem_of_cons. destruct Hu as [?|(b & ? & ?)]; [by left|]. right.
    apply list_elem_of_bind. eauto.
Qed.

Lemma insert_item_superset before new (l : list (NodeId * list Block)) it :
  it ∈ l → it ∈ insert_item before new l.
Proof.
  induction l as [|x l IH]; [done|]. simpl. intros Hit.
  case_decide.
  - by right.
  - apply elem_of_cons in Hit as [->|Hit]; [by left | right; by apply IH].
Qed.

(** Inserting a node keeps every node of the tree in its block list. *)
Lemma block_ids_tree_insert (u before : NodeId) new (b : Block) :
  u ∈ block_ids b → u ∈ block_ids (tree_insert before new b).
Proof.
  induction b as [p r body IH] using Block_nested_ind.
  unfold tree_insert. simpl edit_blocks.
  rewrite !elem_of_block_ids. intros [?|(it & Hit & Hu)]; [by left|].
  right. exists (it.1, map (tree_insert before new) it.2). split.
  - assert ((it.1, map (tree_insert before new) it.2) ∈
            map (λ it, (it.1, map (tree_insert before new) it.2)) body) as Hin.
    { apply list_elem_of_fmap. by exists it. }
    case_decide; [apply elem_of_app; by left | by apply insert_item_superset].
  - simpl. destruct Hu as [?|(b & Hb & Hu)]; [by left|]. right.
    exists (tree_insert before new b). split.
    + apply list_elem_of_fmap. by exists b.
    + rewrite Forall_forall in IH. specialize (IH it Hit).
      rewrite Forall_forall in IH. by apply IH.
Qed.

(** ** The observer locator *)

(** C10: [findObserverName] returns a name exactly for the output of a
    [forward] method call whose receiver is an attribute lookup with
    ["_observer_"] in the attribute name; the name returned is that
    attribute name, and in every other case the result is none.  The graph
    is left as it is. *)
Theorem findObserverName_spec (g : Graph) (v : Value) :
  schema_ok g →
  is_Some (g_nodes g !! v.1) →
  ∃ r, findObserverName v g = Ok (r, g) ∧
       ∀ name, r = Some name ↔ observer_call g v name.
Proof.
  intros Hs [nd Hnd].
  pose proof (Hs _ _ Hnd) as (Hcall & _ & Hins).
  unfold findObserverName, kind, s_name, input, get_node, bind, ret, lift,
    from_option.
  rewrite Hnd. simpl.
  case_bool_decide as Hk.
  2:{ exists None. split; [done|]. intros name. split; [done|].
      intros (nd' & m & md & E & ? & _). same_lookup; done. }
  destruct (Hcall Hk) as [[nm Hnm] [m Hm]].
  rewrite Hnd, Hnm. simpl.
  case_bool_decide as Hfw.
  2:{ exists None. split; [done|]. intros name. split; [done|].
      intros (nd' & m' & md & E & _ & E2 & _). same_lookup; done. }
  subst nm. rewrite Hnd, Hm. simpl.
  assert (is_Some (g_nodes g !! m.1)) as [md Hmd].
  { rewrite Forall_forall in Hins. apply Hins.
    eapply list_elem_of_lookup_2. exact Hm. }
  rewrite Hmd. simpl.
  pose proof (Hs _ _ Hmd) as (_ & Hget & _).
  case_bool_decide as Hmk.
  2:{ exists None. split; [done|]. intros name. split; [done|].
      intros (nd' & m' & md' & E & _ & _ & E3 & E4 & ? & _).
      same_lookup; done. }
  destruct (Hget Hmk) as [an Han]. rewrite Hmd, Han. simpl.
  case_bool_decide as Hf.
  - exists (Some an). split; [done|]. intros name. split.
    + intros [= <-]. exists nd, m, md. repeat split; try done.
      by apply find_spec.
    + intros (nd' & m' & md' & E & _ & _ & E3 & E4 & _ & E5 & _).
      by same_lookup.
  - exists None. split; [done|]. intros name. split; [done|].
    intros (nd' & m' & md' & E & _ & _ & E3 & E4 & _ & E5 & Hsub).
    same_lookup. apply find_spec in Hsub. destruct (Hsub Hf).
Qed.

(** ** Scheme consistency *)

Lemma checkQScheme_never_throws (g : GraphId) (qscheme : QScheme) (h : Helper) :
  ∃ h', checkQScheme g qscheme h = Ok (tt, h').
Proof.
  unfold checkQScheme, bind, get.
  destruct (qscheme_for_graph_ h !! g) as [recorded|]; [|by eexists].
  rewrite orb_true_r. by eexists.
Qed.

(** C1: when a scheme is recorded for a graph and an observer of that graph
    yields a scheme with another affine collapse, where the scheme-conflict
    error is due, [checkQScheme] lets it through: it returns normally and
    leaves the helper as it was. *)
Theorem checkQScheme_conflict_accepted (g : GraphId) (qscheme : QScheme)
    (recorded : QScheme) (h : Helper) :
  qscheme_for_graph_ h !! g = Some recorded →
  toAffine qscheme ≠ recorded →
  checkQScheme g qscheme h = Ok (tt, h).
Proof.
  intros Hrec _. unfold checkQScheme, bind, get. rewrite Hrec.
  by rewrite orb_true_r.
Qed.

(** ** Parameter extraction *)

Lemma checkCalculateQParamsResult_ok (result : IValue) :
  checkCalculateQParamsResult result = Ok tt ↔
  ∃ scale zero_point, result = IVTuple [IVTensor scale; IVTensor zero_point].
Proof.
  split.
  - destruct result as [| | | | | |elems| | |]; try done.
    destruct elems as [|e0 [|e1 [|e2 elems]]]; try done.
    destruct e0, e1; try done. eauto.
  - by intros (scale & zero_point & ->).
Qed.



(** ** The weight subgraph extractor *)

Section FindSubgraph.

Variables (g : Graph) (self : Value).

(** The body of the loop over the inputs of a node, for any way [recurse]
    of walking on. *)
Local Abbreviation input_loop recurse :=
  (λ (acc : Res (list NodeId)) (v : Value),
     weight_subgraph <-? acc ;;
     if negb (hitGraphInput g v)
     then recurse v weight_subgraph
     else if bool_decide (v = self) then Ok weight_subgraph
     else Err (UnexpectedGraphInput v self)).

Lemma input_loop_err recurse (ins : list Value) (e : Error) :
  foldl (input_loop recurse) (Err e) ins = Err e.
Proof. induction ins as [|v ins IH]; [done|]. simpl. apply IH. Qed.

(** Every input of a node of [s] is the root or produced further on in
    [s]. *)
Definition closed_after (s : list NodeId) : Prop :=
  ∀ (k : nat) (n : NodeId) (nd : NodeData) (v : Value),
    s !! k = Some n → g_nodes g !! n = Some nd → v ∈ n_inputs nd →
    v = self ∨ ∃ j, k < j ∧ s !! j = Some v.1.

Lemma closed_after_app (s1 s2 : list NodeId) :
  closed_after s1 → closed_after s2 → closed_after (s1 ++ s2).
Proof.
  intros H1 H2 k n nd v Hk Hn Hv.
  apply lookup_app_Some in Hk as [Hk|[Hlen Hk]].
  - destruct (H1 k n nd v Hk Hn Hv) as [?|(j & ? & Hj)]; [by left|].
    right. exists j. split; [done|]. by apply lookup_app_l_Some.
  - destruct (H2 _ n nd v Hk Hn Hv) as [?|(j & ? & Hj)]; [by left|].
    right. exists (length s1 + j). split; [lia|].
    rewrite lookup_app_r by lia. by replace (length s1 + j - length s1) with j by lia.
Qed.

Lemma input_loop_ok recurse (ins : list Value) (acc l : list NodeId) :
  (∀ (v : Value) (acc l : list NodeId),
     v ∈ ins → recurse v acc = Ok l →
     ∃ sub, l = acc ++ v.1 :: sub ∧ closed_after (v.1 :: sub)) →
  foldl (input_loop recurse) (Ok acc) ins = Ok l →
  ∃ sub, l = acc ++ sub ∧ closed_after sub ∧
         ∀ v, v ∈ ins → v = self ∨ v.1 ∈ sub.
Proof.
  revert acc l. induction ins as [|v ins IH]; intros acc l Hrec Hfold.
  - simpl in Hfold. injection Hfold as <-. exists []. rewrite app_nil_r.
    split; [done|]. split; [by intros k ?|]. intros v Hv. by apply elem_of_nil in Hv.
  - simpl in Hfold.
    destruct (hitGraphInput g v) eqn:Hhit; simpl in Hfold.
    + case_bool_decide as Hself; [|by rewrite input_loop_err in Hfold].
      destruct (IH acc l) as (sub & -> & Hc & Hin); [|done|].
      { intros. eapply Hrec; [|done]. by right. }
      exists sub. split; [done|]. split; [done|].
      intros v' [->|Hv']%elem_of_cons; [by left | by apply Hin].
    + destruct (recurse v acc) as [acc'|e] eqn:Hr;
        [|by rewrite input_loop_err in Hfold].
      destruct (Hrec v acc acc') as (sub1 & -> & Hc1); [by left|done|].
      destruct (IH (acc ++ v.1 :: sub1) l) as (sub2 & -> & Hc2 & Hin);
        [|done|].
      { intros. eapply Hrec; [|done]. by right. }
      exists ((v.1 :: sub1) ++ sub2). split; [by rewrite <-app_assoc|].
      split; [by apply closed_after_app|].
      intros v' [->|Hv']%elem_of_cons.
      * right. apply elem_of_app. left. by left.
      * destruct (Hin v' Hv') as [?|?]; [by left|].
        right. apply elem_of_app. by right.
Qed.

Lemma findSubgraph_closed (fuel : nat) (w : Value) (acc l : list NodeId) :
  findSubgraph fuel g self w acc = Ok l →
  ∃ sub, l = acc ++ w.1 :: sub ∧ closed_after (w.1 :: sub).
Proof.
  revert w acc l. induction fuel as [|fuel IH]; intros w acc l Hf; [done|].
  simpl in Hf. unfold eval, inputs, get_node, bind, ret in Hf.
  destruct (g_nodes g !! w.1) as [nd|] eqn:Hnd; [simpl in Hf|done].
  apply (input_loop_ok (findSubgraph fuel g self)) in Hf
    as (sub & -> & Hc & Hin); [|by intros; apply IH].
  exists sub. split; [by rewrite <-app_assoc|].
  intros [|k] n nd' v Hk Hn Hv; simpl in Hk.
  - injection Hk as <-. same_lookup.
    destruct (Hin v Hv) as [?|Hsub]; [by left|]. right.
    apply list_elem_of_lookup in Hsub as [j Hj]. exists (S j).
    split; [lia|done].
  - destruct (Hc k n nd' v Hk Hn Hv) as [?|(j & ? & Hj)]; [by left|].
    right. exists (S j). split; [lia|done].
Qed.

(** C6: when the backward walk from a weight value succeeds, the collected
    list, once reversed, is a valid execution order: each input of each of
    its nodes is the root input or is produced by a node that stands
    earlier in the reversed list. *)
Theorem findSubgraph_reverse_execution_order (fuel : nat)
    (weight_value : Value) (weight_subgraph : list NodeId) :
  findSubgraph fuel g self weight_value [] = Ok weight_subgraph →
  execution_order g self (reverse weight_subgraph).
Proof.
  intros Hf. apply findSubgraph_closed in Hf as (sub & -> & Hc).
  simpl. intros i n nd v Hi Hn Hv.
  pose proof (lookup_lt_Some _ _ _ Hi) as Hlt. rewrite length_reverse in Hlt.
  rewrite reverse_lookup in Hi by done.
  destruct (Hc _ n nd v Hi Hn Hv) as [?|(j & Hj & Hjv)]; [by left|].
  right. pose proof (lookup_lt_Some _ _ _ Hjv) as Hjlt.
  exists (length (weight_value.1 :: sub) - S j). split; [lia|].
  rewrite reverse_lookup by lia.
  by replace (length (weight_value.1 :: sub) -
              S (length (weight_value.1 :: sub) - S j)) with j by lia.
Qed.

Lemma input_loop_ok_each recurse (ins : list Value) (acc l : list NodeId) :
  foldl (input_loop recurse) (Ok acc) ins = Ok l →
  ∀ u, u ∈ ins →
    if hitGraphInput g u then u = self
    else ∃ acc' l', recurse u acc' = Ok l'.
Proof.
  revert acc. induction ins as [|v ins IH]; intros acc Hfold u Hu.
  { by apply elem_of_nil in Hu. }
  simpl in Hfold.
  destruct (hitGraphInput g v) eqn:Hhit; simpl in Hfold.
  - case_bool_decide as Hself; [|by rewrite input_loop_err in Hfold].
    apply elem_of_cons in Hu as [->|Hu]; [by rewrite Hhit | by eapply IH].
  - destruct (recurse v acc) as [acc'|e] eqn:Hr;
      [|by rewrite input_loop_err in Hfold].
    apply elem_of_cons in Hu as [->|Hu]; [rewrite Hhit; eauto | by eapply IH].
Qed.

Lemma findSubgraph_ok_traced (fuel : nat) (w : Value) (acc l : list NodeId) :
  findSubgraph fuel g self w acc = Ok l →
  ∀ v, traced g w v → hitGraphInput g v = true → v = self.
Proof.
  revert w acc l. induction fuel as [|fuel IH]; intros w acc l Hf v Ht Hhit;
    [done|].
  simpl in Hf. unfold eval, inputs, get_node, bind, ret in Hf.
  destruct (g_nodes g !! w.1) as [nd|] eqn:Hnd; [simpl in Hf|done].
  pose proof (input_loop_ok_each _ _ _ _ Hf) as Heach.
  destruct Ht as [w nd' v Hnd' Hv | w nd' u v Hnd' Hu Hnot Ht]; same_lookup.
  - specialize (Heach v Hv). by rewrite Hhit in Heach.
  - specialize (Heach u Hu). rewrite Hnot in Heach.
    destruct Heach as (acc' & l' & Hrec). by eapply IH.
Qed.

(** What a walk that comes to an end yields: the collected list, or the
    error naming a graph input other than the root that it has reached. *)
Definition settled (w : Value) (r : Res (list NodeId)) : Prop :=
  match r with
  | Ok _ => True
  | Err (UnexpectedGraphInput v self') =>
      self' = self ∧ traced g w v ∧ hitGraphInput g v = true ∧ v ≠ self
  | Err _ => False
  end.

Lemma input_loop_settled recurse (w : Value) (nd : NodeData)
    (ins : list Value) (acc : list NodeId) :
  g_nodes g !! w.1 = Some nd →
  ins ⊆ n_inputs nd →
  (∀ u acc, u ∈ ins → hitGraphInput g u = false → settled u (recurse u acc)) →
  settled w (foldl (input_loop recurse) (Ok acc) ins).
Proof.
  intros Hnd. revert acc. induction ins as [|v ins IH]; intros acc Hsub Hrec;
    [done|].
  assert (v ∈ n_inputs nd) as Hv by (apply Hsub; by left).
  assert (ins ⊆ n_inputs nd) as Hsub' by (intros x ?; apply Hsub; by right).
  simpl. destruct (hitGraphInput g v) eqn:Hhit; simpl.
  - case_bool_decide as Hself.
    + apply IH; [done|]. intros. apply Hrec; [by right|done].
    + rewrite input_loop_err. simpl. split; [done|].
      split; [by eapply traced_input|done].
  - pose proof (Hrec v acc ltac:(by left) Hhit) as Hs.
    destruct (recurse v acc) as [acc'|e].
    + apply IH; [done|]. intros. apply Hrec; [by right|done].
    + rewrite input_loop_err. destruct e; try done. simpl in *.
      destruct Hs as (-> & Ht & ? & ?). split; [done|].
      split; [by eapply traced_step|done].
Qed.

(** On an acyclic graph whose inputs all have a producer, fuel above the
    rank of the start is enough for the walk to come to an end. *)
Lemma findSubgraph_settled (rank : NodeId → nat) (fuel : nat) (w : Value)
    (acc : list NodeId) :
  schema_ok g → acyclic g rank →
  is_Some (g_nodes g !! w.1) →
  rank w.1 < fuel →
  settled w (findSubgraph fuel g self w acc).
Proof.
  intros Hs Hrank. revert w acc.
  induction fuel as [|fuel IH]; intros w acc [nd Hnd] Hlt; [lia|].
  simpl. unfold eval, inputs, get_node, bind, ret. rewrite Hnd. simpl.
  apply (input_loop_settled (findSubgraph fuel g self) w nd); [done|done|].
  intros u acc' Hu Hhit. apply IH.
  - pose proof (Hs _ _ Hnd) as (_ & _ & Hins).
    rewrite Forall_forall in Hins. by apply Hins.
  - pose proof (Hrank _ _ _ Hnd Hu Hhit). lia.
Qed.

(** C7: when the backward walk from a weight value meets a graph input that
    is not the root, the extractor never returns a subgraph, whatever the
    fuel; and on an acyclic graph it stops with the fatal error that names
    a graph input other than the root met by the walk, together with the
    root. *)
Theorem findSubgraph_unexpected_graph_input (rank : NodeId → nat)
    (weight_value v : Value) :
  schema_ok g → acyclic g rank →
  is_Some (g_nodes g !! weight_value.1) →
  traced g weight_value v → hitGraphInput g v = true → v ≠ self →
  (∀ fuel acc l, findSubgraph fuel g self weight_value acc ≠ Ok l) ∧
  (∀ fuel acc, rank weight_value.1 < fuel →
     ∃ v', findSubgraph fuel g self weight_value acc
           = Err (UnexpectedGraphInput v' self) ∧
           traced g weight_value v' ∧ hitGraphInput g v' = true ∧ v' ≠ self).
Proof.
  intros Hs Hrank Hw Ht Hhit Hne.
  assert (∀ fuel acc l, findSubgraph fuel g self weight_value acc ≠ Ok l)
    as Hnot.
  { intros fuel acc l Hf. apply Hne.
    by eapply findSubgraph_ok_traced. }
  split; [done|]. intros fuel acc Hlt.
  pose proof (findSubgraph_settled rank fuel weight_value acc Hs Hrank Hw Hlt)
    as Hsettled.
  destruct (findSubgraph fuel g self weight_value acc) as [l|e] eqn:Hf.
  - by destruct (Hnot fuel acc l).
  - destruct e; try done. simpl in Hsettled.
    destruct Hsettled as (-> & ? & ? & ?). eauto.
Qed.

End FindSubgraph.

(** ** Running graph code *)

Lemma bind_ok {S A B} (m : M S A) (k : A → M S B) (s s' : S) (a : A) :
  m s = Ok (a, s') → bind m k s = k a s'.
Proof. unfold bind. by intros ->. Qed.

Lemma bind_err {S A B} (m : M S A) (k : A → M S B) (s : S) (e : Error) :
  m s = Err e → bind m k s = Err e.
Proof. unfold bind. by intros ->. Qed.

Lemma get_node_ok (g : Graph) (n : NodeId) (nd : NodeData) :
  g_nodes g !! n = Some nd → get_node n g = Ok (nd, g).
Proof. unfold get_node. by intros ->. Qed.

Lemma kind_ok (g : Graph) (n : NodeId) (nd : NodeData) :
  g_nodes g !! n = Some nd → kind n g = Ok (n_kind nd, g).
Proof. intros H. unfold kind. by rewrite (bind_ok _ _ _ _ _ (get_node_ok _ _ _ H)). Qed.

Lemma inputs_ok (g : Graph) (n : NodeId) (nd : NodeData) :
  g_nodes g !! n = Some nd → inputs n g = Ok (n_inputs nd, g).
Proof. intros H. unfold inputs. by rewrite (bind_ok _ _ _ _ _ (get_node_ok _ _ _ H)). Qed.

Lemma input_ok (g : Graph) (n : NodeId) (nd : NodeData) (i : nat) (v : Value) :
  g_nodes g !! n = Some nd → n_inputs nd !! i = Some v →
  input n i g = Ok (v, g).
Proof.
  intros H Hi. unfold input.
  rewrite (bind_ok _ _ _ _ _ (get_node_ok _ _ _ H)). unfold lift. by rewrite Hi.
Qed.

Lemma output_ok (g : Graph) (n : NodeId) (nd : NodeData) :
  g_nodes g !! n = Some nd → length (n_outputs nd) = 1 →
  output n g = Ok ((n, 0), g).
Proof.
  intros H Hlen. unfold output.
  rewrite (bind_ok _ _ _ _ _ (get_node_ok _ _ _ H)).
  by rewrite bool_decide_eq_true_2.
Qed.

Lemma value_meta_ok (g : Graph) (v : Value) (nd : NodeData) (m : OutMeta) :
  g_nodes g !! v.1 = Some nd → n_outputs nd !! v.2 = Some m →
  value_meta v g = Ok (m, g).
Proof.
  intros H Hm. unfold value_meta.
  rewrite (bind_ok _ _ _ _ _ (get_node_ok _ _ _ H)). unfold lift. by rewrite Hm.
Qed.

Lemma debugName_ok (g : Graph) (v : Value) (nd : NodeData) (m : OutMeta) :
  g_nodes g !! v.1 = Some nd → n_outputs nd !! v.2 = Some m →
  debugName v g = Ok (o_name m, g).
Proof.
  intros H Hm. unfold debugName.
  by rewrite (bind_ok _ _ _ _ _ (value_meta_ok _ _ _ _ H Hm)).
Qed.

Lemma type_of_ok (g : Graph) (v : Value) (nd : NodeData) (m : OutMeta) :
  g_nodes g !! v.1 = Some nd → n_outputs nd !! v.2 = Some m →
  type_of v g = Ok (o_type m, g).
Proof.
  intros H Hm. unfold type_of.
  by rewrite (bind_ok _ _ _ _ _ (value_meta_ok _ _ _ _ H Hm)).
Qed.

Lemma insertNode_ok (g : Graph) (n : NodeId) :
  in_block_list (g_insert_before g) g = true →
  insertNode n g
  = Ok (n, set_block (tree_insert (g_insert_before g) (n, [])) g).
Proof. intros H. unfold insertNode, bind, get, check. by rewrite H. Qed.

Lemma replaceInput_ok (g : Graph) (user : NodeId) (i : nat) (v : Value)
    (nd : NodeData) :
  g_nodes g !! user = Some nd → i < length (n_inputs nd) →
  replaceInput user i v g
  = Ok (tt, set_nodes <[user := with_inputs (<[i := v]> (n_inputs nd)) nd]> g).
Proof.
  intros H Hi. unfold replaceInput.
  rewrite (bind_ok _ _ _ _ _ (get_node_ok _ _ _ H)).
  rewrite bool_decide_eq_true_2 by done.
  unfold check, bind, ret, update_node, modify, set_nodes. simpl.
  do 3 f_equal. apply map_eq. intros x.
  destruct (decide (x = user)) as [->|Hne].
  - by rewrite lookup_alter_eq, lookup_insert_eq, H.
  - by rewrite lookup_alter_ne, lookup_insert_ne.
Qed.

Lemma WithInsertPoint_ok {A} (g g' : Graph) (n : NodeId) (body : M Graph A)
    (a : A) :
  in_block_list n g = true →
  body (set_insert_before n g) = Ok (a, g') →
  WithInsertPoint n body g
  = Ok (a, set_insert_before (g_insert_before g) g').
Proof.
  intros H Hb. unfold WithInsertPoint, bind, get, check, modify, ret.
  rewrite H. simpl. by rewrite Hb.
Qed.

Lemma wf_next_fresh (g : Graph) : wf_next g → g_nodes g !! g_next g = None.
Proof.
  intros Hwf. destruct (g_nodes g !! g_next g) eqn:E; [|done].
  apply Hwf in E. lia.
Qed.

(** ** Dequantize replication *)

(** One turn of the loop of [insertDeQuantForAllUse]: a fresh dequantize
    node in front of the user, read by the user in the slot of the use. *)
Lemma insertDeQuant_for_use (g : Graph) (quantized_val original_val : Value)
    (i : nat) (user : NodeId) (offset : nat) (ndu ndv : NodeData)
    (meta : OutMeta) :
  wf_next g →
  g_nodes g !! user = Some ndu →
  offset < length (n_inputs ndu) →
  in_block_list user g = true →
  g_nodes g !! original_val.1 = Some ndv →
  n_outputs ndv !! original_val.2 = Some meta →
  WithInsertPoint user (
    dequant <- insertDeQuant quantized_val original_val i ;;
    out <- output dequant ;;
    replaceInput user offset out ;;
    ret out) g
  = Ok ((g_next g, 0),
        mkGraph
          (<[user := with_inputs (<[offset := (g_next g, 0)]> (n_inputs ndu)) ndu]>
             (<[g_next g := dequant_node quantized_val meta i]> (g_nodes g)))
          (tree_insert user (g_next g, []) (g_block g))
          (S (g_next g)) (g_insert_before g)).
Proof.
  intros Hwf Hu Hoff Hblk Hv Hmeta.
  pose proof (wf_next_fresh g Hwf) as Hfresh.
  assert (user ≠ g_next g) as Hne1 by (intros ->; congruence).
  assert (original_val.1 ≠ g_next g) as Hne2 by (intros E; congruence).
  unfold WithInsertPoint, bind at 1, get.
  unfold bind at 1, check. rewrite Hblk. simpl.
  unfold bind at 1, modify.
  unfold bind at 1.
  set (g0 := set_insert_before user g).
  assert (insertDeQuant quantized_val original_val i g0
          = Ok (g_next g,
                mkGraph (<[g_next g := dequant_node quantized_val meta i]>
                           (g_nodes g))
                  (tree_insert user (g_next g, []) (g_block g))
                  (S (g_next g)) user)) as Hdq.
  { unfold insertDeQuant.
    erewrite bind_ok by reflexivity.
    erewrite bind_ok
      by (eapply output_ok; [simpl; apply lookup_insert_eq | done]).
    erewrite bind_ok
      by (eapply debugName_ok; [simpl; by rewrite lookup_insert_ne | done]).
    erewrite bind_ok
      by (eapply type_of_ok; [simpl; by rewrite lookup_insert_ne | done]).
    erewrite bind_ok by reflexivity.
    erewrite bind_ok by reflexivity.
    rewrite insertNode_ok by done.
    unfold set_block, set_nodes. simpl. do 3 f_equal.
    rewrite !alter_insert_eq. done. }
  erewrite bind_ok by exact Hdq.
  erewrite bind_ok
    by (eapply output_ok; [simpl; apply lookup_insert_eq | done]).
  erewrite bind_ok
    by (eapply replaceInput_ok; [simpl; by rewrite lookup_insert_ne | done]).
  done.
Qed.

Lemma with_inputs_twice (ins ins' : list Value) (nd : NodeData) :
  with_inputs ins' (with_inputs ins nd) = with_inputs ins' nd.
Proof. done. Qed.

Lemma insertDeQuantForUses_rewired (us : list (NodeId * nat)) (g : Graph)
    (quantized_val original_val : Value) (i : nat) (ndv : NodeData)
    (meta : OutMeta) :
  wf_next g → uses_valid g us → NoDup us →
  g_nodes g !! original_val.1 = Some ndv →
  n_outputs ndv !! original_val.2 = Some meta →
  ∃ outs g',
    insertDeQuantForUses quantized_val original_val us i g = Ok (outs, g') ∧
    rewired g g' quantized_val us.
Proof.
  revert g i ndv.
  induction us as [|[user offset] us IH]; intros g i ndv Hwf Hval Hnd Hv Hmeta.
  { exists [], g. split; [done|]. unfold rewired. simpl.
    rewrite Nat.add_0_r. repeat split; try done.
    - intros j ?. lia.
    - intros x ndx Hx. exists (n_inputs ndx).
      split; [by destruct ndx|]. split; [done|]. split; [done|].
      intros j off Hj. done. }
  apply Forall_cons in Hval as [(ndu & Hu & Hoff & Hblk) Hval].
  apply NoDup_cons in Hnd as [Hnotin Hnd]. simpl in Hu, Hoff, Hblk.
  pose proof (wf_next_fresh g Hwf) as Hfresh.
  assert (user ≠ g_next g) as Hne1 by (intros ->; congruence).
  set (g1 := mkGraph
     (<[user := with_inputs (<[offset := (g_next g, 0)]> (n_inputs ndu)) ndu]>
        (<[g_next g := dequant_node quantized_val meta i]> (g_nodes g)))
     (tree_insert user (g_next g, []) (g_block g))
     (S (g_next g)) (g_insert_before g)).
  assert (∀ x, g_nodes g1 !! x =
               if decide (x = user)
               then Some (with_inputs (<[offset := (g_next g, 0)]> (n_inputs ndu)) ndu)
               else if decide (x = g_next g)
                    then Some (dequant_node quantized_val meta i)
                    else g_nodes g !! x) as Hg1.
  { intros x. simpl. case_decide as E1; [subst; by rewrite lookup_insert_eq|].
    rewrite lookup_insert_ne by done.
    case_decide as E2; [subst; by rewrite lookup_insert_eq|].
    by rewrite lookup_insert_ne. }
  assert (wf_next g1) as Hwf1.
  { intros x ndx Hx. rewrite Hg1 in Hx. simpl.
    repeat case_decide; subst.
    - apply Hwf in Hu. lia.
    - lia.
    - apply Hwf in Hx. lia. }
  assert (∀ x, in_block_list x g = true → in_block_list x g1 = true) as Hblk1.
  { intros x Hx. unfold in_block_list in *. apply bool_decide_eq_true.
    apply bool_decide_eq_true in Hx. simpl. by apply block_ids_tree_insert. }
  assert (uses_valid g1 us) as Hval1.
  { unfold uses_valid in *. rewrite Forall_forall in Hval.
    apply Forall_forall. intros [u o] Huo.
    destruct (Hval _ Huo) as (ndx & Hx & Ho & Hb). simpl in *.
    destruct (decide (u = user)) as [->|Hne].
    - same_lookup. eexists. rewrite Hg1. rewrite decide_True by done.
      split; [done|]. split; [|by apply Hblk1]. simpl.
      by rewrite length_insert.
    - exists ndx. rewrite Hg1, decide_False by done.
      rewrite decide_False by (intros ->; congruence).
      split; [done|]. split; [done|]. by apply Hblk1. }
  assert (∃ ndv', g_nodes g1 !! original_val.1 = Some ndv' ∧
                  n_outputs ndv' !! original_val.2 = Some meta)
    as (ndv' & Hv' & Hmeta').
  { rewrite Hg1. destruct (decide (original_val.1 = user)) as [E|E].
    - rewrite E in Hv. same_lookup. eexists. split; [done|]. done.
    - rewrite decide_False by (intros E'; congruence). eauto. }
  destruct (IH g1 (S i) ndv' Hwf1 Hval1 Hnd Hv' Hmeta')
    as (outs & g' & Hrun & Hn & Hwf' & Hib & Hblk' & Hnew & Hold & Hnone).
  exists ((g_next g, 0) :: outs), g'. split.
  { simpl. erewrite bind_ok by (by eapply insertDeQuant_for_use).
    fold g1. by rewrite (bind_ok _ _ _ _ _ Hrun). }
  unfold rewired. simpl in Hn |- *.
  split; [lia|]. split; [done|]. split; [done|].
  split; [by intros; apply Hblk', Hblk1|].
  split; [|split].
  - intros [|j] Hj.
    + rewrite Nat.add_0_r.
      destruct (Hold (g_next g) (dequant_node quantized_val meta i))
        as (ins' & Hl & Hlen & Hsame & _).
      { rewrite Hg1, decide_False by done. by rewrite decide_True. }
      exists meta, i. etrans; [exact Hl|]. f_equal.
      destruct ins' as [|q [|]]; try done. simpl in Hlen.
      specialize (Hsame 0). simpl in Hsame.
      unfold dequant_node, with_inputs. simpl. do 2 f_equal.
      assert (Some q = Some quantized_val) as [= ->]; [|done].
      apply Hsame. intros Hin. rewrite Forall_forall in Hval.
      destruct (Hval _ Hin) as (ndx & Hx & _). simpl in Hx. congruence.
    + destruct (Hnew j) as (m & i' & Hm); [lia|].
      exists m, i'. simpl in Hm. by replace (g_next g + S j) with (S (g_next g + j)) by lia.
  - intros x ndx Hx.
    destruct (decide (x = user)) as [->|Hne].
    + same_lookup.
      destruct (Hold user (with_inputs (<[offset := (g_next g, 0)]> (n_inputs ndx)) ndx))
        as (ins' & Hl & Hlen & Hsame & Hrep).
      { by rewrite Hg1, decide_True. }
      exists ins'. split; [done|]. simpl in Hlen. rewrite length_insert in Hlen.
      split; [done|]. split.
      * intros off Hoff'. rewrite Hsame.
        -- simpl. rewrite list_lookup_insert_ne; [done|].
           intros ->. apply Hoff'. by left.
        -- intros Hin. apply Hoff'. by right.
      * intros [|j] off Hj; simpl in Hj.
        -- injection Hj as <-. rewrite Nat.add_0_r, Hsame by done. simpl.
           by apply list_lookup_insert_eq.
        -- rewrite (Hrep j off Hj). simpl. do 2 f_equal. lia.
    + destruct (Hold x ndx) as (ins' & Hl & Hlen & Hsame & Hrep).
      { rewrite Hg1, decide_False by done.
        by rewrite decide_False by (intros ->; congruence). }
      exists ins'. split; [done|]. split; [done|]. split.
      * intros off Hoff'. apply Hsame. intros Hin. apply Hoff'. by right.
      * intros [|j] off Hj; simpl in Hj; [congruence|].
        rewrite (Hrep j off Hj). simpl. do 2 f_equal. lia.
  - intros x Hx Hxn. apply Hnone; [simpl; lia|].
    rewrite Hg1. rewrite decide_False by (intros ->; same_lookup).
    by rewrite decide_False by lia.
Qed.

(** ** Use lists *)

Lemma elem_of_slots_from (i : nat) (v : Value) (ins : list Value) (off : nat) :
  off ∈ slots_from i v ins ↔ ∃ k, off = i + k ∧ ins !! k = Some v.
Proof.
  revert i. induction ins as [|x ins IH]; intros i; simpl.
  - split; [by intros ?%elem_of_nil | by intros (k & _ & ?)].
  - case_decide as E.
    + subst x. rewrite elem_of_cons, IH. split.
      * intros [->|(k & -> & Hk)]; [exists 0 | exists (S k)];
          (split; [lia|done]).
      * intros ([|k] & -> & Hk); [left; lia|]. right. exists k.
        split; [lia|done].
    + rewrite IH. split.
      * intros (k & -> & Hk). exists (S k). split; [lia|done].
      * intros ([|k] & -> & Hk); simpl in Hk; [congruence|].
        exists k. split; [lia|done].
Qed.

Lemma elem_of_slots_of (v : Value) (ins : list Value) (off : nat) :
  off ∈ slots_of v ins ↔ ins !! off = Some v.
Proof.
  unfold slots_of. rewrite elem_of_slots_from. split.
  - by intros (k & -> & ?).
  - intros ?. by exists off.
Qed.

Lemma NoDup_slots_from (i : nat) (v : Value) (ins : list Value) :
  NoDup (slots_from i v ins).
Proof.
  revert i. induction ins as [|x ins IH]; intros i; simpl; [constructor|].
  case_decide; [|done]. constructor; [|done].
  rewrite elem_of_slots_from. intros (k & ? & _). lia.
Qed.


Lemma elem_of_node_uses (nodes : gmap NodeId NodeData) (v : Value)
    (x u : NodeId) (off : nat) :
  (u, off) ∈ node_uses nodes v x ↔
  u = x ∧ ∃ nd, nodes !! x = Some nd ∧ n_inputs nd !! off = Some v.
Proof.
  unfold node_uses. destruct (nodes !! x) as [nd|].
  - rewrite list_elem_of_fmap. split.
    + intros (o & [= -> ->] & Ho). split; [done|]. exists nd.
      split; [done|]. by apply elem_of_slots_of.
    + intros (-> & nd' & [= <-] & Ho). exists off. split; [done|].
      by apply elem_of_slots_of.
  - split; [by intros ?%elem_of_nil | by intros (_ & nd & ? & _)].
Qed.

Lemma elem_of_uses_in (g : Graph) (v : Value) (u : NodeId) (off : nat) :
  (u, off) ∈ uses_in g v ↔
  u < g_next g ∧ ∃ nd, g_nodes g !! u = Some nd ∧ n_inputs nd !! off = Some v.
Proof.
  unfold uses_in. rewrite list_elem_of_bind. split.
  - intros (x & Hx & Hseq). apply elem_of_node_uses in Hx as (-> & Hnd).
    apply elem_of_seq in Hseq. split; [lia|done].
  - intros (Hlt & Hnd). exists u. split.
    + by apply elem_of_node_uses.
    + apply elem_of_seq. lia.
Qed.

Lemma NoDup_uses_in (g : Graph) (v : Value) : NoDup (uses_in g v).
Proof.
  unfold uses_in. apply NoDup_bind.
  - intros x1 x2 [u off] _ _ H1 H2.
    apply elem_of_node_uses in H1 as [-> _].
    by apply elem_of_node_uses in H2 as [-> _].
  - intros x _. unfold node_uses. destruct (g_nodes g !! x); [|constructor].
    apply NoDup_fmap_2; [by intros ?? [=]|]. apply NoDup_slots_from.
  - apply NoDup_seq.
Qed.

Lemma uses_in_nil (g : Graph) (v : Value) :
  (∀ (x : NodeId) (nd : NodeData),
     g_nodes g !! x = Some nd → v ∉ n_inputs nd) →
  uses_in g v = [].
Proof.
  intros H. destruct (uses_in g v) as [|[u off] us] eqn:E; [done|].
  assert ((u, off) ∈ uses_in g v) as Hin by (rewrite E; by left).
  apply elem_of_uses_in in Hin as (_ & nd & Hnd & Hoff).
  destruct (H u nd Hnd). by eapply list_elem_of_lookup_2.
Qed.






Lemma with_inputs_id (nd : NodeData) : with_inputs (n_inputs nd) nd = nd.
Proof. by destruct nd. Qed.





Lemma filter_m_pure {S A} (f : A → M S bool) (p : A → bool) (l : list A)
    (s : S) :
  (∀ x, x ∈ l → f x s = Ok (p x, s)) →
  filter_m f l s = Ok (List.filter p l, s).
Proof.
  induction l as [|x l IH]; intros H; [done|]. simpl.
  rewrite (bind_ok _ _ _ _ _ (H x ltac:(by left))).
  rewrite (bind_ok _ _ _ _ _ (IH (λ y Hy, H y ltac:(by right)))).
  by destruct (p x).
Qed.



Lemma outputs_ok (g : Graph) (n : NodeId) (nd : NodeData) :
  g_nodes g !! n = Some nd →
  outputs n g = Ok (map (pair n) (seq 0 (length (n_outputs nd))), g).
Proof.
  intros H. unfold outputs.
  by rewrite (bind_ok _ _ _ _ _ (get_node_ok _ _ _ H)).
Qed.





(** ** Quant/dequant insertion *)

Lemma extends_refl (g : Graph) : wf_next g → extends g g.
Proof. intros ?. by repeat split. Qed.

Lemma extends_trans (g1 g2 g3 : Graph) :
  extends g1 g2 → extends g2 g3 → extends g1 g3.
Proof.
  intros (? & ? & E1 & B1 & N1) (? & ? & E2 & B2 & N2).
  split; [done|]. split; [lia|]. split; [congruence|]. split; eauto.
Qed.

Lemma extends_inserted (g : Graph) (nd : NodeData) :
  wf_next g → extends g (inserted g nd).
Proof.
  intros Hwf. pose proof (wf_next_fresh g Hwf) as Hfresh.
  split; [|split; [simpl; lia|split; [done|split]]].
  - intros x ndx Hx. simpl in *.
    apply lookup_insert_Some in Hx as [[<- _]|[_ Hx]]; [lia|].
    apply Hwf in Hx. simpl in Hx. lia.
  - intros x Hx. unfold in_block_list in *. apply bool_decide_eq_true.
    apply bool_decide_eq_true in Hx. simpl. by apply block_ids_tree_insert.
  - intros x ndx Hx. simpl. rewrite lookup_insert_ne; [done|].
    intros <-. congruence.
Qed.

Lemma inserted_lookup (g : Graph) (nd : NodeData) :
  g_nodes (inserted g nd) !! g_next g = Some nd.
Proof. apply lookup_insert_eq. Qed.

Lemma insertQuant_ok (g : Graph) (ins : list Value) (quant_kind : NodeKind)
    (name : string) :
  in_block_list (g_insert_before g) g = true →
  insertQuant ins quant_kind name g
  = Ok (g_next g,
        inserted g (mkNode quant_kind None None ins [mkOut name TensorT])).
Proof.
  intros Hblk. unfold insertQuant.
  erewrite bind_ok by reflexivity.
  erewrite bind_ok
    by (eapply output_ok; [simpl; apply lookup_insert_eq | done]).
  erewrite bind_ok by reflexivity.
  rewrite insertNode_ok by done.
  unfold inserted, set_block, set_nodes. simpl. do 3 f_equal.
  by rewrite alter_insert_eq.
Qed.

Lemma insertDeQuant_ok (g : Graph) (quantized_val original_val : Value)
    (i : nat) (ndv : NodeData) (meta : OutMeta) :
  wf_next g →
  in_block_list (g_insert_before g) g = true →
  g_nodes g !! original_val.1 = Some ndv →
  n_outputs ndv !! original_val.2 = Some meta →
  insertDeQuant quantized_val original_val i g
  = Ok (g_next g, inserted g (dequant_node quantized_val meta i)).
Proof.
  intros Hwf Hblk Hv Hmeta.
  pose proof (wf_next_fresh g Hwf) as Hfresh.
  assert (original_val.1 ≠ g_next g) as Hne by (intros E; congruence).
  unfold insertDeQuant.
  erewrite bind_ok by reflexivity.
  erewrite bind_ok
    by (eapply output_ok; [simpl; apply lookup_insert_eq | done]).
  erewrite bind_ok
    by (eapply debugName_ok; [simpl; by rewrite lookup_insert_ne | done]).
  erewrite bind_ok
    by (eapply type_of_ok; [simpl; by rewrite lookup_insert_ne | done]).
  erewrite bind_ok by reflexivity.
  erewrite bind_ok by reflexivity.
  rewrite insertNode_ok by done.
  unfold inserted, set_block, set_nodes. simpl. do 3 f_equal.
  by rewrite !alter_insert_eq.
Qed.

Lemma insertGetAttr_ok (g : Graph) (obj : Value) (field : string)
    (ndv : NodeData) (meta : OutMeta) :
  wf_next g →
  in_block_list (g_insert_before g) g = true →
  g_nodes g !! obj.1 = Some ndv →
  n_outputs ndv !! obj.2 = Some meta →
  insertGetAttr obj field g
  = Ok ((g_next g, 0),
        inserted g (mkNode (Prim "GetAttr") (Some field) None [obj]
                      [mkOut field (getAttribute (o_type meta) field)])).
Proof.
  intros Hwf Hblk Hv Hmeta.
  pose proof (wf_next_fresh g Hwf) as Hfresh.
  assert (obj.1 ≠ g_next g) as Hne by (intros E; congruence).
  unfold insertGetAttr.
  erewrite bind_ok by reflexivity.
  erewrite bind_ok
    by (eapply type_of_ok; [simpl; by rewrite lookup_insert_ne | done]).
  erewrite bind_ok by reflexivity.
  erewrite bind_ok by reflexivity.
  erewrite bind_ok by (by apply insertNode_ok).
  unfold inserted, set_block, set_nodes, ret. simpl. do 3 f_equal.
  by rewrite !alter_insert_eq.
Qed.

Lemma insertConstant_ok (g : Graph) (val : IValue) :
  in_block_list (g_insert_before g) g = true →
  insertConstant val g
  = Ok ((g_next g, 0),
        inserted g (mkNode (Prim "Constant") None (Some val) []
                      [mkOut (pretty (g_next g) +:+ "." +:+ pretty 0)
                             (type_of_ivalue val)])).
Proof.
  intros Hblk. unfold insertConstant.
  erewrite bind_ok by reflexivity.
  erewrite bind_ok by reflexivity.
  erewrite bind_ok by (by apply insertNode_ok).
  unfold inserted, set_block, set_nodes, ret. simpl. do 3 f_equal.
  by rewrite !alter_insert_eq.
Qed.

Lemma extends_meta (g g1 : Graph) (v : Value) (ndv : NodeData) :
  extends g g1 → g_nodes g !! v.1 = Some ndv → g_nodes g1 !! v.1 = Some ndv.
Proof. intros (_ & _ & _ & _ & H). apply H. Qed.

Lemma extends_blk (g g1 : Graph) :
  extends g g1 →
  in_block_list (g_insert_before g) g = true →
  in_block_list (g_insert_before g1) g1 = true.
Proof. intros (_ & _ & -> & H & _). apply H. Qed.

Lemma map_m_insertGetAttr (names : list string) (g : Graph) (self : Value)
    (nds : NodeData) (meta : OutMeta) :
  wf_next g →
  in_block_list (g_insert_before g) g = true →
  g_nodes g !! self.1 = Some nds →
  n_outputs nds !! self.2 = Some meta →
  ∃ vals g1,
    map_m (insertGetAttr self) names g = Ok (vals, g1) ∧ extends g g1.
Proof.
  revert g. induction names as [|name names IH]; intros g Hwf Hblk Hs Hm.
  { exists [], g. split; [done|]. by apply extends_refl. }
  pose proof (extends_inserted g
    (mkNode (Prim "GetAttr") (Some name) None [self]
       [mkOut name (getAttribute (o_type meta) name)]) Hwf) as Hext.
  destruct (IH _ (proj1 Hext) (extends_blk _ _ Hext Hblk)
              (extends_meta _ _ _ _ Hext Hs) Hm) as (vals & g1 & Hrun & Hext1).
  exists ((g_next g, 0) :: vals), g1. split.
  - simpl. erewrite bind_ok by (by eapply insertGetAttr_ok).
    by rewrite (bind_ok _ _ _ _ _ Hrun).
  - by eapply extends_trans.
Qed.

Lemma insertChooseQParams_ok (g : Graph) (original_val : Value)
    (ndv : NodeData) (meta : OutMeta) :
  wf_next g →
  in_block_list (g_insert_before g) g = true →
  g_nodes g !! original_val.1 = Some ndv →
  n_outputs ndv !! original_val.2 = Some meta →
  ∃ (c : NodeData) (o0 o1 : OutMeta),
    insertChooseQParams original_val g
    = Ok (S (g_next g),
          inserted (inserted g c)
            (mkNode (Aten "_choose_qparams_per_tensor") None None
               [original_val; (g_next g, 0)] [o0; o1])).
Proof.
  intros Hwf Hblk Hv Hmeta.
  pose proof (wf_next_fresh g Hwf) as Hfresh.
  assert (original_val.1 ≠ g_next g) as Hne by (intros E; congruence).
  assert (original_val.1 ≠ S (g_next g)) as Hne'.
  { intros E. rewrite E in Hv. apply Hwf in Hv. simpl in Hv. lia. }
  eexists _, _, _. unfold insertChooseQParams.
  erewrite bind_ok by (by apply insertConstant_ok).
  erewrite bind_ok by reflexivity.
  erewrite bind_ok
    by (eapply debugName_ok; [simpl; by rewrite !lookup_insert_ne | done]).
  do 4 erewrite bind_ok by reflexivity.
  rewrite insertNode_ok.
  - unfold inserted, set_block, set_nodes. simpl. do 3 f_equal.
    rewrite !alter_insert_eq. simpl. reflexivity.
  - simpl. unfold in_block_list in *. simpl.
    apply bool_decide_eq_true. apply bool_decide_eq_true in Hblk.
    by apply block_ids_tree_insert.
Qed.

Lemma static_ops_inserted (g : Graph) (self observer_out original_val : Value)
    (qparam_names : list string) (quantize_func : string)
    (nds ndv : NodeData) (ms mv : OutMeta) :
  wf_next g →
  in_block_list (g_insert_before g) g = true →
  g_nodes g !! self.1 = Some nds → n_outputs nds !! self.2 = Some ms →
  g_nodes g !! original_val.1 = Some ndv →
  n_outputs ndv !! original_val.2 = Some mv →
  ∃ quant dequant g1,
    (qparams <- map_m (insertGetAttr self) qparam_names ;;
     name <- debugName original_val ;;
     quant <- insertQuant (observer_out :: qparams) (Aten quantize_func)
                (name +:+ ".quant") ;;
     quant_out <- output quant ;;
     dequant <- insertDeQuant quant_out original_val 0 ;;
     ret (quant, @None NodeId, dequant)) g = Ok ((quant, None, dequant), g1) ∧
    ops_inserted g g1 observer_out quantize_func quant None dequant false.
Proof.
  intros Hwf Hblk Hs Hms Hv Hmv.
  destruct (map_m_insertGetAttr qparam_names g self nds ms Hwf Hblk Hs Hms)
    as (vals & g1 & Hrun & Hext1).
  pose proof (extends_blk _ _ Hext1 Hblk) as Hblk1.
  pose proof (extends_meta _ _ _ _ Hext1 Hv) as Hv1.
  set (ndq := mkNode (Aten quantize_func) None None (observer_out :: vals)
                [mkOut (o_name mv +:+ ".quant") TensorT]).
  pose proof (extends_inserted g1 ndq (proj1 Hext1)) as Hext2.
  set (g2 := inserted g1 ndq) in *.
  pose proof (extends_blk _ _ Hext2 Hblk1) as Hblk2.
  pose proof (extends_meta _ _ _ _ Hext2 Hv1) as Hv2.
  pose proof (extends_inserted g2 (dequant_node (g_next g1, 0) mv 0)
                (proj1 Hext2)) as Hext3.
  exists (g_next g1), (g_next g2), (inserted g2 (dequant_node (g_next g1, 0) mv 0)).
  split.
  - rewrite (bind_ok _ _ _ _ _ Hrun).
    erewrite bind_ok by (by eapply debugName_ok).
    erewrite bind_ok by (by apply insertQuant_ok).
    erewrite bind_ok
      by (eapply output_ok; [apply inserted_lookup | done]).
    erewrite bind_ok
      by (by eapply (insertDeQuant_ok g2); [apply Hext2|..]).
    done.
  - split; [by eapply extends_trans; [|eapply extends_trans]|].
    destruct Hext1 as (_ & Hle & _). simpl.
    split; [done|]. split; [lia|]. split; [lia|]. split; [|split; [|done]].
    + exists ndq. split; [|done]. simpl.
      rewrite lookup_insert_ne by lia. apply lookup_insert_eq.
    + eexists. split; [apply lookup_insert_eq|]. done.
Qed.

Lemma dynamic_ops_inserted (g : Graph) (self observer_out : Value)
    (qparam_names : list string) (quantize_func : string)
    (nds ndo : NodeData) (ms mo : OutMeta) :
  wf_next g →
  in_block_list (g_insert_before g) g = true →
  g_nodes g !! self.1 = Some nds → n_outputs nds !! self.2 = Some ms →
  g_nodes g !! observer_out.1 = Some ndo →
  n_outputs ndo !! observer_out.2 = Some mo →
  qparam_names ≠ [] →
  ∃ quant choose_qparams dequant g1,
    (back <- lift (from_option (OutOfRange "back") (last qparam_names)) ;;
     dtype <- insertGetAttr self back ;;
     r <- insertChooseQParamQuantDequant observer_out dtype
            (Aten quantize_func) ;;
     ret (r.1.2, Some r.1.1, r.2)) g
    = Ok ((quant, Some choose_qparams, dequant), g1) ∧
    ops_inserted g g1 observer_out quantize_func quant (Some choose_qparams)
      dequant true.
Proof.
  intros Hwf Hblk Hs Hms Ho Hmo Hne.
  destruct (last qparam_names) as [back|] eqn:Hback.
  2:{ apply last_None in Hback. done. }
  set (nda := mkNode (Prim "GetAttr") (Some back) None [self]
                [mkOut back (getAttribute (o_type ms) back)]).
  pose proof (extends_inserted g nda Hwf) as Hext1.
  set (g1 := inserted g nda) in *.
  pose proof (extends_blk _ _ Hext1 Hblk) as Hblk1.
  pose proof (extends_meta _ _ _ _ Hext1 Ho) as Ho1.
  destruct (insertChooseQParams_ok g1 observer_out ndo mo (proj1 Hext1) Hblk1
              Ho1 Hmo) as (c & o0 & o1 & Hcq).
  pose proof (extends_inserted g1 c (proj1 Hext1)) as Hext2.
  set (g2 := inserted g1 c) in *.
  set (ndc := mkNode (Aten "_choose_qparams_per_tensor") None None
                [observer_out; (g_next g1, 0)] [o0; o1]) in *.
  pose proof (extends_inserted g2 ndc (proj1 Hext2)) as Hext3.
  set (g3 := inserted g2 ndc) in *.
  pose proof (extends_trans _ _ _ Hext1 (extends_trans _ _ _ Hext2 Hext3))
    as Hext13.
  pose proof (extends_blk _ _ Hext13 Hblk) as Hblk3.
  pose proof (extends_meta _ _ _ _ Hext13 Ho) as Ho3.
  set (ndq := mkNode (Aten quantize_func) None None
                ([observer_out] ++ [(g_next g2, 0); (g_next g2, 1)] ++
                 [(g_next g, 0)])
                [mkOut (o_name mo +:+ ".quant") TensorT]).
  pose proof (extends_inserted g3 ndq (proj1 Hext3)) as Hext4.
  set (g4 := inserted g3 ndq) in *.
  pose proof (extends_trans _ _ _ Hext13 Hext4) as Hext14.
  pose proof (extends_blk _ _ Hext14 Hblk) as Hblk4.
  pose proof (extends_meta _ _ _ _ Hext14 Ho) as Ho4.
  pose proof (extends_inserted g4 (dequant_node (g_next g3, 0) mo 0)
                (proj1 Hext4)) as Hext5.
  exists (g_next g3), (g_next g2), (g_next g4),
    (inserted g4 (dequant_node (g_next g3, 0) mo 0)).
  split.
  - assert (insertChooseQParamQuantDequant observer_out (g_next g, 0)
              (Aten quantize_func) g1
            = Ok ((g_next g2, g_next g3, g_next g4),
                  inserted g4 (dequant_node (g_next g3, 0) mo 0))) as Hin.
    2:{ erewrite bind_ok by reflexivity.
        erewrite bind_ok by (by eapply insertGetAttr_ok).
        by erewrite bind_ok by exact Hin. }
    unfold insertChooseQParamQuantDequant.
    erewrite bind_ok by exact Hcq. fold g2 ndc g3.
    erewrite bind_ok
      by (eapply outputs_ok; apply inserted_lookup).
    erewrite bind_ok by (by eapply debugName_ok).
    erewrite bind_ok by (by apply insertQuant_ok).
    erewrite bind_ok
      by (eapply output_ok; [apply inserted_lookup | done]).
    erewrite bind_ok
      by (by eapply (insertDeQuant_ok g4); [apply Hext4|..]).
    done.
  - split; [by eapply extends_trans|]. simpl.
    split; [lia|]. split; [lia|]. split; [lia|]. split; [|split].
    + exists ndq. split; [|done].
      rewrite lookup_insert_ne by lia. apply lookup_insert_eq.
    + eexists. split; [apply lookup_insert_eq|]. done.
    + split; [done|]. split; [lia|]. split; [lia|]. split; [lia|].
      exists ndc. split; [|done].
      rewrite !lookup_insert_ne by lia. apply lookup_insert_eq.
Qed.

(** ** Rewiring the consumers of an observed value *)

Lemma subst_value_ne (from to x : Value) :
  from ≠ to → subst_value from to x ≠ from.
Proof. intros Hne. unfold subst_value. case_decide; congruence. Qed.

Lemma not_elem_of_redirect (from to : Value) (nd : NodeData) :
  from ≠ to → from ∉ n_inputs (redirect from to nd).
Proof.
  intros Hne. simpl. rewrite list_elem_of_fmap. intros (x & Hx & _).
  symmetry in Hx. by apply subst_value_ne in Hx.
Qed.

Lemma redirect_id (from to : Value) (nd : NodeData) :
  from ∉ n_inputs nd → redirect from to nd = nd.
Proof.
  intros Hnot. unfold redirect.
  replace (map (subst_value from to) (n_inputs nd)) with (n_inputs nd);
    [apply with_inputs_id|].
  induction (n_inputs nd) as [|x l IH]; [done|].
  apply not_elem_of_cons in Hnot as [Hx Hl]. simpl. rewrite <- IH by done.
  unfold subst_value. by rewrite decide_False.
Qed.

Lemma redirect_idemp (from to : Value) (nd : NodeData) :
  from ≠ to → redirect from to (redirect from to nd) = redirect from to nd.
Proof. intros Hne. apply redirect_id. by apply not_elem_of_redirect. Qed.

Lemma not_elem_of_redirect_other (from to v : Value) (nd : NodeData) :
  v ≠ to → v ∉ n_inputs nd → v ∉ n_inputs (redirect from to nd).
Proof.
  intros Hne Hnot. simpl. rewrite list_elem_of_fmap. intros (x & Hx & Hin).
  unfold subst_value in Hx. case_decide; congruence.
Qed.

Lemma redirect_lookup (from to : Value) (nd : NodeData) (off : nat) (x : Value) :
  n_inputs nd !! off = Some x →
  n_inputs (redirect from to nd) !! off = Some (subst_value from to x).
Proof. intros H. simpl. by rewrite list_lookup_fmap, H. Qed.

Lemma rewire_consumers (quant observer : NodeId) (choose_qparams : option NodeId)
    (from to : Value) (us : list (NodeId * nat)) (g : Graph) :
  from ≠ to →
  (∀ use : NodeId * nat, use ∈ us → is_Some (g_nodes g !! use.1)) →
  ∃ g',
    for_each us (λ use,
      let user := use.1 in
      if bool_decide (user ≠ quant) && bool_decide (user ≠ observer) &&
         bool_decide (Some user ≠ choose_qparams)
      then replaceInputWith user from to
      else ret tt) g = Ok (tt, g') ∧
    g_next g' = g_next g ∧
    ∀ x : NodeId,
      g_nodes g' !! x
      = if decide (x ∈ us.*1 ∧ x ≠ quant ∧ x ≠ observer ∧
                   Some x ≠ choose_qparams)
        then redirect from to <$> g_nodes g !! x
        else g_nodes g !! x.
Proof.
  intros Hne. revert g.
  induction us as [|[u off] us IH]; intros g Hall.
  - exists g. split; [done|]. split; [done|]. intros x.
    rewrite decide_False; [done|]. intros [H _]. by apply elem_of_nil in H.
  - destruct (decide (u ≠ quant ∧ u ≠ observer ∧ Some u ≠ choose_qparams))
      as [Hc|Hc].
    + destruct (Hall (u, off)) as [ndu Hu]; [left|]. simpl in Hu.
      set (g0 := set_nodes
                   (alter (with_inputs
                             (map (subst_value from to) (n_inputs ndu))) u) g).
      destruct (IH g0) as (g' & Hrun & Hnext & Hnodes).
      { intros use Hin. simpl. apply lookup_alter_is_Some. apply Hall.
        by right. }
      exists g'. split; [|split; [done|]].
      * simpl. destruct Hc as (? & ? & ?).
        rewrite !bool_decide_eq_true_2 by done. simpl.
        erewrite bind_ok; [exact Hrun|].
        unfold replaceInputWith.
        by erewrite bind_ok by (by apply get_node_ok).
      * intros x. rewrite Hnodes. simpl.
        destruct (decide (x = u)) as [->|Hxu].
        -- rewrite lookup_alter_eq, Hu. simpl.
           match goal with
           | |- _ = if ?d then _ else _ =>
               destruct d as [_|Hn]; [|destruct Hn; split; [left|done]]
           end.
           case_decide; [|done]. f_equal.
           by apply (redirect_idemp from to ndu).
        -- rewrite lookup_alter_ne by done.
           case_decide as Hd.
           ++ rewrite decide_True; [done|].
              destruct Hd as [? ?]. split; [by right|done].
           ++ rewrite decide_False; [done|].
              intros [Hin ?]. apply Hd. split; [|done].
              apply elem_of_cons in Hin as [?|?]; done.
    + destruct (IH g) as (g' & Hrun & Hnext & Hnodes).
      { intros use Hin. apply Hall. by right. }
      exists g'. split; [|split; [done|]].
      * simpl.
        replace (bool_decide (u ≠ quant) && bool_decide (u ≠ observer) &&
                 bool_decide (Some u ≠ choose_qparams)) with false; [done|].
        symmetry. apply not_true_is_false. intros Ht. apply Hc.
        apply andb_true_iff in Ht as [Ht H3].
        apply andb_true_iff in Ht as [H1 H2].
        apply bool_decide_eq_true in H1, H2, H3. done.
      * intros x. rewrite Hnodes.
        case_decide as Hd.
        -- rewrite decide_True; [done|].
           destruct Hd as [? ?]. split; [by right|done].
        -- rewrite decide_False; [done|].
           intros [Hin Hx]. apply elem_of_cons in Hin as [->|?]; [done|].
           by apply Hd.
Qed.

Lemma rewire_after_insertion (g0 g1 : Graph) (observer quant dequant : NodeId)
    (choose_qparams : option NodeId) (original_val : Value)
    (quantize_func : string) (dynamic_activation : bool) :
  ops_inserted g0 g1 (observer, 0) quantize_func quant choose_qparams dequant
    dynamic_activation →
  original_val.1 < g_next g0 →
  ∃ g3,
    (replaceAllUsesWith (observer, 0) original_val ;;
     us <- uses original_val ;;
     dequant_out <- output dequant ;;
     for_each us (λ use,
       let user := use.1 in
       if bool_decide (user ≠ quant) && bool_decide (user ≠ observer) &&
          bool_decide (Some user ≠ choose_qparams)
       then replaceInputWith user original_val dequant_out
       else ret tt)) g1 = Ok (tt, g3) ∧
    ∀ x : NodeId,
      g_nodes g3 !! x
      = (λ nd,
           if decide (x ≠ quant ∧ x ≠ observer ∧ Some x ≠ choose_qparams)
           then redirect original_val (dequant, 0)
                  (redirect (observer, 0) original_val nd)
           else redirect (observer, 0) original_val nd) <$> g_nodes g1 !! x.
Proof.
  intros (Hext & Hq & Hd & Hqd & _ & (ndd & Hndd & _ & _ & Hlen) & _) Hv.
  set (g2 := set_nodes (fmap (redirect (observer, 0) original_val)) g1).
  assert (original_val ≠ (dequant, 0)) as Hne.
  { intros E. rewrite E in Hv. simpl in Hv. lia. }
  destruct (rewire_consumers quant observer choose_qparams original_val
              (dequant, 0) (uses_in g2 original_val) g2 Hne)
    as (g3 & Hrun & _ & Hnodes).
  { intros [u off] Hin. apply elem_of_uses_in in Hin as (_ & nd & Hnd & _).
    by exists nd. }
  exists g3. split.
  - erewrite bind_ok by reflexivity.
    erewrite bind_ok by reflexivity.
    erewrite bind_ok; [exact Hrun|].
    eapply (output_ok _ _ (redirect (observer, 0) original_val ndd)); [|done].
    simpl. by rewrite lookup_fmap, Hndd.
  - intros x. rewrite Hnodes. simpl. rewrite lookup_fmap.
    destruct (g_nodes g1 !! x) as [nd|] eqn:Hx; simpl; [|by case_decide].
    destruct (decide (x ≠ quant ∧ x ≠ observer ∧ Some x ≠ choose_qparams))
      as [Hc|Hc].
    + case_decide as Hin; [done|]. f_equal. symmetry. apply redirect_id.
      intros Hmem. apply Hin. split; [|done].
      apply list_elem_of_lookup in Hmem as [off Hoff].
      apply list_elem_of_fmap. exists (x, off). split; [done|].
      apply elem_of_uses_in. split.
      * destruct Hext as (Hwf1 & _). by apply Hwf1 in Hx.
      * eexists. split; [|exact Hoff]. simpl. by rewrite lookup_fmap, Hx.
    + rewrite decide_False; [done|]. by intros [_ ?].
Qed.

Lemma insertQuantizationOps_run (fuel : nat) (w : World) (gid : GraphId)
    (module : ObjId) (self : Value) (observer : NodeId) (is_per_channel : bool)
    (qparam_names : list string) (quant_type : QuantType) (g : Graph)
    (original_val : Value) (after : NodeId) (ndo nds ndv : NodeData)
    (ms mv : OutMeta) (dynamic_activation : bool) :
  wf_next g →
  g_nodes g !! observer = Some ndo →
  length (n_outputs ndo) = 1 →
  n_inputs ndo !! 1 = Some original_val →
  tree_next observer (g_block g) = Some after →
  in_block_list after g = true →
  g_nodes g !! self.1 = Some nds → n_outputs nds !! self.2 = Some ms →
  g_nodes g !! original_val.1 = Some ndv →
  n_outputs ndv !! original_val.2 = Some mv →
  (quant_type = DYNAMIC →
   isWeight fuel (set_graphs <[gid := set_insert_before after g]> w) module
     gid (observer, 0) = Ok (negb dynamic_activation)) →
  (quant_type ≠ DYNAMIC → dynamic_activation = false) →
  (dynamic_activation = true → qparam_names ≠ []) →
  ∃ g1 g' quant choose_qparams dequant,
    ops_inserted (set_insert_before after g) g1 (observer, 0)
      (if is_per_channel then "quantize_per_channel"
       else "quantize_per_tensor")
      quant choose_qparams dequant dynamic_activation ∧
    insertQuantizationOps fuel w gid module self observer is_per_channel
      qparam_names quant_type g = Ok (tt, g') ∧
    ∀ x : NodeId,
      g_nodes g' !! x
      = (λ nd,
           if decide (x ≠ quant ∧ x ≠ observer ∧ Some x ≠ choose_qparams)
           then redirect original_val (dequant, 0)
                  (redirect (observer, 0) original_val nd)
           else redirect (observer, 0) original_val nd) <$> g_nodes g1 !! x.
Proof.
  intros Hwf Ho Hlen Hin Hnext Hblk Hs Hms Hv Hmv Hdyn Hstat Hback.
  set (g0 := set_insert_before after g).
  set (quantize_func := if is_per_channel then "quantize_per_channel"
                        else "quantize_per_tensor").
  assert (wf_next g0) as Hwf0 by exact Hwf.
  assert (in_block_list (g_insert_before g0) g0 = true) as Hblk0 by exact Hblk.
  assert (original_val.1 < g_next g0) as Hlt by (by apply Hwf in Hv).
  destruct (n_outputs ndo) as [|mo [|]] eqn:Houts; try done.
  assert (quant_type = DYNAMIC →
          (g <- get ;;
           is_weight <-
             lift (isWeight fuel (set_graphs <[gid := g]> w) module gid
                     (observer, 0)) ;;
           ret (negb is_weight)) g0 = Ok (dynamic_activation, g0)) as Hmode.
  { intros Hq. erewrite bind_ok by reflexivity. unfold bind, lift.
    fold g0 in Hdyn. rewrite (Hdyn Hq). unfold ret.
    by rewrite negb_involutive. }
  destruct dynamic_activation;
    [ destruct (dynamic_ops_inserted g0 self (observer, 0) qparam_names
                  quantize_func nds ndo ms mo Hwf0 Hblk0 Hs Hms Ho)
        as (quant & c & dequant & g1 & Hops & Hins);
        [by rewrite Houts|by apply Hback|];
      set (choose_qparams := Some c) in *
    | destruct (static_ops_inserted g0 self (observer, 0) original_val
                  qparam_names quantize_func nds ndv ms mv Hwf0 Hblk0 Hs Hms
                  Hv Hmv)
        as (quant & dequant & g1 & Hops & Hins);
      set (choose_qparams := @None NodeId) in * ].
  all: destruct (rewire_after_insertion g0 g1 observer quant dequant
                   choose_qparams original_val quantize_func _ Hins Hlt)
         as (g3 & Htail & Hnodes).
  all: exists g1, (set_insert_before (g_insert_before g) g3), quant,
         choose_qparams, dequant.
  all: split; [exact Hins|]; split; [|exact Hnodes].
  all: unfold insertQuantizationOps.
  all: erewrite bind_ok
         by (eapply output_ok; [exact Ho|by rewrite Houts]).
  all: erewrite bind_ok by (unfold next; simpl; by rewrite Hnext).
  all: apply WithInsertPoint_ok; [exact Hblk|]; fold g0.
  all: erewrite bind_ok by (by eapply input_ok).
  all: destruct (decide (quant_type = DYNAMIC)) as [Hq|Hq].
  all: try (by specialize (Hstat Hq)).
  all: try (erewrite bind_ok by exact (Hmode Hq)).
  all: try (erewrite bind_ok by reflexivity).
  all: erewrite bind_ok by exact Hops.
  all: exact Htail.
Qed.

Lemma wf_next_above (g : Graph) (x : NodeId) :
  wf_next g → g_next g ≤ x → g_nodes g !! x = None.
Proof.
  intros Hwf Hle. destruct (g_nodes g !! x) as [nd|] eqn:Hx; [|done].
  apply Hwf in Hx. simpl in Hx. lia.
Qed.

(** C2 (amended): after [insertQuantizationOps] has run for an observed
    value, (1) nothing reads the observer output any more, (2) the only
    nodes that read the raw value are the observer call, the new quantize
    node and, for a dynamically quantized activation, the new
    [choose_qparams] node, which exists in that case only, and (3) every
    other node that read the raw value or the observer output now reads the
    output of the new dequantize node in the same slot; the dequantize node
    reads the quantize node. *)
Theorem insertQuantizationOps_consumers (fuel : nat) (w : World) (gid : GraphId)
    (module : ObjId) (self : Value) (observer : NodeId) (is_per_channel : bool)
    (qparam_names : list string) (quant_type : QuantType) (g : Graph)
    (original_val : Value) (after : NodeId) (ndo nds ndv : NodeData)
    (ms mv : OutMeta) (dynamic_activation : bool) :
  wf_next g →
  g_nodes g !! observer = Some ndo →
  length (n_outputs ndo) = 1 →
  n_inputs ndo !! 1 = Some original_val →
  original_val ≠ (observer, 0) →
  tree_next observer (g_block g) = Some after →
  in_block_list after g = true →
  g_nodes g !! self.1 = Some nds → n_outputs nds !! self.2 = Some ms →
  g_nodes g !! original_val.1 = Some ndv →
  n_outputs ndv !! original_val.2 = Some mv →
  (quant_type = DYNAMIC →
   isWeight fuel (set_graphs <[gid := set_insert_before after g]> w) module
     gid (observer, 0) = Ok (negb dynamic_activation)) →
  (quant_type ≠ DYNAMIC → dynamic_activation = false) →
  (dynamic_activation = true → qparam_names ≠ []) →
  ∃ g' quant dequant choose_qparams,
    insertQuantizationOps fuel w gid module self observer is_per_channel
      qparam_names quant_type g = Ok (tt, g') ∧
    g_nodes g !! quant = None ∧ g_nodes g !! dequant = None ∧
    (∃ ndq : NodeData,
       g_nodes g' !! quant = Some ndq ∧
       n_kind ndq = Aten (if is_per_channel then "quantize_per_channel"
                          else "quantize_per_tensor") ∧
       n_inputs ndq !! 0 = Some original_val) ∧
    (∃ ndd : NodeData,
       g_nodes g' !! dequant = Some ndd ∧ n_kind ndd = Aten "dequantize" ∧
       n_inputs ndd = [(quant, 0)]) ∧
    match choose_qparams with
    | Some c =>
        dynamic_activation = true ∧ g_nodes g !! c = None ∧
        ∃ ndc : NodeData,
          g_nodes g' !! c = Some ndc ∧
          n_kind ndc = Aten "_choose_qparams_per_tensor" ∧
          n_inputs ndc !! 0 = Some original_val
    | None => dynamic_activation = false
    end ∧
    uses_in g' (observer, 0) = [] ∧
    consumes g' observer original_val ∧
    (∀ u : NodeId,
       consumes g' u original_val →
       u = observer ∨ u = quant ∨ choose_qparams = Some u) ∧
    (∀ (u : NodeId) (nd : NodeData) (off : nat),
       g_nodes g !! u = Some nd → u ≠ observer →
       n_inputs nd !! off = Some original_val ∨
       n_inputs nd !! off = Some (observer, 0) →
       ∃ nd' : NodeData,
         g_nodes g' !! u = Some nd' ∧ n_inputs nd' !! off = Some (dequant, 0)).
Proof.
  intros Hwf Ho Hlen Hin Hne Hnext Hblk Hs Hms Hv Hmv Hdyn Hstat Hback.
  destruct (insertQuantizationOps_run fuel w gid module self observer
              is_per_channel qparam_names quant_type g original_val after
              ndo nds ndv ms mv dynamic_activation)
    as (g1 & g' & quant & cq & dequant & Hins & Hrun & Hnodes); try done.
  destruct Hins as (Hext & Hq & Hd & Hqd & (ndq & Hndq & Hkq & Hinq) &
                    (ndd & Hndd & Hkd & Hind & _) & Hcq).
  destruct Hext as (Hwf1 & _ & _ & _ & Hold). simpl in Hq, Hd, Hold.
  pose proof (wf_next_above g) as Hfresh.
  assert (observer < g_next g) as Hobs by (by apply Hwf in Ho).
  assert (original_val.1 < g_next g) as Hlt by (by apply Hwf in Hv).
  assert (original_val ≠ (dequant, 0)) as Hned.
  { intros E. rewrite E in Hlt. simpl in Hlt. lia. }
  assert (original_val ≠ (quant, 0)) as Hneq.
  { intros E. rewrite E in Hlt. simpl in Hlt. lia. }
  assert ((observer, 0) ≠ (dequant, 0)) as Hod by (intros [= E]; lia).
  assert ((quant, 0) ≠ (observer, 0)) as Hqo by (intros [= E]; lia).
  exists g', quant, dequant, cq.
  split; [exact Hrun|].
  split; [by apply Hfresh|]. split; [by apply Hfresh|].
  split; [|split; [|split; [|split; [|split; [|split]]]]].
  - eexists. split.
    + rewrite Hnodes, Hndq. simpl. rewrite decide_False; [done|].
      by intros [? _].
    + split; [done|]. erewrite redirect_lookup by exact Hinq.
      unfold subst_value. by rewrite decide_True.
  - eexists. split.
    + rewrite Hnodes, Hndd. simpl. rewrite decide_True; [done|].
      split; [done|]. split; [lia|].
      destruct cq as [c|]; [|done].
      destruct Hcq as (_ & _ & _ & ? & _). congruence.
    + split; [done|]. simpl. rewrite Hind. simpl.
      unfold subst_value. rewrite (decide_False (P := (quant, 0) = _)) by done.
      by rewrite decide_False by done.
  - destruct cq as [c|]; [|done].
    destruct Hcq as (Hdy & Hc & Hcq' & Hcd & ndc & Hndc & Hkc & Hinc).
    simpl in Hc. split; [done|]. split; [by apply Hfresh|].
    eexists. split.
    + rewrite Hnodes, Hndc. simpl. rewrite decide_False; [done|].
      by intros (_ & _ & ?).
    + split; [done|]. erewrite redirect_lookup by exact Hinc.
      unfold subst_value. by rewrite decide_True.
  - apply uses_in_nil. intros x nd' Hx. rewrite Hnodes in Hx.
    apply fmap_Some in Hx as (nd & _ & ->).
    case_decide.
    + apply not_elem_of_redirect_other; [done|].
      by apply not_elem_of_redirect.
    + by apply not_elem_of_redirect.
  - eexists. split.
    + rewrite Hnodes, (Hold _ _ Ho). simpl. rewrite decide_False; [done|].
      by intros (_ & ? & _).
    + eapply list_elem_of_lookup_2. erewrite redirect_lookup by exact Hin.
      unfold subst_value. by rewrite decide_False.
  - intros u (nd' & Hu & Hmem). rewrite Hnodes in Hu.
    apply fmap_Some in Hu as (nd & _ & ->).
    case_decide as Hc.
    + by apply not_elem_of_redirect in Hmem.
    + destruct (decide (u = quant)) as [|Hn1]; [by auto|].
      destruct (decide (u = observer)) as [|Hn2]; [by auto|].
      destruct (decide (cq = Some u)) as [|Hn3]; [by auto|].
      destruct Hc. by repeat split.
  - intros u nd off Hu Huo Hoff.
    assert (u < g_next g) as Hult by (by apply Hwf in Hu).
    eexists. split.
    + rewrite Hnodes, (Hold _ _ Hu). simpl. rewrite decide_True; [done|].
      split; [lia|]. split; [done|].
      destruct cq as [c|]; [|done].
      destruct Hcq as (_ & Hc & _). simpl in Hc. intros [= ->]. lia.
    + destruct Hoff as [Hoff|Hoff].
      * erewrite redirect_lookup;
          [|erewrite redirect_lookup by exact Hoff; reflexivity].
        unfold subst_value. rewrite (decide_False (P := original_val = _))
          by done.
        by rewrite decide_True.
      * erewrite redirect_lookup;
          [|erewrite redirect_lookup by exact Hoff; reflexivity].
        unfold subst_value. rewrite (decide_True (P := (observer, 0) = _))
          by done.
        by rewrite decide_True.
Qed.

(** A form of [acyclic] that can be checked node by node. *)
Lemma acyclic_intro (g : Graph) (rank : NodeId → nat) :
  map_Forall (λ (n : NodeId) nd,
    Forall (λ u : Value, hitGraphInput g u = false → rank u.1 < rank n)
      (n_inputs nd)) (g_nodes g) →
  acyclic g rank.
Proof.
  intros H n nd u Hn Hu. apply H in Hn. simpl in Hn.
  rewrite Forall_forall in Hn. by apply Hn.
Qed.

(** ** Taking runs apart *)

Lemma bind_inv {S A B} (m : M S A) (k : A → M S B) (s : S) (r : B * S) :
  bind m k s = Ok r → ∃ a s', m s = Ok (a, s') ∧ k a s' = Ok r.
Proof.
  unfold bind. destruct (m s) as [[a s']|e]; [|done]. intros H. by exists a, s'.
Qed.

Lemma bind_cases {S A B} (m : M S A) (k : A → M S B) (s : S) :
  (∃ e, m s = Err e ∧ bind m k s = Err e) ∨
  (∃ a s', m s = Ok (a, s') ∧ bind m k s = k a s').
Proof.
  unfold bind. destruct (m s) as [[a s']|e]; [right|left]; eauto.
Qed.

Lemma check_inv {S} (b : bool) (e : Error) (s s' : S) (u : unit) :
  check b e s = Ok (u, s') → b = true ∧ s' = s.
Proof. destruct b; [|done]. by intros [= _ ->]. Qed.

Lemma lift_inv {S A} (r : Res A) (s s' : S) (a : A) :
  lift r s = Ok (a, s') → r = Ok a ∧ s' = s.
Proof. unfold lift. destruct r; [|done]. by intros [= -> ->]. Qed.

Lemma rbind_inv {A B} (r : Res A) (k : A → Res B) (b : B) :
  rbind r k = Ok b → ∃ a, r = Ok a ∧ k a = Ok b.
Proof. destruct r as [a|]; [|done]. simpl. eauto. Qed.

Lemma from_option_inv {A} (e : Error) (o : option A) (a : A) :
  from_option e o = Ok a → o = Some a.
Proof. destruct o; [|done]. by intros [= ->]. Qed.

Lemma get_node_inv (g g' : Graph) (n : NodeId) (nd : NodeData) :
  get_node n g = Ok (nd, g') → g' = g ∧ g_nodes g !! n = Some nd.
Proof.
  unfold get_node. destruct (g_nodes g !! n); [|done]. by intros [= -> ->].
Qed.

Lemma kind_inv (g g' : Graph) (n : NodeId) (k : NodeKind) :
  kind n g = Ok (k, g') →
  g' = g ∧ ∃ nd, g_nodes g !! n = Some nd ∧ n_kind nd = k.
Proof.
  intros H. apply bind_inv in H as (nd & g1 & H1 & H2).
  apply get_node_inv in H1 as [-> H1]. injection H2 as <- <-. eauto.
Qed.

Lemma inputs_inv (g g' : Graph) (n : NodeId) (ins : list Value) :
  inputs n g = Ok (ins, g') →
  g' = g ∧ ∃ nd, g_nodes g !! n = Some nd ∧ n_inputs nd = ins.
Proof.
  intros H. apply bind_inv in H as (nd & g1 & H1 & H2).
  apply get_node_inv in H1 as [-> H1]. injection H2 as <- <-. eauto.
Qed.

Lemma input_inv (g g' : Graph) (n : NodeId) (i : nat) (v : Value) :
  input n i g = Ok (v, g') →
  g' = g ∧ ∃ nd, g_nodes g !! n = Some nd ∧ n_inputs nd !! i = Some v.
Proof.
  intros H. apply bind_inv in H as (nd & g1 & H1 & H2).
  apply get_node_inv in H1 as [-> H1]. apply lift_inv in H2 as [H2 ->].
  split; [done|]. exists nd. split; [done|].
  by apply from_option_inv in H2.
Qed.

Lemma output_inv (g g' : Graph) (n : NodeId) (v : Value) :
  output n g = Ok (v, g') →
  g' = g ∧ v = (n, 0) ∧
  ∃ nd, g_nodes g !! n = Some nd ∧ length (n_outputs nd) = 1.
Proof.
  intros H. apply bind_inv in H as (nd & g1 & H1 & H2).
  apply get_node_inv in H1 as [-> H1].
  apply bind_inv in H2 as (u & g2 & H2 & H3).
  apply check_inv in H2 as [H2 ->]. apply bool_decide_eq_true in H2.
  injection H3 as <- <-. eauto.
Qed.

Lemma value_meta_inv (g g' : Graph) (v : Value) (m : OutMeta) :
  value_meta v g = Ok (m, g') → g' = g.
Proof.
  intros H. apply bind_inv in H as (nd & g1 & H1 & H2).
  apply get_node_inv in H1 as [-> H1]. by apply lift_inv in H2 as [_ ->].
Qed.

Lemma WithInsertPoint_inv {A} (g g' : Graph) (n : NodeId) (body : M Graph A)
    (a : A) :
  WithInsertPoint n body g = Ok (a, g') →
  ∃ g1, body (set_insert_before n g) = Ok (a, g1) ∧
        g' = set_insert_before (g_insert_before g) g1.
Proof.
  intros H. apply bind_inv in H as (g0 & s0 & [= <- <-] & H2).
  apply bind_inv in H2 as (u & s1 & H1 & H3).
  apply check_inv in H1 as [_ ->].
  apply bind_inv in H3 as (u' & s2 & Hs2 & H4).
  injection Hs2 as <-.
  apply bind_inv in H4 as (r & s3 & Hb & H5).
  apply bind_inv in H5 as (u'' & s4 & Hs4 & Hr).
  injection Hs4 as <-. injection Hr as <- <-. subst.
  by exists s3.
Qed.

Lemma for_each_inv {S A} (R : S → S → Prop) (f : A → M S unit) (l : list A) :
  (∀ s, R s s) →
  (∀ s1 s2 s3, R s1 s2 → R s2 s3 → R s1 s3) →
  (∀ x s s' u, x ∈ l → f x s = Ok (u, s') → R s s') →
  ∀ s s' u, for_each l f s = Ok (u, s') → R s s'.
Proof.
  intros Hrefl Htrans. induction l as [|x l IH]; intros Hf s s' u H.
  - injection H as <- <-. apply Hrefl.
  - apply bind_inv in H as (u1 & s1 & H1 & H2).
    eapply Htrans.
    + eapply Hf; [left|exact H1].
    + eapply IH; [|exact H2]. intros y t t' u' Hy. apply Hf. by right.
Qed.

Lemma filter_m_inv {S A} (f : A → M S bool) (l l' : list A) (s s' : S) :
  (∀ x t t' b, f x t = Ok (b, t') → t' = t) →
  filter_m f l s = Ok (l', s') →
  s' = s ∧ ∀ x, x ∈ l → f x s = Ok (true, s) → x ∈ l'.
Proof.
  intros Hpure. revert l' s'. induction l as [|y l IH]; intros l' s' H.
  - injection H as <- <-. split; [done|]. intros x Hx.
    by apply elem_of_nil in Hx.
  - simpl in H. apply bind_inv in H as (b & s1 & H1 & H3).
    pose proof (Hpure _ _ _ _ H1) as ->.
    apply bind_inv in H3 as (rest & s2 & H2 & H4).
    apply IH in H2 as [-> Hrest]. split; [by destruct b; injection H4|].
    intros x Hx Hfx. apply elem_of_cons in Hx as [->|Hx].
    + rewrite Hfx in H1. injection H1 as <-. injection H4 as <- _. left.
    + specialize (Hrest x Hx Hfx).
      destruct b; injection H4 as <- _; [by right|done].
Qed.

(** ** Conditional quantize replication *)

Lemma quantizes_multi_output_ext (g g' : Graph) (n : NodeId) (v0 : Value) :
  g_nodes g' = g_nodes g → g_next g' = g_next g →
  quantizes_multi_output g n v0 → quantizes_multi_output g' n v0.
Proof.
  intros Hn Hx (Hwf & H). unfold quantizes_multi_output, wf_next.
  by rewrite Hn, Hx.
Qed.

Lemma quantizes_multi_output_alter (g : Graph) (n x : NodeId) (v0 : Value)
    (f : NodeData → NodeData) :
  (∀ nd, length (n_outputs (f nd)) = length (n_outputs nd)) →
  (x = n → ∀ nd, n_inputs (f nd) = n_inputs nd) →
  quantizes_multi_output g n v0 →
  quantizes_multi_output (set_nodes (alter f x) g) n v0.
Proof.
  intros Hout Hin (Hwf & nd & ndif & Hnd & H0 & Hlen & Hif & Hlif). split.
  - intros i y Hy. simpl in Hy.
    destruct (decide (i = x)) as [->|Hne].
    + rewrite lookup_alter_eq in Hy. apply fmap_Some in Hy as (y' & Hy' & _).
      by apply Hwf in Hy'.
    + rewrite lookup_alter_ne in Hy by done. by apply Hwf in Hy.
  - assert (∀ (i : NodeId) (y : NodeData), g_nodes g !! i = Some y →
              g_nodes (set_nodes (alter f x) g) !! i
              = Some (if decide (i = x) then f y else y)) as Hlook.
    { intros i y Hy. simpl. case_decide as Hd.
      - subst i. by rewrite lookup_alter_eq, Hy.
      - by rewrite lookup_alter_ne. }
    eexists _, _. split; [by apply Hlook|].
    split; [|split; [|split; [by apply Hlook|]]].
    + case_decide as Hd; [|done]. by rewrite Hin.
    + case_decide as Hd; [|done]. by rewrite Hin.
    + case_decide; [|done]. by rewrite Hout.
Qed.

Lemma quantizes_multi_output_create (g : Graph) (n : NodeId) (v0 : Value)
    (nd' : NodeData) (b : Block) (ib : NodeId) :
  quantizes_multi_output g n v0 →
  quantizes_multi_output
    (mkGraph (<[g_next g := nd']> (g_nodes g)) b (S (g_next g)) ib) n v0.
Proof.
  intros (Hwf & nd & ndif & Hnd & H0 & Hlen & Hif & Hlif).
  pose proof (wf_next_fresh g Hwf) as Hfresh. split.
  - intros i y Hy. simpl in *.
    apply lookup_insert_Some in Hy as [[<- _]|[_ Hy]]; [lia|].
    apply Hwf in Hy. simpl in Hy. lia.
  - exists nd, ndif. simpl.
    rewrite !lookup_insert_ne by (intros E; congruence). done.
Qed.

Lemma quantizes_multi_output_redirect (g : Graph) (n : NodeId)
    (v0 from to : Value) :
  from ≠ v0 →
  quantizes_multi_output g n v0 →
  quantizes_multi_output
    (set_nodes (fmap (λ nd,
       with_inputs (map (subst_value from to) (n_inputs nd)) nd)) g) n v0.
Proof.
  intros Hne (Hwf & nd & ndif & Hnd & H0 & Hlen & Hif & Hlif). split.
  - intros i y Hy. simpl in Hy. rewrite lookup_fmap in Hy.
    apply fmap_Some in Hy as (y' & Hy' & _). by apply Hwf in Hy'.
  - eexists _, _. simpl. rewrite !lookup_fmap, Hnd, Hif. simpl.
    split; [done|]. simpl. rewrite list_lookup_fmap, H0, length_map. simpl.
    unfold subst_value. by rewrite decide_False by done.
Qed.

Lemma moveBefore_inv (g g' : Graph) (x target : NodeId) (u : unit) :
  moveBefore x target g = Ok (u, g') →
  g_nodes g' = g_nodes g ∧ g_next g' = g_next g.
Proof.
  intros H. apply bind_inv in H as (g0 & s0 & Hg & H1).
  injection Hg as <- <-.
  apply bind_inv in H1 as (it & s1 & Hit & H2).
  apply lift_inv in Hit as [_ ->].
  apply bind_inv in H2 as (u1 & s2 & Hs2 & H3). injection Hs2 as <-.
  apply bind_inv in H3 as (g1 & s3 & Hg1 & H4). injection Hg1 as <- <-.
  apply bind_inv in H4 as (u2 & s4 & Hc & H5).
  apply check_inv in Hc as [_ ->]. injection H5 as <-. by subst.
Qed.

Lemma hoist_params_inv (g g' : Graph) (n if_node : NodeId) (l : list nat)
    (u : unit) :
  for_each l (λ i, v <- input n i ;; moveBefore v.1 if_node) g = Ok (u, g') →
  g_nodes g' = g_nodes g ∧ g_next g' = g_next g.
Proof.
  apply (for_each_inv
           (λ s s', g_nodes s' = g_nodes s ∧ g_next s' = g_next s)).
  - done.
  - intros s1 s2 s3 [? ?] [? ?]. split; congruence.
  - intros i s s' u' _ H. apply bind_inv in H as (v & s1 & Hv & Hm).
    apply input_inv in Hv as [-> _]. by apply moveBefore_inv in Hm.
Qed.

(** The body of the loop over the branches, and the body of the loop over
    the quantize nodes to rewrite. *)
Local Abbreviation quantize_branch n :=
  (λ if_block : Block,
     outs <- block_outputs if_block ;;
     check (bool_decide (length outs = 1)) IfOutputsNotOne ;;
     ret_val <- lift (from_option (OutOfRange "outputs") (outs !! 0)) ;;
     quantize_inputs <- inputs n ;;
     let quantize_inputs := <[0 := ret_val]> quantize_inputs in
     WithInsertPoint (b_return if_block) (
       k <- kind n ;;
       quant <- create k quantize_inputs 1 ;;
       quant_out <- output quant ;;
       replaceInput (b_return if_block) 0 quant_out ;;
       m <- value_meta ret_val ;;
       set_meta quant_out (λ _, m) ;;
       insertNode quant ;;
       ret tt)).

Local Abbreviation rewrite_quant :=
  (λ n : NodeId,
     in0 <- input n 0 ;;
     let if_node := in0.1 in
     ins <- inputs n ;;
     for_each (seq 1 (length ins - 1)) (λ i,
       v <- input n i ;;
       moveBefore v.1 if_node) ;;
     out <- output n ;;
     if_out <- output if_node ;;
     replaceAllUsesWith out if_out ;;
     if_blocks <- blocks if_node ;;
     for_each if_blocks (quantize_branch n)).

Local Ltac ok_inj H := injection H; clear H; intros; subst.

Lemma quantize_branch_keeps (g g' : Graph) (n m : NodeId) (v0 : Value)
    (if_block : Block) (u : unit) :
  quantizes_multi_output g n v0 →
  quantize_branch m if_block g = Ok (u, g') →
  quantizes_multi_output g' n v0.
Proof.
  intros Hinv H.
  apply bind_inv in H as (outs & s1 & Houts & H1).
  apply inputs_inv in Houts as (-> & ndr & Hndr & Hins).
  apply bind_inv in H1 as (u1 & s2 & Hc & H2).
  apply check_inv in Hc as [Hlen ->]. apply bool_decide_eq_true in Hlen.
  apply bind_inv in H2 as (ret_val & s3 & Hl & H3).
  apply lift_inv in Hl as [_ ->].
  apply bind_inv in H3 as (qi & s4 & Hqi & H4).
  apply inputs_inv in Hqi as (-> & _).
  apply WithInsertPoint_inv in H4 as (g1 & Hbody & ->).
  apply (quantizes_multi_output_ext g1); [done|done|].
  apply bind_inv in Hbody as (k & s5 & Hk & H5).
  apply kind_inv in Hk as (-> & _).
  apply bind_inv in H5 as (quant & s6 & Hcr & H6).
  ok_inj Hcr.
  apply bind_inv in H6 as (quant_out & s7 & Hqo & H7).
  apply output_inv in Hqo as (-> & -> & _).
  apply bind_inv in H7 as (u2 & s8 & Hri & H8).
  apply bind_inv in Hri as (ndr' & s9 & Hndr' & Hri).
  apply get_node_inv in Hndr' as (-> & Hndr').
  apply bind_inv in Hri as (u3 & s10 & Hc2 & Hri).
  apply check_inv in Hc2 as (_ & ->). ok_inj Hri.
  apply bind_inv in H8 as (meta & s11 & Hm & H9).
  apply value_meta_inv in Hm as ->.
  apply bind_inv in H9 as (u4 & s12 & Hsm & H10). ok_inj Hsm.
  apply bind_inv in H10 as (q' & s13 & Hin & H11). ok_inj H11.
  apply bind_inv in Hin as (g2 & s14 & Hg2 & Hin). ok_inj Hg2.
  apply bind_inv in Hin as (u5 & s15 & Hc3 & Hin).
  apply check_inv in Hc3 as (_ & ->).
  apply bind_inv in Hin as (u6 & s16 & Hmod & Hin).
  ok_inj Hmod. ok_inj Hin.
  match goal with
  | |- quantizes_multi_output (set_block _ ?s) _ _ =>
      apply (quantizes_multi_output_ext s); [done|done|]
  end.
  apply quantizes_multi_output_alter;
    [by intros; simpl; rewrite length_alter|done|].
  apply quantizes_multi_output_alter; [done| |].
  - intros Heq nd0. exfalso.
    destruct Hinv as (Hwf & nd & ndif & Hnd & _ & Hlen1 & _).
    simpl in Hndr. rewrite Heq, Hnd in Hndr. injection Hndr as <-.
    lia.
  - by apply quantizes_multi_output_create.
Qed.

Lemma blocks_inv (g g' : Graph) (n : NodeId) (bs : list Block) :
  blocks n g = Ok (bs, g') → g' = g.
Proof.
  unfold blocks. by destruct (find_item n (g_block g)); intros [= _ ->].
Qed.

Lemma rewrite_quant_keeps (g g' : Graph) (n m : NodeId) (v0 : Value)
    (u : unit) :
  quantizes_multi_output g n v0 →
  rewrite_quant m g = Ok (u, g') →
  quantizes_multi_output g' n v0.
Proof.
  intros Hinv H.
  apply bind_inv in H as (in0 & s1 & Hin0 & H1).
  apply input_inv in Hin0 as (-> & _).
  apply bind_inv in H1 as (ins & s2 & Hins & H2).
  apply inputs_inv in Hins as (-> & _).
  apply bind_inv in H2 as (u1 & s3 & Hmv & H3).
  apply hoist_params_inv in Hmv as [Hn Hx].
  apply (quantizes_multi_output_ext _ s3 n v0 Hn Hx) in Hinv.
  apply bind_inv in H3 as (out & s4 & Hout & H4).
  apply output_inv in Hout as (-> & -> & ndm & Hndm & Hone).
  apply bind_inv in H4 as (if_out & s5 & Hif & H5).
  apply output_inv in Hif as (-> & _).
  apply bind_inv in H5 as (u2 & s6 & Hr & H6). ok_inj Hr.
  apply bind_inv in H6 as (bs & s7 & Hbs & H7).
  apply blocks_inv in Hbs as ->.
  refine (for_each_inv
            (λ s s', quantizes_multi_output s n v0 →
                     quantizes_multi_output s' n v0)
            (quantize_branch m) bs _ _ _ _ _ _ H7 _); [done|by auto| |].
  - intros b s s' u' _ Hb Hs. by eapply quantize_branch_keeps.
  - apply quantizes_multi_output_redirect; [|done].
    intros E. destruct Hinv as (_ & nd & ndif & _ & _ & _ & Hif & Hlif).
    rewrite <- E in Hif. simpl in Hif. rewrite Hndm in Hif.
    injection Hif as <-. lia.
Qed.

Lemma rewrite_quant_fails (g : Graph) (n : NodeId) (v0 : Value) :
  quantizes_multi_output g n v0 → ∃ e, rewrite_quant n g = Err e.
Proof.
  intros Hinv.
  pose proof Hinv as (_ & nd & ndif & Hnd & H0 & _).
  cbv beta. erewrite bind_ok by (by eapply input_ok).
  erewrite bind_ok by (by eapply inputs_ok).
  match goal with
  | |- ∃ e, bind ?m ?k ?s = _ =>
      destruct (bind_cases m k s) as [(e & _ & ->)|(u & s3 & Hmv & ->)];
        [by exists e|]
  end.
  apply hoist_params_inv in Hmv as [Hn Hx].
  apply (quantizes_multi_output_ext _ s3 n v0 Hn Hx) in Hinv.
  match goal with
  | |- ∃ e, bind ?m ?k ?s = _ =>
      destruct (bind_cases m k s) as [(e & _ & ->)|(out & s4 & Hout & ->)];
        [by exists e|]
  end.
  apply output_inv in Hout as (-> & -> & _).
  destruct Hinv as (_ & _ & ndif' & _ & _ & _ & Hif & Hlif).
  eexists. apply bind_err. unfold output.
  erewrite bind_ok by (by apply get_node_ok).
  rewrite bool_decide_eq_false_2 by lia. reflexivity.
Qed.

Lemma rewrite_quants_fail (L : list NodeId) (g : Graph) (n : NodeId)
    (v0 : Value) :
  n ∈ L → quantizes_multi_output g n v0 →
  ∃ e, for_each L rewrite_quant g = Err e.
Proof.
  revert g. induction L as [|m L IH]; intros g Hin Hinv.
  - by apply elem_of_nil in Hin.
  - simpl.
    match goal with
    | |- ∃ e, bind ?c ?k ?s = _ =>
        destruct (bind_cases c k s) as [(e & _ & ->)|(u & s1 & Hm & ->)];
          [by exists e|]
    end.
    apply elem_of_cons in Hin as [->|Hin].
    + destruct (rewrite_quant_fails g m v0 Hinv) as [e He].
      assert (Ok (u, s1) = Err e) as Habs by (rewrite <- Hm; exact He).
      discriminate Habs.
    + apply (IH s1 Hin). by eapply rewrite_quant_keeps.
Qed.

(** C3 (amended): when a quantize node of the graph reads, in its first
    slot, an output of a [prim::If] node that has more than one output,
    [ReplicateQuant] does not skip the conditional: the pass stops with an
    error. *)
Theorem ReplicateQuant_multi_output_if_fails (g : Graph) (n : NodeId)
    (nd ndif : NodeData) (v0 : Value) :
  wf_next g →
  n ∈ graph_nodes g →
  g_nodes g !! n = Some nd →
  n_kind nd = Aten "quantize_per_tensor" ∨
  n_kind nd = Aten "quantize_per_channel" →
  n_inputs nd !! 0 = Some v0 →
  1 < length (n_inputs nd) →
  g_nodes g !! v0.1 = Some ndif →
  n_kind ndif = Prim "If" →
  1 < length (n_outputs ndif) →
  ∃ e, ReplicateQuant g = Err e.
Proof.
  intros Hwf Hn Hnd Hk H0 Hlen Hif Hkif Hlif. unfold ReplicateQuant.
  erewrite bind_ok by reflexivity.
  match goal with
  | |- ∃ e, bind ?c ?k ?s = _ =>
      destruct (bind_cases c k s) as [(e & _ & ->)|(L & s1 & HL & ->)];
        [by exists e|]
  end.
  apply filter_m_inv in HL as [-> HL].
  2:{ intros x t t' b H. apply bind_inv in H as (k & t1 & Hk1 & H1).
      apply kind_inv in Hk1 as (-> & _).
      destruct (_ || _); [|by injection H1].
      apply bind_inv in H1 as (in0 & t2 & Hi & H2).
      apply input_inv in Hi as (-> & _).
      apply bind_inv in H2 as (pk & t3 & Hpk & H3).
      apply kind_inv in Hpk as (-> & _). by injection H3. }
  assert (n ∈ L) as HnL.
  { apply HL; [done|].
    erewrite bind_ok by (by eapply kind_ok).
    replace (bool_decide (n_kind nd = Aten "quantize_per_tensor") ||
             bool_decide (n_kind nd = Aten "quantize_per_channel"))
      with true.
    2:{ symmetry. apply orb_true_iff.
        destruct Hk; [left|right]; by apply bool_decide_eq_true. }
    erewrite bind_ok by (by eapply input_ok).
    erewrite bind_ok by (by eapply kind_ok).
    by rewrite bool_decide_eq_true_2. }
  destruct (rewrite_quants_fail L g n v0 HnL) as [e He].
  { split; [done|]. by exists nd, ndif. }
  exists e. by apply bind_err.
Qed.

(** ** Reprocessing a recorded graph *)

Lemma in_world_inv {A} (m : M World A) (st st' : State) (a : A) :
  in_world m st = Ok (a, st') →
  ∃ w', m (world st) = Ok (a, w') ∧ st' = mkState w' (helper st).
Proof.
  unfold in_world. destruct (m (world st)) as [[a' w']|]; [|done].
  intros H. ok_inj H. by exists w'.
Qed.

Lemma in_helper_inv {A} (m : M Helper A) (st st' : State) (a : A) :
  in_helper m st = Ok (a, st') →
  ∃ h', m (helper st) = Ok (a, h') ∧ st' = mkState (world st) h'.
Proof.
  unfold in_helper. destruct (m (helper st)) as [[a' h']|]; [|done].
  intros H. ok_inj H. by exists h'.
Qed.

Lemma in_graph_inv {A} (gid : GraphId) (m : M Graph A) (w w' : World) (a : A) :
  in_graph gid m w = Ok (a, w') →
  ∃ g g', w_graphs w !! gid = Some g ∧ m g = Ok (a, g') ∧
          w' = set_graphs <[gid := g']> w.
Proof.
  unfold in_graph, get_graph, rbind.
  destruct (w_graphs w !! gid) as [g|]; [|done]. simpl.
  destruct (m g) as [[a' g']|] eqn:E; [|done]. intros H. ok_inj H.
  eexists _, _. split; [reflexivity|]. split; [exact E|reflexivity].
Qed.

Lemma gets_inv {S A} (f : S → A) (s s' : S) (a : A) :
  gets f s = Ok (a, s') → a = f s ∧ s' = s.
Proof. intros H. by ok_inj H. Qed.

Lemma the_graph_inv (g : GraphId) (st st' : State) (gr : Graph) :
  the_graph g st = Ok (gr, st') →
  st' = st ∧ w_graphs (world st) !! g = Some gr.
Proof.
  unfold the_graph. intros H. apply in_world_inv in H as (w' & H & ->).
  unfold get_graph, rbind in H. simpl in H.
  destruct (w_graphs (world st) !! g) as [gr'|]; [|done].
  ok_inj H. by destruct st.
Qed.

Lemma map_m_inv {S A B} (R : S → S → Prop) (f : A → M S B) (l : list A) :
  (∀ s, R s s) →
  (∀ s1 s2 s3, R s1 s2 → R s2 s3 → R s1 s3) →
  (∀ x s s' b, x ∈ l → f x s = Ok (b, s') → R s s') →
  ∀ s s' bs, map_m f l s = Ok (bs, s') → R s s'.
Proof.
  intros Hrefl Htrans. induction l as [|x l IH]; intros Hf s s' bs H.
  - ok_inj H. apply Hrefl.
  - simpl in H. apply bind_inv in H as (b & s1 & H1 & H2).
    apply bind_inv in H2 as (bs' & s2 & H2 & H3). ok_inj H3.
    eapply Htrans.
    + eapply Hf; [left|exact H1].
    + eapply IH; [|exact H2]. intros y t t' u' Hy. apply Hf. by right.
Qed.

Lemma same_methods_refl (w : World) : same_methods w w.
Proof. done. Qed.

Lemma same_methods_trans (w1 w2 w3 : World) :
  same_methods w1 w2 → same_methods w2 w3 → same_methods w1 w3.
Proof. intros H1 H2 m name. by rewrite H2, H1. Qed.

Lemma touches_only_refl (g : GraphId) (st : State) : touches_only g st st.
Proof. by split. Qed.

Lemma touches_only_trans (g : GraphId) (s1 s2 s3 : State) :
  touches_only g s1 s2 → touches_only g s2 s3 → touches_only g s1 s3.
Proof.
  intros (M1 & R1 & G1) (M2 & R2 & G2).
  split; [by eapply same_methods_trans|]. split; [by auto|].
  intros i Hi. by rewrite G2, G1.
Qed.

Lemma keeps_recorded_graphs_refl (st : State) : keeps_recorded_graphs st st.
Proof. split; [done|]. by intros g Hg. Qed.

Lemma keeps_recorded_graphs_trans (s1 s2 s3 : State) :
  keeps_recorded_graphs s1 s2 → keeps_recorded_graphs s2 s3 →
  keeps_recorded_graphs s1 s3.
Proof.
  intros [M1 H1] [M2 H2]. split; [by eapply same_methods_trans|].
  intros g Hg. destruct (H1 g Hg) as [Hg2 E1].
  destruct (H2 g Hg2) as [Hg3 E2]. split; [done|]. by rewrite E2, E1.
Qed.

Lemma touches_only_keeps (g : GraphId) (st st' : State) :
  ¬ recorded st g → touches_only g st st' → keeps_recorded_graphs st st'.
Proof.
  intros Hnot (Hm & Hrec & Hg). split; [done|].
  intros i Hi. split; [by apply Hrec|].
  apply Hg. by intros ->.
Qed.

Lemma recorded_push_back (h : Helper) (g i : GraphId) (n : NodeId) :
  is_Some (observer_nodes_for_graph_ h !! i) →
  is_Some (push_back g n (observer_nodes_for_graph_ h) !! i).
Proof.
  intros Hi. unfold push_back.
  destruct (decide (i = g)) as [->|Hne].
  - rewrite lookup_insert_eq. eauto.
  - by rewrite lookup_insert_ne.
Qed.

Lemma setAttr_graphs (m : ObjId) (name : string) (v : IValue) (w w' : World)
    (u : unit) :
  setAttr m name v w = Ok (u, w') →
  w_graphs w' = w_graphs w ∧ same_methods w w'.
Proof.
  unfold setAttr, rbind, get_class, rbind, get_object.
  destruct (w_objects w !! m) as [o|] eqn:Ho; [|done]. simpl.
  destruct (w_types w !! obj_type o) as [c|]; [|done]. simpl.
  case_bool_decide; [|done]. intros Hok. ok_inj Hok. split; [done|].
  intros m' nm. unfold method_graph, get_class, rbind, get_object. simpl.
  destruct (decide (m' = m)) as [->|Hne].
  - by rewrite lookup_insert_eq, Ho.
  - by rewrite lookup_insert_ne.
Qed.

Lemma register_attribute_graphs (m : ObjId) (name : string) (v : IValue)
    (w w' : World) (u : unit) :
  register_attribute m name v w = Ok (u, w') →
  w_graphs w' = w_graphs w ∧ same_methods w w'.
Proof.
  unfold register_attribute, rbind, get_class, rbind, get_object.
  destruct (w_objects w !! m) as [o|] eqn:Ho; [|done]. simpl.
  destruct (w_types w !! obj_type o) as [c|] eqn:Hc; [|done]. simpl.
  intros H. apply setAttr_graphs in H as [Hg Hm]. split; [done|].
  eapply same_methods_trans; [|exact Hm].
  intros m' nm. unfold method_graph, get_class, rbind, get_object. simpl.
  destruct (w_objects w !! m') as [o'|]; [|done]. simpl.
  destruct (decide (obj_type o' = obj_type o)) as [E|Hne].
  - rewrite E, lookup_insert_eq, Hc. simpl. by case_bool_decide.
  - by rewrite lookup_insert_ne.
Qed.

Lemma checkQScheme_recorded (g : GraphId) (qscheme : QScheme) (h h' : Helper)
    (u : unit) :
  checkQScheme g qscheme h = Ok (u, h') →
  observer_nodes_for_graph_ h' = observer_nodes_for_graph_ h.
Proof.
  intros H. apply bind_inv in H as (h0 & s0 & Hg & H1). ok_inj Hg.
  destruct (qscheme_for_graph_ h0 !! g).
  - by apply check_inv in H1 as [_ ->].
  - by ok_inj H1.
Qed.

Lemma collectObserverNodesAndValueToQuantize_touches (module : ObjId)
    (g g0 : GraphId) (v : Value) (st st' : State) (u : unit) :
  collectObserverNodesAndValueToQuantize module g v st = Ok (u, st') →
  touches_only g0 st st'.
Proof.
  intros H. apply bind_inv in H as (gr & s1 & Hgr & H1).
  apply the_graph_inv in Hgr as [-> _].
  apply bind_inv in H1 as (name & s2 & Hn & H2).
  apply lift_inv in Hn as [_ ->].
  destruct name as [name|]; [|ok_inj H2; apply touches_only_refl].
  apply bind_inv in H2 as (u1 & s3 & Hh & H3).
  apply in_helper_inv in Hh as (h1 & Hh & ->). ok_inj Hh.
  apply bind_inv in H3 as (mi & s4 & Hmi & H4).
  apply lift_inv in Hmi as [_ ->].
  apply bind_inv in H4 as (ok & s5 & Hok & H5).
  apply lift_inv in Hok as [_ ->].
  apply bind_inv in H5 as (u2 & s6 & Hc & H6).
  apply check_inv in Hc as [_ ->].
  apply in_helper_inv in H6 as (h2 & Hh & ->).
  apply bind_inv in Hh as (u3 & h3 & Hm1 & Hh). ok_inj Hm1.
  apply bind_inv in Hh as (u4 & h4 & Hm2 & Hh). ok_inj Hm2. ok_inj Hh.
  split; [done|]. split; [|done]. intros i Hi. unfold recorded in *.
  simpl in *. by apply recorded_push_back.
Qed.

Lemma quantizeTensors_touches (fuel : nat) (module : ObjId) (g : GraphId)
    (self : Value) (st st' : State) (u : unit) :
  quantizeTensors fuel module g self st = Ok (u, st') →
  touches_only g st st'.
Proof.
  intros H. apply bind_inv in H as (h & s0 & Hh & H1).
  apply in_helper_inv in Hh as (h0 & Hh & ->). ok_inj Hh.
  assert (∀ st1, touches_only g st1
            {| world := world st1; helper := helper st1 |}) as Heta.
  { intros st1. by split. }
  destruct (observer_nodes_for_graph_ (helper st) !! g) as [observers|].
  2:{ ok_inj H1. apply Heta. }
  eapply touches_only_trans; [apply Heta|].
  revert H1.
  apply (for_each_inv (touches_only g));
    [apply touches_only_refl|apply touches_only_trans|].
  clear. intros n st st' u _ H.
  apply bind_inv in H as (gr & s1 & Hgr & H1).
  apply the_graph_inv in Hgr as [-> _].
  apply bind_inv in H1 as (ov & s2 & Hov & H2).
  apply lift_inv in Hov as [_ ->].
  apply bind_inv in H2 as (w & s3 & Hw & H3).
  apply gets_inv in Hw as [-> ->].
  apply bind_inv in H3 as (tp & s4 & Htp & H4).
  apply lift_inv in Htp as [_ ->].
  apply bind_inv in H4 as (u1 & s5 & Hq & H5).
  apply in_helper_inv in Hq as (h1 & Hq & ->).
  apply checkQScheme_recorded in Hq.
  apply bind_inv in H5 as (base & s6 & Hb & H6).
  apply lift_inv in Hb as [_ ->].
  apply bind_inv in H6 as (names & s7 & Hnames & H7).
  apply bind_inv in H7 as (h2 & s8 & Hh2 & H8).
  apply in_helper_inv in Hh2 as (h3 & Hh2 & ->). ok_inj Hh2.
  apply bind_inv in H8 as (w2 & s9 & Hw2 & H9).
  apply gets_inv in Hw2 as [-> ->].
  apply in_world_inv in H9 as (w3 & H9 & ->).
  apply in_graph_inv in H9 as (g1 & g2 & Hg1 & _ & ->).
  assert (touches_only g st {| world := world st; helper := h1 |}) as T1.
  { split; [done|]. split; [|done].
    intros i. unfold recorded. simpl. by rewrite Hq. }
  assert (touches_only g {| world := world st; helper := h1 |} s7) as T2.
  { revert Hnames.
    apply (map_m_inv (touches_only g));
      [apply touches_only_refl|apply touches_only_trans|].
    clear. intros pr st st' b _ H.
    apply bind_inv in H as (w & s1 & Hw & H1).
    apply gets_inv in Hw as [-> ->].
    apply bind_inv in H1 as (c & s2 & Hc & H2).
    apply lift_inv in Hc as [_ ->].
    apply bind_inv in H2 as (u1 & s3 & Hh & H3).
    apply in_helper_inv in Hh as (h1 & Hh & ->). ok_inj Hh.
    apply bind_inv in H3 as (u2 & s4 & Hr & H4). ok_inj H4.
    apply in_world_inv in Hr as (w' & Hr & ->).
    apply register_attribute_graphs in Hr as [Hr Hm]. simpl in Hr, Hm.
    split; [done|]. split; [done|]. intros i _. simpl. by rewrite Hr. }
  eapply touches_only_trans; [exact T1|].
  eapply touches_only_trans; [exact T2|].
  split; [done|]. split; [done|].
  intros i Hi. simpl. by rewrite lookup_insert_ne.
Qed.

Lemma reregister_graphs (module : ObjId) (g : GraphId)
    (observers : list NodeId) (st st' : State) (u : unit) :
  reregister module g observers st = Ok (u, st') →
  w_graphs (world st') = w_graphs (world st) ∧
  same_methods (world st) (world st') ∧
  observer_nodes_for_graph_ (helper st')
  = observer_nodes_for_graph_ (helper st).
Proof.
  apply (for_each_inv
           (λ s s', w_graphs (world s') = w_graphs (world s) ∧
                    same_methods (world s) (world s') ∧
                    observer_nodes_for_graph_ (helper s')
                    = observer_nodes_for_graph_ (helper s))).
  - done.
  - intros s1 s2 s3 (? & ? & ?) (? & ? & ?).
    split; [congruence|]. split; [by eapply same_methods_trans|congruence].
  - clear. intros n st st' u _ H.
    apply bind_inv in H as (gr & s1 & Hgr & H1).
    apply the_graph_inv in Hgr as [-> _].
    apply bind_inv in H1 as (w & s3 & Hw & H3).
    apply gets_inv in Hw as [-> ->].
    apply bind_inv in H3 as (tp & s4 & Htp & H4).
    apply lift_inv in Htp as [_ ->].
    apply bind_inv in H4 as (u1 & s5 & Hq & H5).
    apply in_helper_inv in Hq as (h1 & Hq & ->).
    apply checkQScheme_recorded in Hq.
    apply bind_inv in H5 as (h2 & s6 & Hh2 & H6).
    apply in_helper_inv in Hh2 as (h3 & Hh2 & ->). ok_inj Hh2.
    apply bind_inv in H6 as (names & s7 & Hn & H7).
    apply lift_inv in Hn as [_ ->]. simpl in H7.
    revert H7.
    match goal with
    | |- for_each _ _ ?s = _ → _ =>
        assert (w_graphs (world s) = w_graphs (world st) ∧
                world s = world st ∧
                observer_nodes_for_graph_ (helper s)
                = observer_nodes_for_graph_ (helper st)) as (E1 & E0 & E2)
          by done
    end.
    rewrite <- E1, <- E2, <- E0.
    apply (for_each_inv
             (λ s s', w_graphs (world s') = w_graphs (world s) ∧
                      same_methods (world s) (world s') ∧
                      observer_nodes_for_graph_ (helper s')
                      = observer_nodes_for_graph_ (helper s))).
    + done.
    + intros s1 s2 s3 (? & ? & ?) (? & ? & ?).
      split; [congruence|]. split; [by eapply same_methods_trans|congruence].
    + clear. intros pr st st' u _ H.
      apply bind_inv in H as (an & s1 & Han & H1).
      apply lift_inv in Han as [_ ->].
      apply in_world_inv in H1 as (w' & H1 & ->).
      apply setAttr_graphs in H1 as [? ?]. by split.
Qed.

Lemma resets_only_refl (module : ObjId) (allowed : string → Prop) (w : World) :
  resets_only module allowed w w.
Proof.
  split; [done|]. split; [done|]. intros m. split; [done|]. split; [done|].
  intros o Ho. by exists o.
Qed.

Lemma resets_only_trans (module : ObjId) (allowed : string → Prop)
    (w1 w2 w3 : World) :
  resets_only module allowed w1 w2 → resets_only module allowed w2 w3 →
  resets_only module allowed w1 w3.
Proof.
  intros (G1 & T1 & O1) (G2 & T2 & O2).
  split; [congruence|]. split; [congruence|]. intros m.
  destruct (O1 m) as (N1 & E1 & S1). destruct (O2 m) as (N2 & E2 & S2).
  split; [intros Hm; by rewrite N2, N1|]. split; [by auto|].
  intros o Ho. destruct (S1 o Ho) as (o2 & Ho2 & Ht2 & Ha2).
  destruct (S2 o2 Ho2) as (o3 & Ho3 & Ht3 & Ha3).
  exists o3. split; [done|]. split; [congruence|].
  intros a Ha. by rewrite Ha3, Ha2.
Qed.

Lemma setAttr_resets (module : ObjId) (allowed : string → Prop)
    (name : string) (v : IValue) (w w' : World) (u : unit) :
  allowed name →
  setAttr module name v w = Ok (u, w') →
  resets_only module allowed w w'.
Proof.
  intros Hal. unfold setAttr, rbind, get_class, rbind, get_object.
  destruct (w_objects w !! module) as [o|] eqn:Ho; [|done]. simpl.
  destruct (w_types w !! obj_type o) as [c|]; [|done]. simpl.
  case_bool_decide; [|done]. intros Hok. ok_inj Hok.
  split; [done|]. split; [done|]. intros m. simpl.
  destruct (decide (m = module)) as [->|Hne].
  - split; [done|]. split; [congruence|].
    intros o' Ho'. rewrite Ho in Ho'. injection Ho' as <-.
    eexists. split; [apply lookup_insert_eq|]. split; [done|].
    intros a Ha. simpl. rewrite lookup_insert_ne; [done|]. by intros <-.
  - rewrite lookup_insert_ne by done. split; [done|]. split; [done|].
    intros o' Ho'. by exists o'.
Qed.

Lemma reregister_resets (module : ObjId) (g : GraphId)
    (observers : list NodeId) (st st' : State) (u : unit) :
  reregister module g observers st = Ok (u, st') →
  qparam_name_map_for_node_ (helper st')
  = qparam_name_map_for_node_ (helper st) ∧
  resets_only module (recorded_name (helper st) g observers)
    (world st) (world st').
Proof.
  set (R := λ s s' : State,
         qparam_name_map_for_node_ (helper s')
         = qparam_name_map_for_node_ (helper s) ∧
         ∀ allowed : string → Prop,
           (∀ a, recorded_name (helper s) g observers a → allowed a) →
           resets_only module allowed (world s) (world s')).
  intros H. assert (R st st') as [Hn Hr]; [|by split; [|apply Hr]].
  revert H. apply (for_each_inv R).
  - intros s. split; [done|]. intros allowed _. apply resets_only_refl.
  - intros s1 s2 s3 [N1 R1] [N2 R2]. split; [congruence|].
    intros allowed Hal. eapply resets_only_trans; [by apply R1|].
    apply R2. intros a (n & names & key & Hin & Hnm & Hk). apply Hal.
    exists n, names, key. by rewrite <- N1.
  - clear. intros n st st' u Hin H.
    apply bind_inv in H as (gr & s1 & Hgr & H1).
    apply the_graph_inv in Hgr as [-> _].
    apply bind_inv in H1 as (w & s3 & Hw & H3).
    apply gets_inv in Hw as [-> ->].
    apply bind_inv in H3 as (tp & s4 & Htp & H4).
    apply lift_inv in Htp as [_ ->].
    apply bind_inv in H4 as (u1 & s5 & Hq & H5).
    apply in_helper_inv in Hq as (h1 & Hq & ->).
    assert (qparam_name_map_for_node_ h1
            = qparam_name_map_for_node_ (helper st)) as Hsame.
    { apply bind_inv in Hq as (h0 & s0 & Hg & Hq). ok_inj Hg.
      destruct (qscheme_for_graph_ _ !! g).
      - by apply check_inv in Hq as [_ ->].
      - by ok_inj Hq. }
    apply bind_inv in H5 as (h2 & s6 & Hh2 & H6).
    apply in_helper_inv in Hh2 as (h3 & Hh2 & ->). ok_inj Hh2.
    apply bind_inv in H6 as (names & s7 & Hn & H7).
    apply lift_inv in Hn as [Hn ->]. apply from_option_inv in Hn.
    simpl in Hn, H7. rewrite Hsame in Hn.
    match goal with
    | H : for_each _ _ ?s = _ |- _ => set (s0 := s) in *
    end.
    assert (R' : qparam_name_map_for_node_ (helper st')
                 = qparam_name_map_for_node_ (helper s0) ∧
                 ∀ allowed : string → Prop,
                   (∀ key a, names !! key = Some a → allowed a) →
                   resets_only module allowed (world s0) (world st')).
    { revert H7.
      apply (for_each_inv
               (λ s s' : State,
                  qparam_name_map_for_node_ (helper s')
                  = qparam_name_map_for_node_ (helper s) ∧
                  ∀ allowed : string → Prop,
                    (∀ key a, names !! key = Some a → allowed a) →
                    resets_only module allowed (world s) (world s'))).
      - intros s. split; [done|]. intros allowed _. apply resets_only_refl.
      - intros s1 s2 s3 [N1 R1] [N2 R2]. split; [congruence|].
        intros allowed Hal. eapply resets_only_trans; [by apply R1|].
        by apply R2.
      - clear. intros pr st st' u _ H.
        apply bind_inv in H as (an & s1 & Han & H1).
        apply lift_inv in Han as [Han ->]. apply from_option_inv in Han.
        apply in_world_inv in H1 as (w' & H1 & ->). split; [done|].
        intros allowed Hal. simpl. eapply setAttr_resets; [|exact H1].
        by eapply Hal. }
    destruct R' as [N' R']. split; [by rewrite N'|]. fold R.
    intros allowed Hal. apply R'. intros key a Hk. apply Hal.
    by exists n, names, key.
Qed.

Lemma for_each_app_inv {S A} (f : A → M S unit) (l1 l2 : list A) (s s' : S)
    (u : unit) :
  for_each (l1 ++ l2) f s = Ok (u, s') →
  ∃ s1, for_each l1 f s = Ok (tt, s1) ∧ for_each l2 f s1 = Ok (u, s').
Proof.
  revert s. induction l1 as [|x l1 IH]; intros s H.
  - by exists s.
  - simpl in H. apply bind_inv in H as ([] & s1 & H1 & H2).
    destruct (IH s1 H2) as (s2 & Hl1 & Hl2). exists s2. split; [|done].
    simpl. by erewrite bind_ok by exact H1.
Qed.

Lemma NoDup_fmap_inj_on {A B} (f : A → B) (l : list A) (x y : A) :
  NoDup (f <$> l) → x ∈ l → y ∈ l → f x = f y → x = y.
Proof.
  induction l as [|a l IH]; intros Hnd Hx Hy Hf.
  - by apply elem_of_nil in Hx.
  - rewrite fmap_cons in Hnd. apply NoDup_cons in Hnd as [Hnotin Hnd].
    apply elem_of_cons in Hx as [->|Hx]; apply elem_of_cons in Hy as [->|Hy].
    + done.
    + destruct Hnotin. rewrite Hf. by apply list_elem_of_fmap_2.
    + destruct Hnotin. rewrite <- Hf. by apply list_elem_of_fmap_2.
    + by apply IH.
Qed.

Lemma NoDup_bind_elem {A B} (f : A → list B) (l : list A) (x : A) :
  NoDup (l ≫= f) → x ∈ l → NoDup (f x).
Proof.
  induction l as [|a l IH]; intros Hnd Hx.
  - by apply elem_of_nil in Hx.
  - rewrite bind_cons in Hnd. apply NoDup_app in Hnd as (Ha & _ & Hl).
    apply elem_of_cons in Hx as [->|Hx]; [done|by apply IH].
Qed.

Lemma NoDup_bind_later {A B} (f : A → list B) (pre post : list A) (x y : A)
    (b : B) :
  NoDup ((pre ++ x :: post) ≫= f) → b ∈ f x → y ∈ post → b ∈ f y → False.
Proof.
  intros Hnd Hx Hy Hb. rewrite bind_app, bind_cons in Hnd.
  apply NoDup_app in Hnd as (_ & _ & Hnd).
  apply NoDup_app in Hnd as (_ & Hdis & _).
  apply (Hdis b Hx). apply list_elem_of_bind. by exists y.
Qed.

Lemma resets_only_mono (module : ObjId) (P Q : string → Prop) (w w' : World) :
  (∀ a, P a → Q a) → resets_only module P w w' → resets_only module Q w w'.
Proof.
  intros HPQ (G & T & O). split; [done|]. split; [done|]. intros m.
  destruct (O m) as (N & E & S'). split; [done|]. split; [done|].
  intros o Ho. destruct (S' o Ho) as (o' & Ho' & Ht & Ha).
  exists o'. split; [done|]. split; [done|]. intros a Hna. apply Ha.
  intros HP. by apply Hna, HPQ.
Qed.

Lemma setAttr_sets (module : ObjId) (name : string) (v : IValue)
    (w w' : World) (u : unit) :
  setAttr module name v w = Ok (u, w') →
  ∃ o' : Object,
    w_objects w' !! module = Some o' ∧ obj_attrs o' !! name = Some v.
Proof.
  unfold setAttr, rbind, get_class, rbind, get_object.
  destruct (w_objects w !! module) as [o|] eqn:Ho; [|done]. simpl.
  destruct (w_types w !! obj_type o) as [c|]; [|done]. simpl.
  case_bool_decide; [|done]. intros Hok. ok_inj Hok.
  eexists. split; [apply lookup_insert_eq|]. apply lookup_insert_eq.
Qed.

(** The loop of [run] that sets the parameters of one observer. *)
Lemma set_qparams_resets (module : ObjId) (names : gmap string string)
    (qparam_map : QParamVector) :
  ∀ (s s' : State) (u : unit),
    for_each qparam_map (λ pr,
      attr_name <- lift (from_option (OutOfRange "at") (names !! pr.1)) ;;
      in_world (setAttr module attr_name pr.2)) s = Ok (u, s') →
    helper s' = helper s ∧
    resets_only module
      (λ a, ∃ pr : string * IValue, pr ∈ qparam_map ∧ names !! pr.1 = Some a)
      (world s) (world s').
Proof.
  induction qparam_map as [|pr qm IH]; intros s s' u H.
  { ok_inj H. split; [done|]. apply resets_only_refl. }
  simpl in H. apply bind_inv in H as (u1 & s1 & H1 & H2).
  apply bind_inv in H1 as (an & s0 & Han & H1).
  apply lift_inv in Han as [Han ->]. apply from_option_inv in Han.
  apply in_world_inv in H1 as (w' & H1 & ->).
  destruct (IH _ _ _ H2) as [Hh Hr]. split; [by rewrite Hh|].
  eapply resets_only_trans.
  - eapply setAttr_resets; [|exact H1]. exists pr. split; [by left|done].
  - eapply resets_only_mono; [|exact Hr].
    intros a (pr' & Hin & Hn). exists pr'. split; [by right|done].
Qed.

Lemma set_qparams_sets (module : ObjId) (names : gmap string string)
    (qparam_map : QParamVector) :
  ∀ (s s' : State) (u : unit),
    for_each qparam_map (λ pr,
      attr_name <- lift (from_option (OutOfRange "at") (names !! pr.1)) ;;
      in_world (setAttr module attr_name pr.2)) s = Ok (u, s') →
    NoDup qparam_map.*1 →
    (∀ k k' a, names !! k = Some a → names !! k' = Some a → k = k') →
    ∀ (key : string) (qparam : IValue),
      (key, qparam) ∈ qparam_map →
      ∃ (a : string) (o' : Object),
        names !! key = Some a ∧
        w_objects (world s') !! module = Some o' ∧
        obj_attrs o' !! a = Some qparam.
Proof.
  induction qparam_map as [|pr qm IH]; intros s s' u H Hnd Hinj key qparam Hin.
  { by apply elem_of_nil in Hin. }
  rewrite fmap_cons in Hnd. apply NoDup_cons in Hnd as [Hnotin Hnd].
  simpl in H. apply bind_inv in H as (u1 & s1 & H1 & H2).
  apply elem_of_cons in Hin as [Heq|Hin]; [subst pr|by eapply IH].
  apply bind_inv in H1 as (an & s0 & Han & H1).
  apply lift_inv in Han as [Han ->]. apply from_option_inv in Han.
  apply in_world_inv in H1 as (w' & H1 & ->).
  apply setAttr_sets in H1 as (o1 & Ho1 & Ha1).
  apply set_qparams_resets in H2 as [_ (_ & _ & Hobj)].
  destruct (Hobj module) as (_ & _ & Hkeep).
  destruct (Hkeep o1 Ho1) as (o' & Ho' & _ & Hsame).
  exists an, o'. split; [done|]. split; [done|].
  rewrite Hsame; [done|]. intros (pr' & Hpr' & Hn').
  apply Hnotin. simpl in Han.
  rewrite (Hinj _ _ _ Han Hn'). simpl. by apply list_elem_of_fmap_2.
Qed.

Lemma getQSchemeAndQParamVector_keys (w : World) (module : ObjId)
    (gr : Graph) (n : NodeId) (tp : QScheme * QParamVector) :
  getQSchemeAndQParamVector w module gr n = Ok tp → NoDup tp.2.*1.
Proof.
  unfold getQSchemeAndQParamVector. intros H.
  apply rbind_inv in H as (v & _ & H).
  apply rbind_inv in H as (t & _ & H).
  destruct (negb _); [done|].
  apply rbind_inv in H as (observer_name & _ & H).
  destruct observer_name as [observer_name|]; [|done].
  apply rbind_inv in H as (observer_module & _ & H).
  apply rbind_inv in H as (gid & _ & H).
  apply rbind_inv in H as (result & _ & H).
  apply rbind_inv in H as ([] & _ & H).
  apply rbind_inv in H as (scalar_type & _ & H).
  apply rbind_inv in H as (dtype & _ & H).
  destruct (bool_decide (dtype = Undefined)); [done|].
  apply rbind_inv in H as (scale & _ & H).
  apply rbind_inv in H as (zero_point & _ & H).
  apply rbind_inv in H as (qscheme & _ & H).
  apply rbind_inv in H as (qparams & Hq & H).
  injection H as <-.
  destruct (isPerChannel qscheme).
  - apply rbind_inv in Hq as (axis & _ & Hq). injection Hq as <-. simpl.
    apply (bool_decide_unpack _). by vm_compute.
  - injection Hq as <-. simpl. apply (bool_decide_unpack _). by vm_compute.
Qed.

Lemma reregister_sets (module : ObjId) (g : GraphId)
    (observers : list NodeId) (st1 st' : State) (u : unit) :
  reregister module g observers st1 = Ok (u, st') →
  NoDup (recorded_names (helper st1) g observers) →
  qparams_reset module g observers st1 st'.
Proof.
  intros H Hnd i n Hi.
  pose proof (take_drop_middle observers i n Hi) as Hsplit.
  assert (Hrun : reregister module g (take i observers ++ n :: drop (S i) observers)
                   st1 = Ok (u, st')) by (by rewrite Hsplit).
  unfold reregister in Hrun.
  apply for_each_app_inv in Hrun as (s & Hpre & Hrun).
  fold (reregister module g (take i observers)) in Hpre.
  pose proof (reregister_graphs _ _ _ _ _ _ Hpre) as (Gpre & _ & _).
  pose proof (reregister_resets _ _ _ _ _ _ Hpre) as [Npre _].
  simpl in Hrun. apply bind_inv in Hrun as (u1 & s2 & Hstep & Hpost).
  fold (reregister module g (drop (S i) observers)) in Hpost.
  pose proof (reregister_resets _ _ _ _ _ _ Hpost) as [_ Rpost].
  apply bind_inv in Hstep as (gr & t1 & Hgr & H1).
  apply the_graph_inv in Hgr as [-> Hgr].
  apply bind_inv in H1 as (w & t3 & Hw & H3).
  apply gets_inv in Hw as [-> ->].
  apply bind_inv in H3 as (tp & t4 & Htp & H4).
  apply lift_inv in Htp as [Htp ->].
  apply bind_inv in H4 as (u2 & t5 & Hq & H5).
  apply in_helper_inv in Hq as (h1 & Hq & ->).
  assert (qparam_name_map_for_node_ h1
          = qparam_name_map_for_node_ (helper s)) as Hsame.
  { apply bind_inv in Hq as (h0 & s0 & Hg & Hq). ok_inj Hg.
    destruct (qscheme_for_graph_ _ !! g).
    - by apply check_inv in Hq as [_ ->].
    - by ok_inj Hq. }
  apply bind_inv in H5 as (h2 & t6 & Hh2 & H6).
  apply in_helper_inv in Hh2 as (h3 & Hh2 & ->). ok_inj Hh2.
  apply bind_inv in H6 as (names & t7 & Hn & H7).
  apply lift_inv in Hn as [Hn ->]. apply from_option_inv in Hn.
  simpl in Hn, H7. rewrite Hsame, Npre in Hn.
  assert (Hin : n ∈ observers) by (by eapply list_elem_of_lookup_2).
  assert (Hvals : ∀ k a, names !! k = Some a →
            a ∈ (map_to_list (default ∅
                    (qparam_name_map_for_node_ (helper st1) !! (g, n)))).*2).
  { intros k a Hk. rewrite Hn. simpl.
    apply list_elem_of_fmap. exists (k, a). split; [done|].
    by apply elem_of_map_to_list. }
  exists s, gr, tp, names.
  split; [exact Hpre|]. split; [by rewrite <- Gpre|].
  split; [exact Htp|]. split; [exact Hn|].
  intros key qparam Hkey.
  pose proof (set_qparams_resets _ _ _ _ _ _ H7) as [Hh7 _].
  destruct (set_qparams_sets _ _ _ _ _ _ H7) with (key := key)
    (qparam := qparam) as (a & o2 & Ha & Ho2 & Hattr); [| |done|].
  { by eapply getQSchemeAndQParamVector_keys. }
  { intros k k' a Hk Hk'.
    pose proof (NoDup_bind_elem _ _ n Hnd Hin) as Hndn. simpl in Hndn.
    rewrite Hn in Hndn. simpl in Hndn.
    assert ((k, a) = (k', a)) as [= ->]; [|done].
    apply (NoDup_fmap_inj_on snd (map_to_list names)); [done| | |done];
      by apply elem_of_map_to_list. }
  destruct Rpost as (_ & _ & Hobj).
  destruct (Hobj module) as (_ & _ & Hkeep).
  destruct (Hkeep o2 Ho2) as (o' & Ho' & _ & Hkept).
  exists a, o'. split; [done|]. split; [done|].
  rewrite Hkept; [done|].
  intros (n' & names' & key' & Hn' & Hnames' & Hkey').
  rewrite Hh7 in Hnames'. simpl in Hnames'. rewrite Hsame, Npre in Hnames'.
  unfold recorded_names in Hnd. rewrite <- Hsplit in Hnd.
  eapply (NoDup_bind_later _ _ _ n n' a Hnd).
  - by eapply Hvals.
  - done.
  - rewrite Hnames'. simpl. apply list_elem_of_fmap. exists (key', a).
    split; [done|]. by apply elem_of_map_to_list.
Qed.

Lemma run_keeps_recorded_graphs (fuel : nat) :
  ∀ (module : ObjId) (method_name : string) (st st' : State) (u : unit),
    run fuel module method_name st = Ok (u, st') →
    keeps_recorded_graphs st st'.
Proof.
  induction fuel as [|fuel IH]; intros module method_name st st' u H; [done|].
  simpl in H.
  apply bind_inv in H as (w & s1 & Hw & H1).
  apply gets_inv in Hw as [-> ->].
  apply bind_inv in H1 as (invoked & s2 & Hi & H2).
  apply lift_inv in Hi as [_ ->].
  apply bind_inv in H2 as (u1 & s3 & Hcallees & H3).
  assert (keeps_recorded_graphs st s3) as K1.
  { revert Hcallees.
    apply (for_each_inv keeps_recorded_graphs);
      [apply keeps_recorded_graphs_refl|apply keeps_recorded_graphs_trans|].
    intros im s s' u' _ Him. by eapply IH. }
  eapply keeps_recorded_graphs_trans; [exact K1|]. clear K1 Hcallees.
  apply bind_inv in H3 as (w & s4 & Hw & H4).
  apply gets_inv in Hw as [-> ->].
  apply bind_inv in H4 as (g & s5 & Hg & H5).
  apply lift_inv in Hg as [_ ->].
  apply bind_inv in H5 as (h & s6 & Hh & H6).
  apply in_helper_inv in Hh as (h0 & Hh & ->). ok_inj Hh.
  assert (∀ s, keeps_recorded_graphs s
                 {| world := world s; helper := helper s |}) as Heta.
  { intros s. split; [done|]. by intros i Hi. }
  eapply keeps_recorded_graphs_trans; [apply Heta|].
  destruct (observer_nodes_for_graph_ (helper s3) !! g) as [observers|] eqn:Hobs.
  - apply reregister_graphs in H6 as (G & Hm & O). split; [done|].
    intros i Hi. unfold recorded in *. simpl in *. rewrite O, G. by split.
  - apply (touches_only_keeps g).
    { unfold recorded. simpl. rewrite Hobs. by intros [? ?]. }
    apply bind_inv in H6 as (graph & s7 & Hgr & H7).
    apply the_graph_inv in Hgr as [-> _].
    apply bind_inv in H7 as (ivs & s8 & Hivs & H8).
    apply lift_inv in Hivs as [_ ->].
    apply bind_inv in H8 as (u2 & s9 & Hnodes & H9).
    apply bind_inv in H9 as (u3 & s10 & Hinputs & H10).
    apply bind_inv in H10 as (self & s11 & Hself & H11).
    apply lift_inv in Hself as [_ ->].
    apply (touches_only_trans g _ s9); [|apply (touches_only_trans g _ s10)].
    + revert Hnodes.
      apply (for_each_inv (touches_only g));
        [apply touches_only_refl|apply touches_only_trans|].
      intros n s s' u' _ Hn.
      apply bind_inv in Hn as (outs & t1 & Houts & Hn).
      apply lift_inv in Houts as [_ ->].
      revert Hn.
      apply (for_each_inv (touches_only g));
        [apply touches_only_refl|apply touches_only_trans|].
      intros v t t' u'' _ Hv.
      apply bind_inv in Hv as (ty & t2 & Hty & Hv).
      apply lift_inv in Hty as [_ ->].
      case_bool_decide.
      * by eapply collectObserverNodesAndValueToQuantize_touches.
      * ok_inj Hv. apply touches_only_refl.
    + revert Hinputs.
      apply (for_each_inv (touches_only g));
        [apply touches_only_refl|apply touches_only_trans|].
      intros v t t' u'' _ Hv.
      by eapply collectObserverNodesAndValueToQuantize_touches.
    + by eapply quantizeTensors_touches.
Qed.

(** C4: a run of the insertion step leaves every graph that is recorded in
    the memo table as it is, so that no node is inserted into it.  When the
    graph of the method itself is recorded, the run, after the runs for the
    invoked methods, is the re-registration of the parameters of the
    recorded observers.  The re-registration changes no graph and no type,
    and in the objects nothing but values of attributes of the module whose
    names are recorded in [qparam_name_map_for_node_]; and, the recorded
    names being distinct, it leaves in each of these attributes the
    parameter that [getQSchemeAndQParamVector] has read anew for the
    observer and the key the name is recorded for. *)
Theorem run_recorded_graph (fuel : nat) (module : ObjId)
    (method_name : string) (g : GraphId) (st st' : State) (u : unit) :
  run fuel module method_name st = Ok (u, st') →
  method_graph (world st) module method_name = Ok g →
  recorded st g →
  keeps_recorded_graphs st st' ∧
  w_graphs (world st') !! g = w_graphs (world st) !! g ∧
  ∃ (invoked_methods : list (ObjId * string)) (st1 : State)
    (observers : list NodeId),
    getInvokedMethods (world st) module method_name = Ok invoked_methods ∧
    for_each invoked_methods (λ im, run (pred fuel) im.1 im.2) st
    = Ok (tt, st1) ∧
    keeps_recorded_graphs st st1 ∧
    observer_nodes_for_graph_ (helper st1) !! g = Some observers ∧
    reregister module g observers st1 = Ok (u, st') ∧
    resets_only module (recorded_name (helper st1) g observers)
      (world st1) (world st') ∧
    (NoDup (recorded_names (helper st1) g observers) →
     qparams_reset module g observers st1 st').
Proof.
  intros H Hg Hrec.
  pose proof (run_keeps_recorded_graphs _ _ _ _ _ _ H) as K.
  split; [exact K|]. split; [by apply K|].
  destruct fuel as [|fuel]; [done|]. simpl in H.
  apply bind_inv in H as (w & s1 & Hw & H1).
  apply gets_inv in Hw as [-> ->].
  apply bind_inv in H1 as (invoked & s2 & Hi & H2).
  apply lift_inv in Hi as [Hi ->].
  apply bind_inv in H2 as ([] & s3 & Hcallees & H3).
  assert (keeps_recorded_graphs st s3) as K1.
  { revert Hcallees.
    apply (for_each_inv keeps_recorded_graphs);
      [apply keeps_recorded_graphs_refl|apply keeps_recorded_graphs_trans|].
    intros im s s' u' _ Him. by eapply run_keeps_recorded_graphs. }
  apply bind_inv in H3 as (w & s4 & Hw & H4).
  apply gets_inv in Hw as [-> ->].
  apply bind_inv in H4 as (g' & s5 & Hg' & H5).
  apply lift_inv in Hg' as [Hg' ->].
  pose proof K1 as [Hm K1'].
  rewrite Hm, Hg in Hg'. injection Hg' as <-.
  apply bind_inv in H5 as (h & s6 & Hh & H6).
  apply in_helper_inv in Hh as (h0 & Hh & ->). ok_inj Hh.
  destruct (K1' g Hrec) as [[observers Hobs] _]. rewrite Hobs in H6.
  destruct s3 as [w3 h3]. simpl in H6, Hobs.
  exists invoked, {| world := w3; helper := h3 |}, observers.
  split; [exact Hi|]. split; [exact Hcallees|]. split; [exact K1|].
  split; [exact Hobs|]. split; [exact H6|].
  split; [by apply reregister_resets in H6 as [_ ?]|].
  intros Hnd. by eapply reregister_sets.
Qed.

(** ** Further properties of the pass *)

(** *** Schemes *)

(** X1: [toAffine] is idempotent, and the affine collapse of a scheme is
    per-channel exactly when the scheme is. *)
Theorem toAffine_idempotent (qscheme : QScheme) :
  toAffine (toAffine qscheme) = toAffine qscheme ∧
  isPerChannel (toAffine qscheme) = isPerChannel qscheme.
Proof. by destruct qscheme. Qed.

(** X2: for a graph without a recorded scheme, whatever schemes the
    observers of the graph yield one after the other, no call of
    [checkQScheme] fails, and the scheme recorded in the end is the affine
    collapse of the first one; nothing else of the helper changes. *)
Theorem checkQScheme_first_scheme_recorded (g : GraphId) (qscheme : QScheme)
    (later : list QScheme) (h : Helper) :
  qscheme_for_graph_ h !! g = None →
  for_each (qscheme :: later) (checkQScheme g) h
  = Ok (tt, set_qscheme_for_graph <[g := toAffine qscheme]> h).
Proof.
  intros Hnone.
  assert (∀ h1 : Helper,
            qscheme_for_graph_ h1 !! g = Some (toAffine qscheme) →
            for_each later (checkQScheme g) h1 = Ok (tt, h1)) as Hlater.
  { induction later as [|q later IH]; intros h1 Hrec; [done|]. simpl.
    erewrite bind_ok; [by apply IH|].
    unfold checkQScheme, bind, get. rewrite Hrec. by rewrite orb_true_r. }
  simpl. erewrite bind_ok.
  2:{ unfold checkQScheme, bind, get. rewrite Hnone. reflexivity. }
  apply Hlater. simpl. apply lookup_insert_eq.
Qed.

(** *** Attribute names *)

(** The candidate names are pairwise distinct. *)
Lemma qparam_candidate_inj (base : string) (i j : nat) :
  base +:+ "_" +:+ pretty i = base +:+ "_" +:+ pretty j → i = j.
Proof.
  intros H. apply (inj (String.app base)) in H.
  apply (inj (String.app "_")) in H. by apply (inj pretty) in H.
Qed.

Lemma qparam_attr_name_taken (probes : nat) (attrs : list string)
    (base : string) (uid : nat) :
  qparam_attr_name probes attrs base uid ∈ attrs →
  ∀ k : nat, uid ≤ k ≤ uid + probes → base +:+ "_" +:+ pretty k ∈ attrs.
Proof.
  revert uid. induction probes as [|probes IH]; intros uid Hin k Hk; simpl in Hin.
  - by replace k with uid by lia.
  - case_bool_decide as Hhas.
    + destruct (decide (k = uid)) as [->|Hne]; [done|].
      apply (IH (S uid) Hin). lia.
    + done.
Qed.

Lemma qparam_attr_name_first (probes : nat) (attrs : list string)
    (base : string) (uid : nat) :
  ∃ u : nat,
    uid ≤ u ∧
    qparam_attr_name probes attrs base uid = base +:+ "_" +:+ pretty u ∧
    ∀ k : nat, uid ≤ k < u → base +:+ "_" +:+ pretty k ∈ attrs.
Proof.
  revert uid. induction probes as [|probes IH]; intros uid; simpl.
  - exists uid. split; [done|]. split; [done|]. intros k Hk. lia.
  - case_bool_decide as Hhas.
    + destruct (IH (S uid)) as (u & Hle & Hres & Hbelow).
      exists u. split; [lia|]. split; [done|]. intros k Hk.
      destruct (decide (k = uid)) as [->|Hne]; [done|]. apply Hbelow. lia.
    + exists uid. split; [done|]. split; [done|]. intros k Hk. lia.
Qed.

(** X3: the attribute name that [quantizeTensors] chooses for a parameter
    is the first of the candidates [base_0], [base_1], ... that is not an
    attribute of the module yet: the chosen name is free, and every
    candidate with a smaller number is taken. *)
Theorem qparam_attr_name_fresh (attrs : list string) (base : string) :
  ∃ uid : nat,
    qparam_attr_name (length attrs) attrs base 0
    = base +:+ "_" +:+ pretty uid ∧
    ((base +:+ "_" +:+ pretty uid) ∉ attrs) ∧
    ∀ k : nat, k < uid → (base +:+ "_" +:+ pretty k) ∈ attrs.
Proof.
  destruct (qparam_attr_name_first (length attrs) attrs base 0)
    as (uid & _ & Hres & Hbelow).
  exists uid. split; [done|]. split; [|intros k Hk; apply Hbelow; lia].
  rewrite <- Hres. intros Hin.
  pose proof (qparam_attr_name_taken _ _ _ _ Hin) as Hall.
  set (cands := (λ k : nat, base +:+ "_" +:+ pretty k)
                  <$> seq 0 (S (length attrs))).
  assert (NoDup cands) as Hnd.
  { apply NoDup_fmap_2; [|apply NoDup_seq].
    intros i j. apply qparam_candidate_inj. }
  assert (cands ⊆+ attrs) as Hsub.
  { apply NoDup_submseteq; [done|]. intros x Hx.
    apply list_elem_of_fmap in Hx as (k & -> & Hk).
    apply elem_of_seq in Hk. apply Hall. lia. }
  apply submseteq_length in Hsub. unfold cands in Hsub.
  rewrite length_fmap, length_seq in Hsub. lia.
Qed.

(** *** Collecting the observers *)

Lemma s_name_inv (g g' : Graph) (n : NodeId) (name : string) :
  s_name n g = Ok (name, g') →
  g' = g ∧ ∃ nd, g_nodes g !! n = Some nd ∧ n_name nd = Some name.
Proof.
  intros H. apply bind_inv in H as (nd & g1 & H1 & H2).
  apply get_node_inv in H1 as [-> H1]. apply lift_inv in H2 as [H2 ->].
  apply from_option_inv in H2. eauto.
Qed.

Lemma s_name_ok (g : Graph) (n : NodeId) (nd : NodeData) (name : string) :
  g_nodes g !! n = Some nd → n_name nd = Some name →
  s_name n g = Ok (name, g).
Proof.
  intros H Hn. unfold s_name.
  rewrite (bind_ok _ _ _ _ _ (get_node_ok _ _ _ H)). unfold lift.
  by rewrite Hn.
Qed.

(** What a name returned by [findObserverName] tells about the graph. *)
Lemma findObserverName_Some_inv (g g' : Graph) (v : Value) (name : string) :
  findObserverName v g = Ok (Some name, g') →
  ∃ (nd : NodeData) (module_instance : Value) (md : NodeData),
    g_nodes g !! v.1 = Some nd ∧
    n_kind nd = Prim "CallMethod" ∧
    n_name nd = Some "forward" ∧
    n_inputs nd !! 0 = Some module_instance ∧
    g_nodes g !! module_instance.1 = Some md ∧
    n_kind md = Prim "GetAttr" ∧
    n_name md = Some name ∧
    find "_observer_" name ≠ None.
Proof.
  intros H. unfold findObserverName in H.
  apply bind_inv in H as (k & s1 & Hk & H).
  apply kind_inv in Hk as (-> & nd & Hnd & <-).
  case_bool_decide as Hcall; [|by ok_inj H].
  apply bind_inv in H as (nm & s2 & Hnm & H).
  apply s_name_inv in Hnm as (-> & nd' & Hnd' & Hname).
  rewrite Hnd in Hnd'. injection Hnd' as <-.
  case_bool_decide as Hfwd; [|by ok_inj H]. subst nm.
  apply bind_inv in H as (mi & s3 & Hmi & H).
  apply input_inv in Hmi as (-> & nd' & Hnd' & Hin).
  rewrite Hnd in Hnd'. injection Hnd' as <-.
  apply bind_inv in H as (mk & s4 & Hmk & H).
  apply kind_inv in Hmk as (-> & md & Hmd & <-).
  case_bool_decide as Hget; [|by ok_inj H].
  apply bind_inv in H as (an & s5 & Han & H).
  apply s_name_inv in Han as (-> & md' & Hmd' & Han).
  rewrite Hmd in Hmd'. injection Hmd' as <-.
  case_bool_decide as Hobs; [|by ok_inj H].
  injection H as <- _. by exists nd, mi, md.
Qed.

(** X4: [collectObserverNodesAndValueToQuantize] never fails on a value for
    which [findObserverName] gives an answer, so its internal assertion
    cannot fire.  For a value that is no observer call nothing changes; for
    an observer call the observer name goes to [observer_modules_to_remove_],
    the call node and then the [GetAttr] node of the observer module go to
    [nodes_to_destroy_], and the call node goes to
    [observer_nodes_for_graph_], each at the end of the entry of the graph.
    The modules and graphs are not touched. *)
Theorem collectObserverNodesAndValueToQuantize_effect (module : ObjId)
    (g : GraphId) (v : Value) (st : State) (gr : Graph) (r : option string) :
  w_graphs (world st) !! g = Some gr →
  findObserverName v gr = Ok (r, gr) →
  match r with
  | None => collectObserverNodesAndValueToQuantize module g v st = Ok (tt, st)
  | Some name =>
      ∃ module_instance : Value,
        input v.1 0 gr = Ok (module_instance, gr) ∧
        collectObserverNodesAndValueToQuantize module g v st
        = Ok (tt,
              mkState (world st)
                (set_observer_nodes_for_graph (push_back g v.1)
                   (set_nodes_to_destroy (push_back g module_instance.1)
                      (set_nodes_to_destroy (push_back g v.1)
                         (set_observer_modules_to_remove (push_back g name)
                            (helper st))))))
  end.
Proof.
  intros Hg Hr.
  assert (in_world (λ w, gr0 <-? get_graph w g ;; Ok (gr0, w)) st
          = Ok (gr, st)) as Hread.
  { unfold in_world, get_graph, rbind. rewrite Hg. simpl. by destruct st. }
  assert (lift (eval (findObserverName v) gr) st = Ok (r, st)) as Hname.
  { unfold lift, eval. by rewrite Hr. }
  unfold collectObserverNodesAndValueToQuantize.
  destruct r as [name|].
  2:{ erewrite bind_ok by exact Hread. by erewrite bind_ok by exact Hname. }
  apply findObserverName_Some_inv in Hr
    as (nd & mi & md & Hnd & Hk & Hfwd & Hin & Hmd & Hmk & Han & _).
  exists mi. split; [by eapply input_ok|].
  erewrite bind_ok by exact Hread. erewrite bind_ok by exact Hname.
  cbv beta iota. erewrite bind_ok by reflexivity.
  erewrite bind_ok.
  2:{ unfold lift, eval. by erewrite input_ok. }
  erewrite bind_ok.
  2:{ unfold lift, eval.
      erewrite bind_ok by (by eapply kind_ok).
      erewrite bind_ok by (by eapply s_name_ok).
      erewrite bind_ok by (by eapply kind_ok).
      erewrite bind_ok by (by eapply s_name_ok).
      reflexivity. }
  rewrite Hk, Hmk, !bool_decide_eq_true_2 by done. reflexivity.
Qed.

(** *** The invoked methods *)

Lemma eval_inv {S A} (m : M S A) (s : S) (a : A) :
  eval m s = Ok a → ∃ s', m s = Ok (a, s').
Proof.
  unfold eval. destruct (m s) as [[a' s']|]; [|done]. intros [= ->]. eauto.
Qed.

Lemma foldl_rbind_err {A B} (f : A → B → Res A) (l : list B) (e : Error) :
  foldl (λ acc x, rbind acc (λ a, f a x)) (Err e) l = Err e.
Proof. by induction l. Qed.

(** A loop that threads a result and stops at the first error: what holds
    of the start and is kept by each step holds of the end. *)
Lemma foldl_rbind_inv {A B} (P : A → list B → Prop) (f : A → B → Res A)
    (l : list B) (a0 r : A) :
  P a0 [] →
  (∀ a x a' pre, P a pre → f a x = Ok a' → P a' (pre ++ [x])) →
  foldl (λ acc x, rbind acc (λ a, f a x)) (Ok a0) l = Ok r →
  P r l.
Proof.
  intros H0 Hstep.
  assert (∀ pre a, P a pre →
            foldl (λ acc x, rbind acc (λ a, f a x)) (Ok a) l = Ok r →
            P r (pre ++ l)) as Hgen.
  { induction l as [|x l IH]; intros pre a Ha H.
    - injection H as <-. by rewrite app_nil_r.
    - simpl in H. destruct (f a x) as [a'|e] eqn:Hf.
      + replace (pre ++ x :: l) with ((pre ++ [x]) ++ l)
          by (by rewrite <- app_assoc).
        apply (IH (pre ++ [x]) a'); [|done].
        by eapply Hstep.
      + by rewrite foldl_rbind_err in H. }
  intros H. by apply (Hgen [] a0).
Qed.

(** X5: the methods that [getInvokedMethods] returns are exactly the
    methods called by the nodes of the graph on [self] and on child modules
    that are no observers; a call on an observer module is never among
    them. *)
Theorem getInvokedMethods_spec (w : World) (module : ObjId)
    (method_name : string) (gid : GraphId) (graph : Graph)
    (invoked_methods : list (ObjId * string)) :
  method_graph w module method_name = Ok gid →
  w_graphs w !! gid = Some graph →
  getInvokedMethods w module method_name = Ok invoked_methods →
  ∀ (m : ObjId) (name : string),
    (m, name) ∈ invoked_methods ↔
    ∃ n : NodeId, n ∈ graph_nodes graph ∧ invokes w module graph n m name.
Proof.
  intros Hgid Hgraph H. unfold getInvokedMethods in H.
  rewrite Hgid in H. simpl in H. unfold get_graph in H.
  rewrite Hgraph in H. simpl in H.
  revert H.
  apply (foldl_rbind_inv
           (λ (a : list (ObjId * string)) (pre : list NodeId),
              ∀ m name, (m, name) ∈ a ↔
                        ∃ n, n ∈ pre ∧ invokes w module graph n m name)).
  - intros m name. split; [by intros ?%elem_of_nil|].
    by intros (n & ?%elem_of_nil & _).
  - intros a n a' pre IH Hstep m name.
    assert (∀ (extra : list (ObjId * string)),
              a' = a ++ extra →
              (∀ m name, (m, name) ∈ extra ↔ invokes w module graph n m name) →
              (m, name) ∈ a' ↔
              ∃ n0, n0 ∈ pre ++ [n] ∧ invokes w module graph n0 m name)
      as Hclose.
    { intros extra -> Hextra. rewrite elem_of_app, IH, Hextra. split.
      - intros [(n0 & Hn0 & Hi)|Hi].
        + exists n0. split; [|done]. apply elem_of_app. by left.
        + exists n. split; [|done]. apply elem_of_app. right. by left.
      - intros (n0 & Hn0 & Hi). apply elem_of_app in Hn0 as [Hn0|Hn0].
        + left. by exists n0.
        + apply list_elem_of_singleton in Hn0 as ->. by right. }
    apply rbind_inv in Hstep as (k & Hk & Hstep).
    apply eval_inv in Hk as (s1 & Hk).
    apply kind_inv in Hk as (-> & nd & Hnd & <-).
    case_bool_decide as Hcall.
    2:{ injection Hstep as <-. apply (Hclose []); [by rewrite app_nil_r|].
        intros m0 name0. split; [by intros ?%elem_of_nil|].
        intros (nd' & ? & ? & Hnd' & Hk' & _).
        pose proof (Some_agree _ _ _ Hnd Hnd') as ->. done. }
    apply rbind_inv in Hstep as (recv & Hrecv & Hstep).
    apply eval_inv in Hrecv as (s2 & Hrecv).
    apply input_inv in Hrecv as (-> & nd' & Hnd' & Hrecv).
    pose proof (Some_agree _ _ _ Hnd Hnd') as <-. clear Hnd'.
    apply rbind_inv in Hstep as (nm & Hnm & Hstep).
    apply eval_inv in Hnm as (s3 & Hnm).
    apply s_name_inv in Hnm as (-> & nd' & Hnd' & Hnm).
    pose proof (Some_agree _ _ _ Hnd Hnd') as <-. clear Hnd'.
    apply rbind_inv in Hstep as (self & Hself & Hstep).
    apply from_option_inv in Hself.
    apply rbind_inv in Hstep as (om & Hom & Hstep).
    assert (∀ m0 name0,
              invokes w module graph n m0 name0 ↔
              name0 = nm ∧
              (recv = self ∧ m0 = module ∨
               recv ≠ self ∧
               ∃ md an, g_nodes graph !! recv.1 = Some md ∧
                 n_kind md = Prim "GetAttr" ∧ n_name md = Some an ∧
                 ¬ has_substring "_observer_" an ∧
                 getInvokedModule w module graph n self = Ok m0)) as Hinv.
    { intros m0 name0. split.
      - intros (nd' & recv' & self' & Hnd' & _ & Hnm' & Hrecv' & Hself' & Hor).
        pose proof (Some_agree _ _ _ Hnd Hnd') as <-.
        rewrite Hnm in Hnm'. injection Hnm' as <-.
        rewrite Hrecv in Hrecv'. injection Hrecv' as <-.
        rewrite Hself in Hself'. injection Hself' as <-. done.
      - intros [-> Hor]. by exists nd, recv, self. }
    assert (a' = a ++ match om with Some m0 => [(m0, nm)] | None => [] end)
      as Ha'.
    { destruct om; injection Hstep as <-; [done|by rewrite app_nil_r]. }
    apply (Hclose _ Ha'). clear Hclose Ha' Hstep IH.
    intros m0 name0. rewrite Hinv. clear Hinv.
    case_bool_decide as Hself_call.
    { injection Hom as <-. rewrite list_elem_of_singleton. split.
      - intros [= -> ->]. split; [done|]. by left.
      - intros [-> [[_ ->]|[? _]]]; done. }
    apply rbind_inv in Hom as (mk & Hmk & Hom).
    apply eval_inv in Hmk as (s4 & Hmk).
    apply kind_inv in Hmk as (-> & md & Hmd & <-).
    case_bool_decide as Hget.
    2:{ injection Hom as <-. split; [by intros ?%elem_of_nil|].
        intros [_ [[? _]|(_ & md' & an & Hmd' & Hk' & _)]]; [done|].
        pose proof (Some_agree _ _ _ Hmd Hmd') as ->. done. }
    apply rbind_inv in Hom as (an & Han & Hom).
    apply eval_inv in Han as (s5 & Han).
    apply s_name_inv in Han as (-> & md' & Hmd' & Han).
    pose proof (Some_agree _ _ _ Hmd Hmd') as <-. clear Hmd'.
    case_bool_decide as Hobs.
    + apply rbind_inv in Hom as (m1 & Hm1 & Hom). injection Hom as <-.
      rewrite list_elem_of_singleton. split.
      * intros [= -> ->]. split; [done|]. right. split; [done|].
        exists md, an. repeat split; try done.
        intros Hsub. apply find_spec in Hsub. done.
      * intros [-> [[? _]|(_ & md' & an' & Hmd' & _ & Han' & _ & Hm0)]];
          [done|].
        rewrite Hm1 in Hm0. by injection Hm0 as ->.
    + injection Hom as <-. split; [by intros ?%elem_of_nil|].
      intros [_ [[? _]|(_ & md' & an' & Hmd' & _ & Han' & Hno & _)]]; [done|].
      pose proof (Some_agree _ _ _ Hmd Hmd') as <-.
      rewrite Han in Han'. injection Han' as <-.
      destruct Hno. apply find_spec. done.
Qed.

(** *** Propagation: the dequantized inputs *)

Lemma map_m_kind (g : Graph) (l : list Value) :
  (∀ v, v ∈ l → is_Some (g_nodes g !! v.1)) →
  ∃ kinds,
    map_m (λ i : Value, kind i.1) l g = Ok (kinds, g) ∧
    Forall2 (λ (v : Value) k, n_kind <$> g_nodes g !! v.1 = Some k) l kinds.
Proof.
  induction l as [|v l IH]; intros Hl.
  - by exists [].
  - destruct (Hl v) as [nd Hnd]; [left|].
    destruct IH as (kinds & Hrun & Hall).
    { intros v' Hv'. apply Hl. by right. }
    exists (n_kind nd :: kinds). split.
    + simpl. erewrite bind_ok by (by eapply kind_ok).
      by erewrite bind_ok by exact Hrun.
    + constructor; [by rewrite Hnd|done].
Qed.

(** X6: on a graph in which the pass-through inputs of [out] are outputs of
    live nodes, [getDequantizedInputs] does not fail and leaves the graph as
    it is; it returns the pass-through inputs exactly when there is at least
    one of them and each of them is produced by an [aten::dequantize] node,
    and nothing otherwise. *)
Theorem getDequantizedInputs_spec (g : Graph) (out : Value) :
  (∀ v, v ∈ getPassThroughInputs g out → is_Some (g_nodes g !! v.1)) →
  ∃ r : option (list Value),
    getDequantizedInputs out g = Ok (r, g) ∧
    ∀ ins : list Value,
      r = Some ins ↔
      ins = getPassThroughInputs g out ∧ ins ≠ [] ∧
      ∀ v : Value, v ∈ ins →
        n_kind <$> g_nodes g !! v.1 = Some (Aten "dequantize").
Proof.
  intros Hlive. unfold getDequantizedInputs.
  erewrite bind_ok by reflexivity.
  destruct (getPassThroughInputs g out) as [|v0 l] eqn:Hins.
  { exists None. split; [done|]. intros ins. split; [done|].
    by intros (-> & ? & _). }
  rewrite bool_decide_eq_true_2 by (simpl; lia).
  destruct (map_m_kind g (v0 :: l) Hlive) as (kinds & Hrun & Hall).
  erewrite bind_ok by exact Hrun.
  destruct (forallb _ kinds) eqn:Hdeq.
  - exists (Some (v0 :: l)). split; [done|]. intros ins. split.
    + intros [= <-]. split; [done|]. split; [done|]. intros v Hv.
      apply list_elem_of_lookup in Hv as [i Hi].
      destruct (Forall2_lookup_l _ _ _ _ _ Hall Hi) as (k & Hk & Hkind).
      rewrite Hkind. f_equal.
      rewrite forallb_forall in Hdeq.
      eapply bool_decide_eq_true_1, Hdeq.
      apply list_elem_of_In. by eapply list_elem_of_lookup_2.
    + by intros (-> & _).
  - exists None. split; [done|]. intros ins. split; [done|].
    intros (-> & _ & Hk). exfalso.
    apply not_true_iff_false in Hdeq. apply Hdeq.
    apply forallb_forall. intros k Hin. apply bool_decide_eq_true_2.
    apply list_elem_of_In, list_elem_of_lookup in Hin as [i Hi].
    destruct (Forall2_lookup_r _ _ _ _ _ Hall Hi) as (v & Hv & Hkind).
    apply list_elem_of_lookup_2 in Hv. rewrite (Hk v Hv) in Hkind.
    by injection Hkind.
Qed.

(** *** Propagation: removing the dequantize nodes of the inputs *)

Lemma removable_output (g : Graph) (ins : list Value) (v : Value) :
  removable g ins → v ∈ ins → v = (v.1, 0).
Proof.
  intros (_ & _ & H) Hv. destruct (H v Hv) as (nd & q & _ & _ & Hone & Hlt & _).
  destruct v as [d k]. simpl in *. f_equal. lia.
Qed.

(** One round of the loop of [removeDequantizeFromInputs]. *)
Lemma removeDequantize_step (g : Graph) (v q : Value) (nd : NodeData) :
  wf_next g →
  g_nodes g !! v.1 = Some nd → n_inputs nd = [q] →
  length (n_outputs nd) = 1 → v = (v.1, 0) → q ≠ v →
  length (uses_in g v) = 1 →
  ∃ g1,
    (us <- uses v ;;
     check (bool_decide (length us = 1))
       (InternalAssert "Expect to have one dequantize node for each use") ;;
     in0 <- input v.1 0 ;;
     replaceAllUsesWith v in0 ;;
     removeAllInputs v.1 ;;
     destroy v.1) g = Ok (tt, g1) ∧
    g_next g1 = g_next g ∧
    ∀ x : NodeId,
      g_nodes g1 !! x
      = if decide (x = v.1) then None else redirect v q <$> g_nodes g !! x.
Proof.
  intros Hwf Hnd Hin Hone Hv Hqv Huse.
  set (ga := set_nodes (fmap (redirect v q)) g).
  set (gb := set_nodes (alter (with_inputs []) v.1) ga).
  assert (g_nodes gb !! v.1 = Some (with_inputs [] (redirect v q nd))) as Hd.
  { simpl. by rewrite lookup_alter_eq, lookup_fmap, Hnd. }
  assert (uses_in gb (v.1, 0) = []) as Hunused.
  { apply uses_in_nil. intros x ndx Hx. simpl in Hx.
    destruct (decide (x = v.1)) as [->|Hne].
    - rewrite lookup_alter_eq, lookup_fmap, Hnd in Hx. injection Hx as <-.
      apply not_elem_of_nil.
    - rewrite lookup_alter_ne, lookup_fmap in Hx by done.
      apply fmap_Some in Hx as (ndx' & _ & ->). rewrite <- Hv.
      apply not_elem_of_redirect. congruence. }
  exists (set_nodes (delete v.1) (set_block (tree_remove v.1) gb)).
  split; [|split; [done|]].
  - erewrite bind_ok by reflexivity.
    rewrite bool_decide_eq_true_2 by done.
    erewrite bind_ok by reflexivity.
    erewrite bind_ok by (eapply input_ok; [exact Hnd|by rewrite Hin]).
    erewrite bind_ok by reflexivity.
    erewrite bind_ok.
    2:{ unfold removeAllInputs.
        erewrite bind_ok; [reflexivity|].
        apply get_node_ok. simpl. by rewrite lookup_fmap, Hnd. }
    fold ga. fold gb. unfold destroy.
    erewrite bind_ok by (by eapply outputs_ok).
    erewrite bind_ok by reflexivity. simpl n_outputs. rewrite Hone. simpl.
    unfold gb, ga, redirect in Hunused |- *. by rewrite Hunused.
  - intros x. simpl. destruct (decide (x = v.1)) as [->|Hne].
    + apply lookup_delete_eq.
    + by rewrite lookup_delete_ne, lookup_alter_ne, lookup_fmap by done.
Qed.

Lemma removable_tail (g g1 : Graph) (v q : Value) (nd : NodeData)
    (ins : list Value) :
  removable g (v :: ins) →
  g_nodes g !! v.1 = Some nd → n_inputs nd = [q] →
  g_next g1 = g_next g →
  (∀ x : NodeId,
     g_nodes g1 !! x
     = if decide (x = v.1) then None else redirect v q <$> g_nodes g !! x) →
  removable g1 ins.
Proof.
  intros Hrem Hnd Hin Hnext Hnodes.
  pose proof (removable_output _ _ v Hrem ltac:(left)) as Hv.
  destruct Hrem as (Hwf & Hnodup & Hall).
  apply NoDup_cons in Hnodup as [Hvins Hnodup].
  assert (wf_next g1) as Hwf1.
  { intros x ndx Hx. rewrite Hnodes in Hx. case_decide; [done|].
    apply fmap_Some in Hx as (ndx' & Hx & _). rewrite Hnext.
    by apply Hwf in Hx. }
  split; [done|]. split; [done|]. intros v' Hv'.
  destruct (Hall v' ltac:(by right))
    as (nd' & q' & Hnd' & Hin' & Hone' & Hlt' & Hq' & Huse').
  assert (v' = (v'.1, 0)) as Hv'0.
  { destruct v' as [d k]. simpl in *. f_equal. lia. }
  assert (v'.1 ≠ v.1) as Hne.
  { intros E. apply Hvins. rewrite Hv, <- E, <- Hv'0. done. }
  assert (q' ≠ v) as Hq'v.
  { intros ->. apply Hq'. rewrite fmap_cons. left. }
  assert (q ≠ v') as Hqv'.
  { intros ->. destruct (Hall v ltac:(left)) as (nd0 & q0 & Hnd0 & Hin0 & _ & _ & Hq0 & _).
    rewrite Hnd in Hnd0. injection Hnd0 as <-. rewrite Hin in Hin0.
    injection Hin0 as <-. apply Hq0. rewrite fmap_cons. right.
    apply list_elem_of_fmap. by exists v'. }
  exists (redirect v q nd'), q'. split.
  { rewrite Hnodes, decide_False, Hnd' by done. done. }
  split.
  { simpl. rewrite Hin'. simpl. unfold subst_value.
    by rewrite decide_False by done. }
  split; [done|]. split; [done|]. split.
  { intros Hmem. apply Hq'. rewrite fmap_cons. by right. }
  rewrite <- Huse'. apply Permutation_length.
  apply NoDup_Permutation; [apply NoDup_uses_in|apply NoDup_uses_in|].
  intros [u off]. rewrite !elem_of_uses_in, Hnext. split.
  - intros (Hlt & nd1 & Hnd1 & Hoff). split; [done|].
    rewrite Hnodes in Hnd1. case_decide; [done|].
    apply fmap_Some in Hnd1 as (ndu & Hndu & ->). exists ndu.
    split; [done|]. simpl in Hoff. rewrite list_lookup_fmap in Hoff.
    apply fmap_Some in Hoff as (y & Hy & Hsub). rewrite Hy. f_equal.
    unfold subst_value in Hsub. case_decide; congruence.
  - intros (Hlt & ndu & Hndu & Hoff). split; [done|].
    exists (redirect v q ndu). split.
    + rewrite Hnodes, decide_False, Hndu; [done|]. intros ->.
      rewrite Hnd in Hndu. injection Hndu as <-. rewrite Hin in Hoff.
      destruct off; simpl in Hoff; [|done]. congruence.
    + erewrite redirect_lookup by exact Hoff. unfold subst_value.
      rewrite decide_False; [done|]. intros ->. by apply Hvins.
Qed.

(** X7: on values that are each the single-use output of a one-input,
    one-output node and do not feed each other, [removeDequantizeFromInputs]
    succeeds; afterwards the nodes producing the values are gone, and every
    other node reads, in each slot that held one of the values, the input
    of the node that produced it, and is unchanged otherwise. *)
Theorem removeDequantizeFromInputs_bypasses (ins : list Value) (g : Graph) :
  removable g ins →
  ∃ g',
    removeDequantizeFromInputs ins g = Ok (tt, g') ∧
    g_next g' = g_next g ∧
    ∀ x : NodeId,
      g_nodes g' !! x
      = if decide (x ∈ ins.*1) then None
        else (λ nd, with_inputs (map (bypass g ins) (n_inputs nd)) nd)
               <$> g_nodes g !! x.
Proof.
  revert g. induction ins as [|v ins IH]; intros g Hrem.
  { exists g. split; [done|]. split; [done|]. intros x.
    rewrite decide_False by apply not_elem_of_nil.
    destruct (g_nodes g !! x) as [nd|]; [|done]. simpl. f_equal.
    replace (map (bypass g []) (n_inputs nd)) with (n_inputs nd);
      [symmetry; apply with_inputs_id|].
    rewrite <- (map_id (n_inputs nd)) at 1. apply map_ext. intros y.
    unfold bypass. rewrite decide_False; [done|]. apply not_elem_of_nil. }
  pose proof (removable_output _ _ v Hrem ltac:(left)) as Hv.
  pose proof Hrem as (Hwf & Hnodup & Hall).
  destruct (Hall v ltac:(left))
    as (nd & q & Hnd & Hin & Hone & _ & Hq & Huse).
  assert (q ≠ v) as Hqv.
  { intros ->. apply Hq. rewrite fmap_cons. left. }
  destruct (removeDequantize_step g v q nd Hwf Hnd Hin Hone Hv Hqv Huse)
    as (g1 & Hstep & Hnext1 & Hnodes1).
  pose proof (removable_tail g g1 v q nd ins Hrem Hnd Hin Hnext1 Hnodes1)
    as Hrem1.
  destruct (IH g1 Hrem1) as (g' & Hrun & Hnext & Hnodes).
  exists g'. split; [|split; [congruence|]].
  { unfold removeDequantizeFromInputs. simpl.
    erewrite bind_ok; [exact Hrun|exact Hstep]. }
  apply NoDup_cons in Hnodup as [Hvins Hnodup].
  intros x. rewrite Hnodes, Hnodes1, fmap_cons.
  destruct (decide (x = v.1)) as [->|Hne].
  { rewrite (decide_True (P := v.1 ∈ v.1 :: ins.*1)) by left.
    by case_decide. }
  destruct (decide (x ∈ ins.*1)) as [Hx|Hx].
  { rewrite decide_True; [done|]. by right. }
  rewrite decide_False by (by intros [?|?]%elem_of_cons).
  destruct (g_nodes g !! x) as [ndx|]; [|done]. simpl. f_equal.
  unfold with_inputs. simpl. f_equal.
  rewrite map_map. apply map_ext. intros y.
  unfold subst_value, bypass.
  destruct (decide (y = v)) as [->|Hyv].
  - rewrite (decide_True (P := v ∈ v :: ins)) by left.
    rewrite Hnd, Hin. simpl. rewrite decide_False; [done|].
    intros Hmem. apply Hq. rewrite fmap_cons. right.
    apply list_elem_of_fmap. by exists q.
  - destruct (decide (y ∈ ins)) as [Hy|Hy].
    + rewrite (decide_True (P := y ∈ v :: ins)) by (by right).
      destruct (Hall y ltac:(by right))
        as (ndy & qy & Hndy & Hiny & Honey & Hlty & Hqy & _).
      assert (y.1 ≠ v.1) as Hy1.
      { intros E. apply Hyv. destruct y as [d k]. simpl in *.
        rewrite Hv. f_equal; [done|lia]. }
      rewrite Hnodes1, decide_False, Hndy by done. simpl.
      rewrite Hiny. simpl. unfold subst_value.
      rewrite decide_False; [done|]. intros ->. apply Hqy.
      rewrite fmap_cons. left.
    + rewrite decide_False; [done|]. by intros [?|?]%elem_of_cons.
Qed.

(** *** Graphs the replication passes leave alone *)

Lemma List_filter_false {A} (l : list A) : List.filter (λ _, false) l = [].
Proof. induction l as [|x l IH]; [done|]. simpl. exact IH. Qed.

Lemma uses_ok (g : Graph) (v : Value) : uses v g = Ok (uses_in g v, g).
Proof. done. Qed.

(** X8: on a graph whose walk meets live nodes only, whose
    [aten::dequantize] nodes have one input and one output, and in which no
    [aten::dequantize] node of the walk has an output with more than one
    use, [ReplicateDeQuant] changes nothing. *)
Theorem ReplicateDeQuant_unchanged (g : Graph) :
  walk_live g → dequantize_schema g →
  (∀ n : NodeId, n ∈ graph_nodes g → is_multi_use_dequantize g n = false) →
  ReplicateDeQuant g = Ok (tt, g).
Proof.
  intros Hlive Hschema Hnone. unfold ReplicateDeQuant.
  erewrite bind_ok by reflexivity.
  erewrite bind_ok.
  2:{ apply (filter_m_pure _ (is_multi_use_dequantize g)). intros x Hx.
      unfold walk_live in Hlive. rewrite Forall_forall in Hlive.
      destruct (Hlive x Hx) as [ndx Hndx].
      rewrite (bind_ok _ _ _ _ _ (kind_ok _ _ _ Hndx)).
      unfold is_multi_use_dequantize. rewrite Hndx.
      case_bool_decide as Hk; [|done].
      destruct (Hschema x ndx Hndx Hk) as [_ Hout].
      by rewrite (bind_ok _ _ _ _ _ (output_ok _ _ _ Hndx Hout)). }
  replace (List.filter (is_multi_use_dequantize g) (graph_nodes g))
    with (@nil NodeId); [done|].
  symmetry. induction (graph_nodes g) as [|x l IH]; [done|]. simpl.
  rewrite (Hnone x) by left. apply IH. intros n Hn. apply Hnone. by right.
Qed.

(** X9: on a graph whose walk meets live nodes only, and in which every
    quantize node reads, in its first slot, the output of a live node that
    is no [prim::If], [ReplicateQuant] changes nothing. *)
Theorem ReplicateQuant_unchanged (g : Graph) :
  (∀ n : NodeId, n ∈ graph_nodes g →
     ∃ nd : NodeData,
       g_nodes g !! n = Some nd ∧
       (n_kind nd = Aten "quantize_per_tensor" ∨
        n_kind nd = Aten "quantize_per_channel" →
        ∃ (v0 : Value) (nd0 : NodeData),
          n_inputs nd !! 0 = Some v0 ∧ g_nodes g !! v0.1 = Some nd0 ∧
          n_kind nd0 ≠ Prim "If")) →
  ReplicateQuant g = Ok (tt, g).
Proof.
  intros Hnodes. unfold ReplicateQuant.
  erewrite bind_ok by reflexivity.
  erewrite bind_ok.
  2:{ apply (filter_m_pure _ (λ _, false)). intros x Hx.
      destruct (Hnodes x Hx) as (nd & Hnd & Hq).
      rewrite (bind_ok _ _ _ _ _ (kind_ok _ _ _ Hnd)).
      destruct (bool_decide (n_kind nd = Aten "quantize_per_tensor") ||
                bool_decide (n_kind nd = Aten "quantize_per_channel"))
        eqn:Hk; [|done].
      destruct Hq as (v0 & nd0 & Hin & Hnd0 & Hif).
      { apply orb_true_iff in Hk as [Hk|Hk];
          apply bool_decide_eq_true in Hk; auto. }
      erewrite bind_ok by (by eapply input_ok).
      erewrite bind_ok by (by eapply kind_ok).
      by rewrite bool_decide_eq_false_2. }
  by rewrite List_filter_false.
Qed.

Lemma map_m_pure {S A B} (f : A → M S B) (p : A → B) (l : list A) (s : S) :
  (∀ x, x ∈ l → f x s = Ok (p x, s)) →
  map_m f l s = Ok (map p l, s).
Proof.
  induction l as [|x l IH]; intros H; [done|]. simpl.
  rewrite (bind_ok _ _ _ _ _ (H x ltac:(by left))).
  by rewrite (bind_ok _ _ _ _ _ (IH (λ y Hy, H y ltac:(by right)))).
Qed.

(** X10: on a graph whose walk meets live nodes only, and in which no
    output of a node is a scalar bound of a clamp with more than one use,
    [ReplicateClampScalarArgs] changes nothing. *)
Theorem ReplicateClampScalarArgs_unchanged (g : Graph) :
  walk_live g →
  (∀ (n : NodeId) (nd : NodeData) (i : nat),
     n ∈ graph_nodes g → g_nodes g !! n = Some nd →
     i < length (n_outputs nd) →
     getClampScalarInputUse g (n, i) = true →
     length (uses_in g (n, i)) ≤ 1) →
  ReplicateClampScalarArgs g = Ok (tt, g).
Proof.
  intros Hlive Hnone. unfold ReplicateClampScalarArgs.
  erewrite bind_ok by reflexivity.
  erewrite bind_ok.
  2:{ apply (filter_m_pure _ (λ _, false)). intros x Hx.
      unfold walk_live in Hlive. rewrite Forall_forall in Hlive.
      destruct (Hlive x Hx) as [ndx Hndx].
      erewrite bind_ok by (by eapply outputs_ok).
      erewrite bind_ok.
      2:{ apply (map_m_pure _ (λ _, false)). intros out Hout.
          apply list_elem_of_fmap in Hout as (i & -> & Hi).
          apply elem_of_seq in Hi.
          rewrite (bind_ok _ _ _ _ _ (uses_ok _ _)).
          destruct (getClampScalarInputUse g (x, i)) eqn:Hclamp; [|done].
          rewrite bool_decide_eq_false_2; [done|].
          specialize (Hnone x ndx i Hx Hndx ltac:(lia) Hclamp). lia. }
      f_equal. f_equal.
      induction (map (pair x) (seq 0 (length (n_outputs ndx)))) as [|? ? IH];
        [done|exact IH]. }
  by rewrite List_filter_false.
Qed.

(** *** Weights *)

Lemma isWeight_loop (fuel : nat) (w : World) (module : ObjId) (g : Graph)
    (v self : Value) (res : NodeId * nat → bool) (us : list (NodeId * nat)) :
  (∀ u, u ∈ us → is_Some (g_nodes g !! u.1)) →
  (∀ u, u ∈ us → call_method_use g u = true →
     call_method_result fuel w module g u self = Ok (res u)) →
  ∀ acc : option bool,
    foldl (λ acc u,
      result <-? acc ;;
      nd <-? from_option (InternalAssert "dangling Node")
               (g_nodes g !! u.1) ;;
      if bool_decide (n_kind nd = Prim "CallMethod") then
        m <-? getInvokedModule w module g u.1 self ;;
        name <-? from_option (NoAttribute "name") (n_name nd) ;;
        gid' <-? method_graph w m name ;;
        g' <-? get_graph w gid' ;;
        inp <-? from_option (OutOfRange "inputs")
                  (graph_inputs g' !! u.2) ;;
        call_method_result <-? isWeight fuel w m gid' inp ;;
        match result with
        | Some r =>
            if bool_decide (call_method_result = r) then Ok result
            else Err (WeightMismatch v)
        | None => Ok (Some call_method_result)
        end
      else Ok result) (Ok acc) us
    = match acc, res <$> List.filter (call_method_use g) us with
      | Some r, rs =>
          if forallb (λ r', bool_decide (r' = r)) rs then Ok (Some r)
          else Err (WeightMismatch v)
      | None, [] => Ok None
      | None, r :: rs =>
          if forallb (λ r', bool_decide (r' = r)) rs then Ok (Some r)
          else Err (WeightMismatch v)
      end.
Proof.
  induction us as [|u us IH]; intros Hlive Hres acc.
  { by destruct acc. }
  destruct (Hlive u ltac:(left)) as [nd Hnd].
  specialize (IH (λ u' Hu', Hlive u' ltac:(by right))
                 (λ u' Hu', Hres u' ltac:(by right))).
  assert (Hf : List.filter (call_method_use g) (u :: us)
               = if call_method_use g u
                 then u :: List.filter (call_method_use g) us
                 else List.filter (call_method_use g) us) by done.
  rewrite Hf. clear Hf.
  pose proof (Hres u ltac:(left)) as Hu.
  change (foldl ?f (Ok acc) (u :: us)) with (foldl f (f (Ok acc) u) us).
  cbv beta. simpl rbind. rewrite Hnd. simpl.
  destruct (decide (n_kind nd = Prim "CallMethod")) as [Hk|Hk].
  - assert (Hcm : call_method_use g u = true).
    { unfold call_method_use. rewrite Hnd. simpl.
      apply bool_decide_eq_true_2. by rewrite Hk. }
    rewrite Hcm. rewrite (bool_decide_eq_true_2 (n_kind nd = _)) by done.
    specialize (Hu Hcm). unfold call_method_result in Hu.
    rewrite Hnd in Hu. simpl in Hu.
    apply rbind_inv in Hu as (m & Hm & Hu). rewrite Hm. simpl.
    apply rbind_inv in Hu as (name & Hname & Hu). rewrite Hname. simpl.
    apply rbind_inv in Hu as (gid' & Hgid & Hu). rewrite Hgid. simpl.
    apply rbind_inv in Hu as (g' & Hg' & Hu). rewrite Hg'. simpl.
    apply rbind_inv in Hu as (inp & Hinp & Hu). rewrite Hinp. simpl.
    rewrite Hu. simpl.
    destruct acc as [r|].
    + case_bool_decide as Hr.
      * by rewrite IH.
      * simpl. apply (foldl_rbind_err (λ result u0, _)).
    + by rewrite IH.
  - assert (Hcm : call_method_use g u = false).
    { unfold call_method_use. rewrite Hnd. simpl.
      apply bool_decide_eq_false_2. congruence. }
    rewrite Hcm. rewrite (bool_decide_eq_false_2 (n_kind nd = _)) by done.
    destruct acc as [r|]; by rewrite IH.
Qed.

(** X11: for a value that is not a weight by itself, [isWeight] goes by the
    [prim::CallMethod] nodes that use it: without such a use the value is no
    weight; otherwise the value is what the first invoked method finds for
    the matching input, provided every other invoked method finds the same,
    and the call fails with the weight mismatch error as soon as two of
    them differ. *)
Theorem isWeight_call_methods (fuel : nat) (w : World) (module : ObjId)
    (gid : GraphId) (v : Value) (g : Graph) (self : Value)
    (res : NodeId * nat → bool) :
  w_graphs w !! gid = Some g →
  isWeightValue g v = false →
  graph_inputs g !! 0 = Some self →
  (∀ u, u ∈ uses_in g v → call_method_use g u = true →
     call_method_result fuel w module g u self = Ok (res u)) →
  isWeight (S fuel) w module gid v
  = match res <$> List.filter (call_method_use g) (uses_in g v) with
    | [] => Ok false
    | r :: rs =>
        if forallb (λ r', bool_decide (r' = r)) rs then Ok r
        else Err (WeightMismatch v)
    end.
Proof.
  intros Hg Hw Hself Hres. simpl. unfold get_graph. rewrite Hg. simpl.
  rewrite Hw, Hself. simpl.
  rewrite (isWeight_loop fuel w module g v self res).
  - destruct (res <$> _) as [|r rs]; [done|]. by destruct (forallb _ rs).
  - intros [u off] Hu. apply elem_of_uses_in in Hu as (_ & nd & Hnd & _).
    by exists nd.
  - done.
Qed.

(** *** The subgraph of a weight is extracted once *)

Lemma extractAndRunWeightObserver_recorded (fuel : nat) (module : ObjId)
    (g : GraphId) (self weight_value : Value) (st : State) (gr : Graph)
    (fn : list NodeId) :
  w_graphs (world st) !! g = Some gr →
  weight_to_graph_fn_ (helper st) !! (g, weight_value) = Some fn →
  extractAndRunWeightObserver fuel module g self weight_value st
  = rbind (runGraphFunction gr fn module (world st))
      (λ w', Ok (tt, mkState w' (helper st))).
Proof.
  destruct st as [w h]. simpl. intros Hg Hfn.
  unfold extractAndRunWeightObserver, bind, in_world, in_helper, get, lift,
    get_graph, ret.
  simpl. rewrite Hg. simpl. rewrite Hfn. simpl. rewrite Hfn. simpl.
  by destruct (runGraphFunction gr fn module w).
Qed.

(** X12: once [extractAndRunWeightObserver] has returned for a weight, the
    subgraph of that weight is recorded in [weight_to_graph_fn_]: it is the
    entry that was there before the call, or, without one, the reverse of
    what [findSubgraph] collects.  Every later call for the same weight, for
    whatever module instance, runs that recorded subgraph and leaves the
    helper as it is; [findSubgraph] is not run again. *)
Theorem extractAndRunWeightObserver_extracts_once (fuel : nat)
    (module : ObjId) (g : GraphId) (self weight_value : Value)
    (st st1 : State) :
  extractAndRunWeightObserver fuel module g self weight_value st
    = Ok (tt, st1) →
  ∃ (gr : Graph) (fn : list NodeId),
    w_graphs (world st) !! g = Some gr ∧
    weight_to_graph_fn_ (helper st1) !! (g, weight_value) = Some fn ∧
    match weight_to_graph_fn_ (helper st) !! (g, weight_value) with
    | Some fn0 => fn = fn0
    | None =>
        ∃ weight_subgraph,
          findSubgraph fuel gr self weight_value [] = Ok weight_subgraph ∧
          fn = reverse weight_subgraph
    end ∧
    ∀ (fuel' : nat) (module' : ObjId) (self' : Value) (gr' : Graph),
      w_graphs (world st1) !! g = Some gr' →
      extractAndRunWeightObserver fuel' module' g self' weight_value st1
      = rbind (runGraphFunction gr' fn module' (world st1))
          (λ w', Ok (tt, mkState w' (helper st1))).
Proof.
  intros Hrun. unfold extractAndRunWeightObserver in Hrun.
  apply bind_inv in Hrun as (gr & s1 & Hgr & Hrun).
  apply in_world_inv in Hgr as (w1 & Hgr & ->).
  unfold get_graph in Hgr.
  destruct (w_graphs (world st) !! g) as [gr0|] eqn:Hg; [|done].
  simpl in Hgr. ok_inj Hgr.
  apply bind_inv in Hrun as (h & s2 & Hh & Hrun).
  apply in_helper_inv in Hh as (h' & Hh & ->). ok_inj Hh. simpl in Hrun.
  apply bind_inv in Hrun as ([] & s3 & Hmemo & Hrun).
  apply bind_inv in Hrun as (h3 & s4 & Hh & Hrun).
  apply in_helper_inv in Hh as (h' & Hh & ->). ok_inj Hh.
  apply bind_inv in Hrun as (fn & s5 & Hfn & Hrun).
  apply lift_inv in Hfn as [Hfn ->]. apply from_option_inv in Hfn.
  apply in_world_inv in Hrun as (w' & Hrun & ->). simpl in Hrun.
  exists gr, fn.
  assert (Hfn1 : weight_to_graph_fn_
                   (helper {| world := w'; helper := helper s3 |})
                 !! (g, weight_value) = Some fn) by exact Hfn.
  split_and!; [done|exact Hfn1| |].
  - case_bool_decide as Hnone.
    + rewrite Hnone.
      apply bind_inv in Hmemo as (weight_subgraph & s6 & Hsub & Hmemo).
      apply lift_inv in Hsub as [Hsub ->].
      apply in_helper_inv in Hmemo as (h' & Hmemo & ->). ok_inj Hmemo.
      simpl in Hfn1. rewrite lookup_insert_eq in Hfn1.
      exists weight_subgraph. split; [done|]. congruence.
    + ok_inj Hmemo.
      simpl in Hfn1. by rewrite Hfn1.
  - intros fuel' module' self' gr' Hg'.
    by apply extractAndRunWeightObserver_recorded.
Qed.

(** *** The result of [calculate_qparams] *)

(** X13: [checkCalculateQParamsResult] accepts a value exactly when it is a
    tuple of two tensors; every other value (no tuple, a tuple of another
    size, an element that is no tensor) is refused with the error of a
    malformed result. *)
Theorem checkCalculateQParamsResult_spec (qparams : IValue) :
  (checkCalculateQParamsResult qparams = Ok tt ∧
   ∃ scale zero_point,
     qparams = IVTuple [IVTensor scale; IVTensor zero_point]) ∨
  ((∃ msg, checkCalculateQParamsResult qparams = Err (MalformedResult msg)) ∧
   ∀ scale zero_point,
     qparams ≠ IVTuple [IVTensor scale; IVTensor zero_point]).
Proof.
  destruct qparams as [| | | | | |elems| | |];
    try (right; split; [by eexists|done]).
  destruct elems as [|e0 [|e1 [|e2 elems]]];
    try (right; split; [by eexists|done]).
  destruct e0, e1; try (right; split; [by eexists|done]).
  left. split; [done|]. eauto.
Qed.

(** *** One dequantize node per use *)

Lemma insertDeQuantForUses_outputs (us : list (NodeId * nat))
    (quantized_val original_val : Value) (meta : OutMeta) :
  ∀ (g : Graph) (i : nat) (ndv : NodeData) (outs : list Value) (g' : Graph),
    wf_next g → uses_valid g us →
    g_nodes g !! original_val.1 = Some ndv →
    n_outputs ndv !! original_val.2 = Some meta →
    insertDeQuantForUses quantized_val original_val us i g = Ok (outs, g') →
    outs = (λ j : nat, ((g_next g + j : NodeId), 0)) <$> seq 0 (length us).
Proof.
  induction us as [|[user offset] us IH];
    intros g i ndv outs g' Hwf Hval Hv Hmeta Hrun.
  { by ok_inj Hrun. }
  apply Forall_cons in Hval as [(ndu & Hu & Hoff & Hblk) Hval].
  simpl in Hu, Hoff, Hblk.
  pose proof (wf_next_fresh g Hwf) as Hfresh.
  assert (user ≠ g_next g) as Hne1 by (intros ->; congruence).
  set (g1 := mkGraph
     (<[user := with_inputs (<[offset := (g_next g, 0)]> (n_inputs ndu)) ndu]>
        (<[g_next g := dequant_node quantized_val meta i]> (g_nodes g)))
     (tree_insert user (g_next g, []) (g_block g))
     (S (g_next g)) (g_insert_before g)).
  assert (∀ x, g_nodes g1 !! x =
               if decide (x = user)
               then Some (with_inputs (<[offset := (g_next g, 0)]> (n_inputs ndu)) ndu)
               else if decide (x = g_next g)
                    then Some (dequant_node quantized_val meta i)
                    else g_nodes g !! x) as Hg1.
  { intros x. simpl. case_decide as E1; [subst; by rewrite lookup_insert_eq|].
    rewrite lookup_insert_ne by done.
    case_decide as E2; [subst; by rewrite lookup_insert_eq|].
    by rewrite lookup_insert_ne. }
  assert (wf_next g1) as Hwf1.
  { intros x ndx Hx. rewrite Hg1 in Hx. simpl.
    repeat case_decide; subst.
    - apply Hwf in Hu. lia.
    - lia.
    - apply Hwf in Hx. lia. }
  assert (∀ x, in_block_list x g = true → in_block_list x g1 = true) as Hblk1.
  { intros x Hx. unfold in_block_list in *. apply bool_decide_eq_true.
    apply bool_decide_eq_true in Hx. simpl. by apply block_ids_tree_insert. }
  assert (uses_valid g1 us) as Hval1.
  { unfold uses_valid in *. rewrite Forall_forall in Hval.
    apply Forall_forall. intros [u o] Huo.
    destruct (Hval _ Huo) as (ndx & Hx & Ho & Hb). simpl in *.
    destruct (decide (u = user)) as [->|Hne].
    - same_lookup. eexists. rewrite Hg1. rewrite decide_True by done.
      split; [done|]. split; [|by apply Hblk1]. simpl.
      by rewrite length_insert.
    - exists ndx. rewrite Hg1, decide_False by done.
      rewrite decide_False by (intros ->; congruence).
      split; [done|]. split; [done|]. by apply Hblk1. }
  assert (∃ ndv', g_nodes g1 !! original_val.1 = Some ndv' ∧
                  n_outputs ndv' !! original_val.2 = Some meta)
    as (ndv' & Hv' & Hmeta').
  { rewrite Hg1. destruct (decide (original_val.1 = user)) as [E|E].
    - rewrite E in Hv. same_lookup. eexists. split; [done|]. done.
    - rewrite decide_False by (intros E'; congruence). eauto. }
  simpl in Hrun.
  erewrite bind_ok in Hrun by (by eapply insertDeQuant_for_use).
  fold g1 in Hrun.
  apply bind_inv in Hrun as (outs' & g'' & Hrest & Hret). ok_inj Hret.
  rewrite (IH g1 (S i) ndv' outs' _ Hwf1 Hval1 Hv' Hmeta' Hrest).
  simpl. rewrite Nat.add_0_r. f_equal.
  rewrite <- (fmap_S_seq 0), <- list_fmap_compose.
  apply list_fmap_ext. intros _ j _. simpl. do 2 f_equal. lia.
Qed.

(** X14: [insertDeQuantForAllUse] on a live value gives every use of
    [original_val] a dequantize node of its own: it succeeds, creates one
    fresh node per use, in the order of the use list, returns their outputs
    in that order, and leaves the graph [rewired]: the [j]-th new node
    dequantizes [quantized_val] and is read in the slot of the [j]-th use,
    and nothing else has changed.  For a value that nobody reads the graph
    stays as it is. *)
Theorem insertDeQuantForAllUse_spec (g : Graph)
    (quantized_val original_val : Value) (ndv : NodeData) (meta : OutMeta) :
  wf_next g → users_in_blocks g →
  g_nodes g !! original_val.1 = Some ndv →
  n_outputs ndv !! original_val.2 = Some meta →
  ∃ g',
    insertDeQuantForAllUse quantized_val original_val g
    = Ok ((λ j : nat, ((g_next g + j : NodeId), 0))
            <$> seq 0 (length (uses_in g original_val)), g') ∧
    rewired g g' quantized_val (uses_in g original_val) ∧
    (uses_in g original_val = [] → g' = g).
Proof.
  intros Hwf Husers Hv Hmeta.
  assert (uses_valid g (uses_in g original_val)) as Hval.
  { apply Forall_forall. intros [u off] Hu.
    apply elem_of_uses_in in Hu as (_ & ndu & Hndu & Hoff).
    exists ndu. split; [done|]. split.
    - by eapply lookup_lt_Some.
    - apply (Husers u ndu Hndu). intros Hnil. simpl in Hnil.
      by rewrite Hnil in Hoff. }
  destruct (insertDeQuantForUses_rewired (uses_in g original_val) g
              quantized_val original_val 0 ndv meta Hwf Hval
              (NoDup_uses_in g original_val) Hv Hmeta)
    as (outs & g' & Hrun & Hre).
  pose proof (insertDeQuantForUses_outputs _ _ _ _ _ _ _ _ _ Hwf Hval Hv
                Hmeta Hrun) as ->.
  exists g'. split; [|split; [done|]].
  - unfold insertDeQuantForAllUse.
    erewrite bind_ok by apply uses_ok. exact Hrun.
  - intros Hnil. rewrite Hnil in Hrun. by ok_inj Hrun.
Qed.

End Pass.

(** * The theorems at work on the examples *)

(** With the per-tensor affine scheme recorded for graph 0, the per-channel
    affine scheme is let through. *)
Lemma checkQScheme_conflict_accepted_witness :
  checkQScheme 0 kPerChannelAffine helper_with_scheme
  = Ok (tt, helper_with_scheme).
Proof.
  apply (checkQScheme_conflict_accepted 0 kPerChannelAffine kPerTensorAffine).
  - reflexivity.
  - discriminate.
Defined.

(** The observer call of [observed_graph]. *)
Lemma findObserverName_spec_witness :
  ∃ r, findObserverName Z Z (3, 0) (observed_graph Z Z)
       = Ok (r, observed_graph Z Z) ∧
       ∀ name, r = Some name ↔
               observer_call Z Z (observed_graph Z Z) (3, 0) name.
Proof.
  apply (findObserverName_spec Z Z (observed_graph Z Z) (3, 0)).
  - unfold schema_ok, node_schema. apply (bool_decide_unpack _). vm_compute.
    exact I.
  - vm_compute. eauto.
Defined.


(** The walk from the product of [weight_graph]. *)
Lemma findSubgraph_reverse_execution_order_witness :
  execution_order Z Z (weight_graph Z Z) (0, 0) [3; 2; 4].
Proof.
  apply (findSubgraph_reverse_execution_order Z Z (weight_graph Z Z) (0, 0)
           5 (4, 0) [4; 2; 3]).
  vm_compute. reflexivity.
Defined.

(** The walk from the observer call of [observed_graph] meets the graph
    input [x]. *)
Lemma findSubgraph_unexpected_graph_input_witness :
  ∃ v', findSubgraph Z Z 4 (observed_graph Z Z) (0, 0) (3, 0) []
        = Err (UnexpectedGraphInput v' (0, 0)) ∧ v' ≠ (0, 0).
Proof.
  destruct (findSubgraph_unexpected_graph_input Z Z (observed_graph Z Z)
              (0, 0) (λ n, if decide (n = 1) then 5 else n) (3, 0) (0, 1))
    as [_ H].
  - unfold schema_ok, node_schema. apply (bool_decide_unpack _). vm_compute.
    exact I.
  - apply acyclic_intro. apply (bool_decide_unpack _). vm_compute. exact I.
  - vm_compute. eauto.
  - eapply traced_input; [reflexivity|].
    apply (bool_decide_unpack _). vm_compute. exact I.
  - reflexivity.
  - discriminate.
  - destruct (H 4 []) as (v' & Hrun & _ & _ & Hne); [vm_compute; lia|].
    exists v'. split; [exact Hrun|exact Hne].
Defined.


(** Static quantization of the observed value of [observed_graph]. *)
Lemma insertQuantizationOps_consumers_witness :
  ∃ g', insertQuantizationOps Z Z ex_getAttribute (ex_isWeightValue Z Z)
          (ex_getInvokedModule Z Z) 1 (observed_world Z Z) 0 0 (0, 0) 3 false
          ["x_scale_0"; "x_zero_point_0"; "x_scalar_type_0"] STATIC
          (observed_graph Z Z) = Ok (tt, g') ∧
        uses_in Z Z g' (3, 0) = [].
Proof.
  destruct (insertQuantizationOps_consumers Z Z ex_getAttribute
               (ex_isWeightValue Z Z) (ex_getInvokedModule Z Z) 1
               (observed_world Z Z) 0 0 (0, 0) 3 false
               ["x_scale_0"; "x_zero_point_0"; "x_scalar_type_0"] STATIC
               (observed_graph Z Z) (0, 1) 4
               (node_of Z Z (Prim "CallMethod") (Some "forward")
                  [(2, 0); (0, 1)] [("x.1", TensorT)])
               (node_of Z Z (Prim "Param") None []
                  [("self", ClassT 0); ("x", TensorT)])
               (node_of Z Z (Prim "Param") None []
                  [("self", ClassT 0); ("x", TensorT)])
               (mkOut "self" (ClassT 0)) (mkOut "x" TensorT) false)
    as (g' & quant & dequant & cq & Hrun & _ & _ & _ & _ & _ & Hnil & _).
  - unfold wf_next. apply (bool_decide_unpack _). vm_compute. exact I.
  - reflexivity.
  - reflexivity.
  - reflexivity.
  - discriminate.
  - reflexivity.
  - reflexivity.
  - reflexivity.
  - reflexivity.
  - reflexivity.
  - reflexivity.
  - discriminate.
  - reflexivity.
  - discriminate.
  - exists g'. split; [exact Hrun|exact Hnil].
Defined.

(** In dynamic mode the raw value [x] of [observed_graph] is also read by
    the new [choose_qparams] node, node 7, which is neither the observer
    call nor a quantize node. *)
Lemma insertQuantizationOps_dynamic_choose_qparams :
  ∃ g' c nd,
    insertQuantizationOps Z Z ex_getAttribute (ex_isWeightValue Z Z)
      (ex_getInvokedModule Z Z) 2 (observed_world Z Z) 0 0 (0, 0) 3 false
      ["x_scale_0"; "x_zero_point_0"; "x_scalar_type_0"] DYNAMIC
      (observed_graph Z Z) = Ok (tt, g') ∧
    g_nodes Z Z g' !! c = Some nd ∧
    (0, 1) ∈ n_inputs Z Z nd ∧
    c ≠ 3 ∧
    n_kind Z Z nd = Aten "_choose_qparams_per_tensor".
Proof.
  eexists _, 7, _. split; [vm_compute; reflexivity|].
  split; [vm_compute; reflexivity|].
  split; [|done]. apply (bool_decide_unpack _). vm_compute. exact I.
Qed.

(** A conditional with two outputs stops [ReplicateQuant]: it is not
    skipped. *)
Lemma ReplicateQuant_two_output_if_error :
  ReplicateQuant Z Z (two_output_if_graph Z Z) = Err (InternalAssert "output").
Proof. vm_compute. reflexivity. Qed.

(** The quantize node of [two_output_if_graph]. *)
Lemma ReplicateQuant_multi_output_if_fails_witness :
  ∃ e, ReplicateQuant Z Z (two_output_if_graph Z Z) = Err e.
Proof.
  apply (ReplicateQuant_multi_output_if_fails Z Z (two_output_if_graph Z Z) 10
           (node_of Z Z (Aten "quantize_per_tensor") None
              [(2, 0); (7, 0); (8, 0); (9, 0)] [("a.quant", TensorT)])
           (node_of Z Z (Prim "If") None [(0, 2)]
              [("a", TensorT); ("b", TensorT)])
           (2, 0)).
  - unfold wf_next. apply (bool_decide_unpack _). vm_compute. exact I.
  - apply (bool_decide_unpack _). vm_compute. exact I.
  - reflexivity.
  - by left.
  - reflexivity.
  - simpl. lia.
  - reflexivity.
  - reflexivity.
  - simpl. lia.
Defined.

(** Two runs on [observed_world]: the second one finds graph 0 recorded,
    leaves it as it is, and sets the attribute [x_scale_0] to the scale
    that the observer reports. *)
Lemma run_recorded_graph_witness :
  ∃ st1 st2 : State Z Z,
    run Z Z ex_getAttribute (ex_isWeightValue Z Z) (ex_getInvokedModule Z Z)
      (ex_invoke Z Z 2%Z 128%Z) id id id id 3 0 "forward"
      (mkState Z Z (observed_world Z Z) (empty_helper STATIC))
    = Ok (tt, st1) ∧
    run Z Z ex_getAttribute (ex_isWeightValue Z Z) (ex_getInvokedModule Z Z)
      (ex_invoke Z Z 2%Z 128%Z) id id id id 3 0 "forward" st1
    = Ok (tt, st2) ∧
    w_graphs Z Z (world Z Z st2) !! 0 = w_graphs Z Z (world Z Z st1) !! 0 ∧
    ∃ o' : Object Z Z,
      w_objects Z Z (world Z Z st2) !! 0 = Some o' ∧
      obj_attrs Z Z o' !! "x_scale_0" = Some (IVDouble Z Z 2%Z).
Proof.
  assert (Hgen : ∀ st1 st2 : State Z Z,
    run Z Z ex_getAttribute (ex_isWeightValue Z Z) (ex_getInvokedModule Z Z)
      (ex_invoke Z Z 2%Z 128%Z) id id id id 3 0 "forward" st1
    = Ok (tt, st2) →
    method_graph Z Z (world Z Z st1) 0 "forward" = Ok 0 →
    recorded Z Z st1 0 →
    getInvokedMethods Z Z (ex_getInvokedModule Z Z) (world Z Z st1) 0
      "forward" = Ok [] →
    observer_nodes_for_graph_ (helper Z Z st1) !! 0 = Some [3] →
    NoDup (recorded_names (helper Z Z st1) 0 [3]) →
    getQSchemeAndQParamVector Z Z (ex_invoke Z Z 2%Z 128%Z) id id id id
      (world Z Z st1) 0
      (default (observed_graph Z Z) (w_graphs Z Z (world Z Z st1) !! 0)) 3
    = Ok (kPerTensorAffine,
          [("_scale", IVDouble Z Z 2%Z); ("_zero_point", IVInt Z Z 128%Z);
           ("_scalar_type", IVScalarType Z Z kQUInt8)]) →
    default ∅ (qparam_name_map_for_node_ (helper Z Z st1) !! (0, 3))
      !! "_scale" = Some "x_scale_0" →
    w_graphs Z Z (world Z Z st2) !! 0 = w_graphs Z Z (world Z Z st1) !! 0 ∧
    ∃ o' : Object Z Z,
      w_objects Z Z (world Z Z st2) !! 0 = Some o' ∧
      obj_attrs Z Z o' !! "x_scale_0" = Some (IVDouble Z Z 2%Z)).
  { intros st1 st2 Hrun Hmethod Hrec Hinvoked Hobservers Hdistinct Hread
      Hname.
    pose proof (run_recorded_graph Z Z ex_getAttribute (ex_isWeightValue Z Z)
                  (ex_getInvokedModule Z Z) (ex_invoke Z Z 2%Z 128%Z)
                  id id id id 3 0 "forward" 0 st1 st2 tt Hrun Hmethod Hrec)
      as (_ & Hgraph & invoked & s1 & observers & Hinv & Hcallees & _ & Hobs
          & _ & _ & Hset).
    split; [exact Hgraph|].
    pose proof (eq_trans (eq_sym Hinvoked) Hinv) as Hnone.
    injection Hnone as <-.
    injection Hcallees as Hs1. subst s1.
    pose proof (eq_trans (eq_sym Hobservers) Hobs) as Hthree.
    injection Hthree as <-.
    pose proof (Hset Hdistinct 0 3 eq_refl)
      as (s & gr & tp & names & Hpre & Hgr & Htp & Hnames & Hall).
    injection Hpre as Hs. subst s.
    assert (default (observed_graph Z Z)
              (w_graphs Z Z (world Z Z st1) !! 0) = gr) as Egr
      by exact (f_equal (default (observed_graph Z Z)) Hgr).
    subst gr.
    pose proof (eq_trans (eq_sym Hread) Htp) as Hsame.
    injection Hsame as <-.
    assert (default ∅ (qparam_name_map_for_node_ (helper Z Z st1)
                         !! (0, 3)) = names) as Enames
      by exact (f_equal (default ∅) Hnames).
    subst names.
    pose proof (Hall "_scale" (IVDouble Z Z 2%Z) (list_elem_of_here _ _))
      as (a & o' & Ha & Ho' & Hattr).
    pose proof (eq_trans (eq_sym Hname) Ha) as Hx.
    injection Hx as <-.
    exists o'. split; [exact Ho'|exact Hattr]. }
  eexists _, _. split; [vm_compute; reflexivity|].
  match goal with
  | |- ?run_again = _ ∧ _ =>
      assert (run_again = Ok (tt, _)) as Hrun by (vm_compute; reflexivity)
  end.
  split; [exact Hrun|].
  apply (Hgen _ _ Hrun); clear Hgen Hrun.
  - vm_compute. reflexivity.
  - apply (bool_decide_unpack _). vm_compute. exact I.
  - vm_compute. reflexivity.
  - vm_compute. reflexivity.
  - apply (bool_decide_unpack _). vm_compute. exact I.
  - vm_compute. reflexivity.
  - vm_compute. reflexivity.
Defined.

(** C9: on [clamp_graph] the bound [lo] of the second clamp is quantized
    twice.  The first clamp has it converted, quantized (node 16),
    dequantized and converted back for both clamps; the scalar [(20, 0)]
    that the second clamp then reads is recorded in [quantized_values_],
    and is converted and quantized again (node 43) when the second clamp is
    processed. *)
Theorem propagateQuantizationOps_requantizes_clamp_bound :
  ∃ (st' : State Z Z) (g' : Graph Z Z),
    propagateQuantizationOps_graph Z Z (ex_getClampScalarInputUse Z Z)
      (ex_isClamp Z Z) (ex_isClamp Z Z) (ex_getFixedQParams Z Z)
      (ex_getPassThroughInputs Z Z) 200 0 (clamp_state Z Z) = Ok (tt, st') ∧
    w_graphs Z Z (world Z Z st') !! 0 = Some g' ∧
    reads_first Z Z g' 12 (Aten "scalar_tensor") (0, 2) ∧
    reads_first Z Z g' 16 (Aten "quantize_per_tensor") (12, 0) ∧
    reads_first Z Z g' 18 (Aten "dequantize") (16, 0) ∧
    reads_first Z Z g' 20 (Aten "item") (18, 0) ∧
    (20, 0) ∈ quantized_values_ (helper Z Z st') ∧
    reads_first Z Z g' 39 (Aten "scalar_tensor") (20, 0) ∧
    reads_first Z Z g' 43 (Aten "quantize_per_tensor") (39, 0) ∧
    reads_first Z Z g' 44 (Aten "dequantize") (43, 0) ∧
    reads_first Z Z g' 45 (Aten "item") (44, 0) ∧
    ∃ nd, g_nodes Z Z g' !! 4 = Some nd ∧ n_kind Z Z nd = Aten "clamp" ∧
          n_inputs Z Z nd !! 1 = Some (45, 0).
Proof.
  eexists _, _. split; [vm_compute; reflexivity|].
  split; [vm_compute; reflexivity|].
  repeat (split; [eexists; split; [vm_compute; reflexivity|by split]|]).
  split; [apply (bool_decide_unpack _); vm_compute; exact I|].
  repeat (split; [eexists; split; [vm_compute; reflexivity|by split]|]).
  eexists; split; [vm_compute; reflexivity|by split].
Qed.

(** ** Further properties at work *)

(** A symmetric scheme followed by two others is recorded as per-tensor
    affine for graph 0. *)
Lemma checkQScheme_first_scheme_recorded_witness :
  for_each [kPerTensorSymmetric; kPerChannelAffine; kPerTensorAffine]
    (checkQScheme 0) (empty_helper STATIC)
  = Ok (tt, set_qscheme_for_graph <[0 := kPerTensorAffine]>
              (empty_helper STATIC)).
Proof.
  apply (checkQScheme_first_scheme_recorded 0 kPerTensorSymmetric
           [kPerChannelAffine; kPerTensorAffine] (empty_helper STATIC)).
  reflexivity.
Defined.

(** The observed value of [observed_graph]: the call, its receiver and the
    observer's name are recorded. *)
Lemma collectObserverNodesAndValueToQuantize_effect_witness :
  ∃ module_instance : Value,
    input Z Z 3 0 (observed_graph Z Z)
      = Ok (module_instance, observed_graph Z Z) ∧
    collectObserverNodesAndValueToQuantize Z Z 0 0 (3, 0)
      (mkState Z Z (observed_world Z Z) (empty_helper STATIC))
    = Ok (tt, mkState Z Z (observed_world Z Z)
                (set_observer_nodes_for_graph (push_back 0 3)
                   (set_nodes_to_destroy (push_back 0 module_instance.1)
                      (set_nodes_to_destroy (push_back 0 3)
                         (set_observer_modules_to_remove
                            (push_back 0 "_observer_0")
                            (empty_helper STATIC)))))).
Proof.
  apply (collectObserverNodesAndValueToQuantize_effect Z Z 0 0 (3, 0)
           (mkState Z Z (observed_world Z Z) (empty_helper STATIC))
           (observed_graph Z Z) (Some "_observer_0")).
  - reflexivity.
  - vm_compute. reflexivity.
Defined.

(** [forward] of [calling_world] invokes [scale] on the module itself. *)
Lemma getInvokedMethods_spec_witness :
  ∃ n, n ∈ graph_nodes Z Z (calling_graph Z Z) ∧
       invokes Z Z (ex_getInvokedModule Z Z) (calling_world Z Z) 0
         (calling_graph Z Z) n 0 "scale".
Proof.
  apply (proj1 (getInvokedMethods_spec Z Z (ex_getInvokedModule Z Z)
                  (calling_world Z Z) 0 "forward" 0 (calling_graph Z Z)
                  [(0, "scale"); (0, "scale")] eq_refl eq_refl eq_refl
                  0 "scale")).
  apply list_elem_of_here.
Defined.

(** The first clamp of [clamp_graph] passes the dequantized input
    through. *)
Lemma getDequantizedInputs_spec_witness :
  ∃ r, getDequantizedInputs Z Z (ex_getPassThroughInputs Z Z) (3, 0)
         (clamp_graph Z Z) = Ok (r, clamp_graph Z Z) ∧
       ∀ ins, r = Some ins ↔
         ins = ex_getPassThroughInputs Z Z (clamp_graph Z Z) (3, 0) ∧
         ins ≠ [] ∧
         ∀ v : Value, v ∈ ins →
           n_kind Z Z <$> g_nodes Z Z (clamp_graph Z Z) !! v.1
           = Some (Aten "dequantize").
Proof.
  apply (getDequantizedInputs_spec Z Z (ex_getPassThroughInputs Z Z)
           (clamp_graph Z Z) (3, 0)).
  apply Forall_forall. apply (bool_decide_unpack _). vm_compute. exact I.
Defined.

(** The dequantize node of [quantized_graph] is bypassed. *)
Lemma removeDequantizeFromInputs_bypasses_witness :
  ∃ g', removeDequantizeFromInputs Z Z [(6, 0)] (quantized_graph Z Z)
        = Ok (tt, g') ∧
        g_nodes Z Z g' !! 6 = None.
Proof.
  destruct (removeDequantizeFromInputs_bypasses Z Z [(6, 0)]
              (quantized_graph Z Z)) as (g' & Hrun & _ & Hnodes).
  - unfold removable. split_and!.
    + unfold wf_next. apply (bool_decide_unpack _). vm_compute. exact I.
    + apply (bool_decide_unpack _). vm_compute. exact I.
    + intros v Hv. apply list_elem_of_singleton in Hv as ->.
      exists (node_of Z Z (Aten "dequantize") None [(5, 0)]
                [("x.dequant", TensorT)]), (5, 0).
      split_and!; try reflexivity.
      * simpl. lia.
      * apply (bool_decide_unpack _). vm_compute. exact I.
  - exists g'. split; [exact Hrun|]. exact (Hnodes 6).
Defined.

(** The dequantize node of [quantized_graph] has one use. *)
Lemma ReplicateDeQuant_unchanged_witness :
  ReplicateDeQuant Z Z (quantized_graph Z Z) = Ok (tt, quantized_graph Z Z).
Proof.
  apply (ReplicateDeQuant_unchanged Z Z (quantized_graph Z Z)).
  - unfold walk_live. apply (bool_decide_unpack _). vm_compute. exact I.
  - unfold dequantize_schema. apply (bool_decide_unpack _). vm_compute.
    exact I.
  - apply Forall_forall. apply (bool_decide_unpack _). vm_compute. exact I.
Defined.

(** The quantize node of [quantized_graph] reads a graph input. *)
Lemma ReplicateQuant_unchanged_witness :
  ReplicateQuant Z Z (quantized_graph Z Z) = Ok (tt, quantized_graph Z Z).
Proof.
  apply (ReplicateQuant_unchanged Z Z (quantized_graph Z Z)).
  intros n Hn.
  assert (Hnodes : graph_nodes Z Z (quantized_graph Z Z) = [2; 3; 4; 5; 6; 7])
    by reflexivity.
  rewrite Hnodes in Hn.
  repeat (apply elem_of_cons in Hn as [->|Hn]);
    [..|by apply elem_of_nil in Hn];
    (eexists; split; [reflexivity|]);
    try (intros [Hk|Hk]; discriminate Hk).
  intros _.
  exists (0, 1), (node_of Z Z (Prim "Param") None []
                    [("self", ClassT 0); ("x", TensorT)]).
  split_and!; [reflexivity|reflexivity|discriminate].
Defined.

(** The bounds of the clamps of [clamp_graph] are graph inputs. *)
Lemma ReplicateClampScalarArgs_unchanged_witness :
  ReplicateClampScalarArgs Z Z (ex_getClampScalarInputUse Z Z)
    (clamp_graph Z Z) = Ok (tt, clamp_graph Z Z).
Proof.
  apply (ReplicateClampScalarArgs_unchanged Z Z (ex_getClampScalarInputUse Z Z)
           (clamp_graph Z Z)).
  - unfold walk_live. apply (bool_decide_unpack _). vm_compute. exact I.
  - intros n nd i Hn Hnd Hi Huse.
    assert (Hnodes : graph_nodes Z Z (clamp_graph Z Z) = [2; 3; 4])
      by reflexivity.
    rewrite Hnodes in Hn.
    repeat (apply elem_of_cons in Hn as [->|Hn]);
      [..|by apply elem_of_nil in Hn];
      vm_compute in Hnd; injection Hnd as <-; simpl in Hi;
      (destruct i as [|i]; [|lia]); vm_compute in Huse; discriminate Huse.
Defined.

(** The input [w] of [calling_graph] is passed to [scale], where it is no
    weight. *)
Lemma isWeight_call_methods_witness :
  isWeight Z Z (ex_isWeightValue Z Z) (ex_getInvokedModule Z Z) 2
    (calling_world Z Z) 0 0 (0, 1)
  = Ok false.
Proof.
  apply (isWeight_call_methods Z Z (ex_isWeightValue Z Z)
           (ex_getInvokedModule Z Z) 1 (calling_world Z Z) 0 0 (0, 1)
           (calling_graph Z Z) (0, 0) (λ _, false)).
  - reflexivity.
  - reflexivity.
  - reflexivity.
  - intros u Hu _.
    assert (Huses : uses_in Z Z (calling_graph Z Z) (0, 1) = [(2, 1)])
      by (vm_compute; reflexivity).
    rewrite Huses in Hu. apply list_elem_of_singleton in Hu as ->.
    vm_compute. reflexivity.
Defined.

(** The subgraph of the product of [weight_graph] is recorded by the first
    call. *)
Lemma extractAndRunWeightObserver_extracts_once_witness :
  ∃ (st1 : State Z Z) (fn : list NodeId),
    extractAndRunWeightObserver Z Z (λ _ _ _ w, Ok w) 5 0 0 (0, 0) (4, 0)
      (mkState Z Z (mkWorld Z Z {[ 0 := weight_graph Z Z ]} ∅ ∅)
         (empty_helper STATIC))
    = Ok (tt, st1) ∧
    weight_to_graph_fn_ (helper Z Z st1) !! (0, (4, 0)) = Some fn.
Proof.
  assert (∃ st1 : State Z Z,
            extractAndRunWeightObserver Z Z (λ _ _ _ w, Ok w) 5 0 0 (0, 0)
              (4, 0)
              (mkState Z Z (mkWorld Z Z {[ 0 := weight_graph Z Z ]} ∅ ∅)
                 (empty_helper STATIC))
            = Ok (tt, st1)) as [st1 Hrun]
    by (eexists; vm_compute; reflexivity).
  destruct (extractAndRunWeightObserver_extracts_once Z Z (λ _ _ _ w, Ok w)
              5 0 0 (0, 0) (4, 0) _ st1 Hrun) as (gr & fn & _ & Hfn & _).
  exists st1, fn. split; [exact Hrun|exact Hfn].
Defined.

(** Both readers of the dequantized value of [shared_dequantize_graph] get
    a node of their own. *)
Lemma insertDeQuantForAllUse_spec_witness :
  ∃ g', insertDeQuantForAllUse Z Z (0, 1) (2, 0) (shared_dequantize_graph Z Z)
        = Ok ([(5, 0); (6, 0)], g').
Proof.
  destruct (insertDeQuantForAllUse_spec Z Z (shared_dequantize_graph Z Z)
              (0, 1) (2, 0)
              (node_of Z Z (Aten "dequantize") None [(0, 1)] [("x", TensorT)])
              (mkOut "x" TensorT))
    as (g' & Hrun & _).
  - unfold wf_next. apply (bool_decide_unpack _). vm_compute. exact I.
  - unfold users_in_blocks. apply (bool_decide_unpack _). vm_compute. exact I.
  - reflexivity.
  - reflexivity.
  - exists g'. exact Hrun.
Defined.
